(** * Antora content pipeline: page ids, URLs, the content catalog,
      the aggregate and the page composer

    A shallow embedding of the JavaScript sources, with the properties of
    the specification proved about it.

    JavaScript values are modelled as follows.  A property that may be
    [undefined] is an [option string]; an object used as a dictionary is a
    [gmap] keyed by strings; [File] objects live in a store and are referred
    to by their location, so that two references to one object stay one
    object; a method of the catalog is a computation over the store and the
    catalog, which either returns a value or throws. *)

From Stdlib Require Import ZArith QArith Lia Ascii String.
From stdpp Require Import gmap strings list sorting.

Local Open Scope Z_scope.

(** ** JavaScript strings *)

Module JS.

(** A value that is a string or [undefined]. *)
Definition value := option string.

(** Truthiness of a string or [undefined]: the empty string and
    [undefined] are falsy. *)
Definition truthy (v : value) : bool :=
  match v with
  | Some s => negb (String.eqb s "")
  | None => false
  end.

(** [a || b] on such values. *)
Definition orElse (a b : value) : value := if truthy a then a else b.

(** Conversion to string, as done by a template literal or by [+]. *)
Definition str (v : value) : string := default "undefined" v.

(** [a === b]. *)
Definition strictEq (a b : value) : bool := bool_decide (a = b).

(** [v === 'lit']. *)
Definition isStr (v : value) (lit : string) : bool := bool_decide (v = Some lit).

(** [s.startsWith(p)], returning the rest of [s] after [p]. *)
Fixpoint stripPrefix (p s : string) : option string :=
  match p, s with
  | EmptyString, _ => Some s
  | String a p', String b s' => if Ascii.eqb a b then stripPrefix p' s' else None
  | String _ _, EmptyString => None
  end.

Definition startsWith (s p : string) : bool := bool_decide (is_Some (stripPrefix p s)).

(** [s.indexOf(p)], [-1] when [p] does not occur. *)
Fixpoint indexOfFrom (p s : string) (i : Z) : Z :=
  match stripPrefix p s with
  | Some _ => i
  | None =>
      match s with
      | EmptyString => -1
      | String _ s' => indexOfFrom p s' (i + 1)
      end
  end.

Definition indexOf (s p : string) : Z := indexOfFrom p s 0.

Fixpoint take (n : nat) (s : string) : string :=
  match n, s with
  | S n', String a s' => String a (take n' s')
  | _, _ => EmptyString
  end.

Fixpoint drop (n : nat) (s : string) : string :=
  match n, s with
  | S n', String _ s' => drop n' s'
  | _, _ => s
  end.

(** [s.substr(start)] and [s.substr(start, len)] for [start >= 0]; a
    negative [len] gives the empty string. *)
Definition substrFrom (s : string) (start : Z) : string := drop (Z.to_nat start) s.
Definition substr (s : string) (start len : Z) : string :=
  take (Z.to_nat len) (drop (Z.to_nat start) s).

Definition len (s : string) : Z := Z.of_nat (String.length s).

(** [s.split(c)] for a one-character separator. *)
Fixpoint splitGo (c : ascii) (cur : string) (s : string) : list string :=
  match s with
  | EmptyString => [String.rev cur]
  | String a s' =>
      if Ascii.eqb a c then String.rev cur :: splitGo c EmptyString s'
      else splitGo c (String a cur) s'
  end.

Definition split (s : string) (c : ascii) : list string := splitGo c EmptyString s.

(** [l.join(sep)]; an [undefined] element is joined as the empty string. *)
Fixpoint join (sep : string) (l : list string) : string :=
  match l with
  | [] => ""
  | [x] => x
  | x :: l' => x +:+ sep +:+ join sep l'
  end.

Definition joinValues (sep : string) (l : list value) : string :=
  join sep (map (default "") l).

End JS.

(** ** Regular expressions

    A backtracking matcher with capture groups, for the fragment of
    JavaScript regular expressions that [PAGE_ID_RX] is written in.  The
    matcher tries the alternatives in the order the JavaScript engine does:
    a greedy quantifier takes as much as it can and gives back one character
    at a time, a lazy one takes as little as it can, an optional group is
    tried before it is skipped. *)

Module Regex.

Inductive re :=
| Bol                                  (* ^ *)
| Eol                                  (* $ *)
| Lit (s : string)                     (* literal text *)
| Plus (p : ascii → bool)              (* [class]+ *)
| PlusLazy (p : ascii → bool)          (* [class]+? *)
| Seq (a b : re)
| Opt (a : re)                         (* (?:a)? *)
| Group (n : nat) (a : re).            (* n-th capture group *)

(** The captures: group number to captured text; a group that did not
    take part in the match is absent ([undefined]). *)
Abbreviation captures := (gmap nat string).

(** A position in the input: the number of characters consumed and what
    is left. *)
Definition pos := (nat * string)%type.

Definition cont := pos → captures → option captures.

Section Loops.
Variable p : ascii → bool.

(** [class]* greedy from position [(i, s)], then [k]. *)
Fixpoint starGreedy (s : string) (i : nat) (c : captures) (k : cont) : option captures :=
  match s with
  | String a s' =>
      if p a then
        match starGreedy s' (S i) c k with
        | Some r => Some r
        | None => k (i, s) c
        end
      else k (i, s) c
  | EmptyString => k (i, s) c
  end.

(** [class]*? lazy from position [(i, s)], then [k]. *)
Fixpoint starLazy (s : string) (i : nat) (c : captures) (k : cont) : option captures :=
  match k (i, s) c with
  | Some r => Some r
  | None =>
      match s with
      | String a s' => if p a then starLazy s' (S i) c k else None
      | EmptyString => None
      end
  end.
End Loops.

Section Exec.

Fixpoint exec (r : re) (at_ : pos) (c : captures) (k : cont) : option captures :=
  match r with
  | Bol => if bool_decide (at_.1 = 0%nat) then k at_ c else None
  | Eol => if bool_decide (at_.2 = "") then k at_ c else None
  | Lit l =>
      match JS.stripPrefix l at_.2 with
      | Some s' => k ((at_.1 + String.length l)%nat, s') c
      | None => None
      end
  | Plus p =>
      match at_.2 with
      | String a s' => if p a then starGreedy p s' (S at_.1) c k else None
      | EmptyString => None
      end
  | PlusLazy p =>
      match at_.2 with
      | String a s' => if p a then starLazy p s' (S at_.1) c k else None
      | EmptyString => None
      end
  | Seq a b => exec a at_ c (λ at' c', exec b at' c' k)
  | Opt a =>
      match exec a at_ c k with
      | Some r => Some r
      | None => k at_ c
      end
  | Group n a =>
      exec a at_ c
        (λ at' c', k at' (<[n := JS.take (at'.1 - at_.1)%nat at_.2]> c'))
  end.
End Exec.

(** [s.match(r)] for a pattern anchored with [^]: the match is tried at
    the start of the input only. *)
Definition match_ (r : re) (s : string) : option captures :=
  exec r (0%nat, s) ∅ (λ _ c, Some c).

Definition notChar (x : ascii) : ascii → bool := λ a, negb (Ascii.eqb a x).

End Regex.

(** ** parse-page-id.js *)

Module Src.
(** The [src] object of a file, which is also what [parsePageId] returns
    and what it takes as context. *)
Record t := mk {
  component : JS.value;
  version : JS.value;
  module : JS.value;
  family : JS.value;
  relative : JS.value;
  basename : JS.value;
  extname : JS.value;
  stem : JS.value;
  mediaType : JS.value;
  moduleRootPath : JS.value;
}.

Definition empty : t := mk None None None None None None None None None None.

Global Instance eq_dec : EqDecision t.
Proof. solve_decision. Defined.

Definition setVersion (v : JS.value) (s : t) : t :=
  mk (component s) v (module s) (family s) (relative s) (basename s)
     (extname s) (stem s) (mediaType s) (moduleRootPath s).
Definition setFamily (v : JS.value) (s : t) : t :=
  mk (component s) (version s) (module s) v (relative s) (basename s)
     (extname s) (stem s) (mediaType s) (moduleRootPath s).
Definition setModule (v : JS.value) (s : t) : t :=
  mk (component s) (version s) v (family s) (relative s) (basename s)
     (extname s) (stem s) (mediaType s) (moduleRootPath s).
Definition setRelative (v : JS.value) (s : t) : t :=
  mk (component s) (version s) (module s) (family s) v (basename s)
     (extname s) (stem s) (mediaType s) (moduleRootPath s).
Definition setModuleRootPath (v : JS.value) (s : t) : t :=
  mk (component s) (version s) (module s) (family s) (relative s) (basename s)
     (extname s) (stem s) (mediaType s) v.
Definition setComponentVersion (c v : JS.value) (s : t) : t :=
  mk c v (module s) (family s) (relative s) (basename s)
     (extname s) (stem s) (mediaType s) (moduleRootPath s).
End Src.

Module PageId.
Import Regex.

(** /^(?:([^@]+)@)?(?:(?:([^:]+):)?(?:([^:]+))?:)?([^:]+?)(?:\.adoc)?$/ *)
Definition PAGE_ID_RX : re :=
  Seq Bol
 (Seq (Opt (Seq (Group 1 (Plus (notChar "@"))) (Lit "@")))
 (Seq (Opt (Seq (Opt (Seq (Group 2 (Plus (notChar ":"))) (Lit ":")))
           (Seq (Opt (Group 3 (Plus (notChar ":"))))
                (Lit ":"))))
 (Seq (Group 4 (PlusLazy (notChar ":")))
 (Seq (Opt (Lit ".adoc"))
      Eol)))).

Module PAGE_ID_RXG.
Definition version := 1%nat.
Definition component := 2%nat.
Definition module := 3%nat.
Definition page := 4%nat.
End PAGE_ID_RXG.

Definition parsePageId (spec : string) (ctx : Src.t) : option Src.t :=
  match match_ PAGE_ID_RX spec with
  | None => None
  | Some m =>
      let version := m !! PAGE_ID_RXG.version in
      let component := m !! PAGE_ID_RXG.component in
      let module := m !! PAGE_ID_RXG.module in
      let relative := Some (JS.str (m !! PAGE_ID_RXG.page) +:+ ".adoc") in
      let family := Some "page" in
      let '(component, version, module) :=
        if JS.truthy component then
          (component, version, if negb (JS.truthy module) then Some "ROOT" else module)
        else
          (Src.component ctx,
           if negb (JS.truthy version) then Src.version ctx else version,
           if negb (JS.truthy module) then Src.module ctx else module) in
      Some {| Src.component := component; Src.version := version;
              Src.module := module; Src.family := family;
              Src.relative := relative; Src.basename := None;
              Src.extname := None; Src.stem := None;
              Src.mediaType := None; Src.moduleRootPath := None |}
  end.

End PageId.


(** ** Node's [path.posix]

    The functions of Node's [path] module that the sources call, on POSIX
    paths.  [relative] resolves both its arguments against the working
    directory of the process, which is a parameter here. *)

Module Path.

Definition isSep (a : ascii) : bool := Ascii.eqb a "/".

Fixpoint dropWhile (p : ascii → bool) (s : string) : string :=
  match s with
  | String a s' => if p a then dropWhile p s' else s
  | EmptyString => s
  end.

Fixpoint takeWhile (p : ascii → bool) (s : string) : string :=
  match s with
  | String a s' => if p a then String a (takeWhile p s') else EmptyString
  | EmptyString => s
  end.

Definition isAbsolute (p : string) : bool :=
  match p with String a _ => isSep a | EmptyString => false end.

Definition endsWithSep (p : string) : bool :=
  match String.rev p with String a _ => isSep a | EmptyString => false end.

(** [normalizeString]: drops empty and [.] segments and resolves [..]
    against the segment before it; the result is kept as the stack of
    segments, last one first. *)
Fixpoint normalizeSegments (allowAboveRoot : bool) (segs : list string)
    (stack : list string) : list string :=
  match segs with
  | [] => stack
  | seg :: segs' =>
      if bool_decide (seg = "" ∨ seg = ".") then
        normalizeSegments allowAboveRoot segs' stack
      else if bool_decide (seg = "..") then
        match stack with
        | top :: stack' =>
            if bool_decide (top = "..") then
              normalizeSegments allowAboveRoot segs'
                (if allowAboveRoot then ".." :: stack else stack)
            else normalizeSegments allowAboveRoot segs' stack'
        | [] =>
            normalizeSegments allowAboveRoot segs'
              (if allowAboveRoot then [".."] else [])
        end
      else normalizeSegments allowAboveRoot segs' (seg :: stack)
  end.

Definition normalizeString (p : string) (allowAboveRoot : bool) : string :=
  JS.join "/" (rev (normalizeSegments allowAboveRoot (JS.split p "/") [])).

Definition normalize (p : string) : string :=
  if bool_decide (p = "") then "."
  else
    let isAbs := isAbsolute p in
    let trailingSeparator := endsWithSep p in
    let p' := normalizeString p (negb isAbs) in
    if bool_decide (p' = "") then
      if isAbs then "/" else if trailingSeparator then "./" else "."
    else
      let p'' := if trailingSeparator then p' +:+ "/" else p' in
      if isAbs then "/" +:+ p'' else p''.

(** [path.join(...args)] on strings. *)
Definition join (args : list string) : string :=
  match filter (λ a, a ≠ "") args with
  | [] => "."
  | parts => normalize (JS.join "/" parts)
  end.

(** [path.join(...args)] where an argument may be [undefined]: Node
    validates that every argument is a string and throws a [TypeError]
    otherwise, which is [None] here. *)
Definition joinValues (args : list JS.value) : option string :=
  join <$> mapM id args.

(** [path.dirname(p)]. *)
Definition dirname (p : string) : string :=
  match p with
  | EmptyString => "."
  | String a rest =>
      let r := dropWhile (λ c, negb (isSep c)) (dropWhile isSep (String.rev rest)) in
      let end_ := String.length r in
      if bool_decide (end_ = 0%nat) then (if isSep a then "/" else ".")
      else if isSep a && bool_decide (end_ = 1%nat) then "//"
      else JS.take end_ p
  end.

(** [path.basename(p)]. *)
Definition basename (p : string) : string :=
  String.rev (takeWhile (λ c, negb (isSep c)) (dropWhile isSep (String.rev p))).

(** [path.basename(p, ext)], for an [ext] that is empty or the extension
    of [p], which is how the sources call it. *)
Definition basenameExt (p ext : string) : string :=
  if bool_decide (ext = "") || negb (String.length ext <=? String.length p)%nat then basename p
  else if bool_decide (ext = p) then ""
  else
    let base := basename p in
    match JS.stripPrefix (String.rev ext) (String.rev base) with
    | Some r => if bool_decide (r = "") then base else String.rev r
    | None => base
    end.

(** [path.extname(p)]: from the last [.] of the last segment, and empty
    when there is none, when that segment starts with its only [.] or
    when it is [..]. *)
Definition extname (p : string) : string :=
  let base := basename p in
  let rbase := String.rev base in
  let rext := takeWhile (λ c, negb (Ascii.eqb c ".")) rbase in
  if bool_decide (String.length rext = String.length base) then ""
  else if bool_decide (S (String.length rext) = String.length base) then ""
  else if bool_decide (base = "..") then ""
  else "." +:+ String.rev rext.

(** [path.resolve(p)] from the working directory [cwd], as the list of
    segments of the absolute path. *)
Definition resolveSegments (cwd p : string) : list string :=
  rev (normalizeSegments false
         (JS.split (if isAbsolute p then p else cwd +:+ "/" +:+ p) "/") []).

Fixpoint stripCommon (a b : list string) : list string * list string :=
  match a, b with
  | x :: a', y :: b' => if bool_decide (x = y) then stripCommon a' b' else (a, b)
  | _, _ => (a, b)
  end.

(** [path.relative(from, to)]. *)
Definition relative (cwd from to : string) : string :=
  if bool_decide (from = to) then ""
  else
    let '(up, down) := stripCommon (resolveSegments cwd from) (resolveSegments cwd to) in
    JS.join "/" (map (λ _, "..") up ++ down).

End Path.

(** ** Files, errors and the store *)

(** The location of a [File] object in the store. *)
Abbreviation loc := nat.

Module Out.
Record t := mk {
  dirname : string;
  basename : string;
  path : string;
  moduleRootPath : string;
  rootPath : string;
}.
End Out.

Module Pub.
Record t := mk {
  url : string;
  moduleRootPath : JS.value;
  rootPath : JS.value;
  canonicalUrl : JS.value;
}.
End Pub.

Module AsciiDoc.
Record t := mk {
  attributes : option (gmap string string);
  doctitle : JS.value;
}.
End AsciiDoc.

Module File.
(** A virtual file.  [isVinyl] tells a [File] instance from a plain
    object; [rel] refers to the target of an alias. *)
Record t := mk {
  isVinyl : bool;
  path : JS.value;
  mediaType : JS.value;
  contents : string;
  src : Src.t;
  out : option Out.t;
  pub : option Pub.t;
  rel : option loc;
  nav : option nat;
  asciidoc : option AsciiDoc.t;
  title : JS.value;
}.

Definition setVinyl (f : t) : t :=
  mk true (path f) (mediaType f) (contents f) (src f) (out f) (pub f) (rel f)
     (nav f) (asciidoc f) (title f).
Definition setSrc (s : Src.t) (f : t) : t :=
  mk (isVinyl f) (path f) (mediaType f) (contents f) s (out f) (pub f) (rel f)
     (nav f) (asciidoc f) (title f).
Definition setOut (o : Out.t) (f : t) : t :=
  mk (isVinyl f) (path f) (mediaType f) (contents f) (src f) (Some o) (pub f) (rel f)
     (nav f) (asciidoc f) (title f).
Definition setPub (p : Pub.t) (f : t) : t :=
  mk (isVinyl f) (path f) (mediaType f) (contents f) (src f) (out f) (Some p) (rel f)
     (nav f) (asciidoc f) (title f).
Definition setNav (n : nat) (f : t) : t :=
  mk (isVinyl f) (path f) (mediaType f) (contents f) (src f) (out f) (pub f) (rel f)
     (Some n) (asciidoc f) (title f).
Definition setContents (c : string) (f : t) : t :=
  mk (isVinyl f) (path f) (mediaType f) c (src f) (out f) (pub f) (rel f)
     (nav f) (asciidoc f) (title f).
End File.

(** What the sources throw.  Every [throw new Error(message)] of the sources
    has its constructor, named after the error kind and carrying the
    message; [TypeError] is what the JavaScript runtime throws when a
    property of [undefined] is read or when a function of [path] gets an
    argument that is not a string. *)
Inductive Error :=
| TypeError
| InvalidPageID (message : string)
| StartPageMissing (message : string)
| SiteStartPageMissing (message : string)
| DuplicateVersion (message : string)
| DuplicateFile (message : string)
| AliasConflict (message : string)
| LayoutNotFound (message : string).

Inductive Result (A : Type) :=
| Ok (a : A)
| Throw (e : Error).
Arguments Ok {A} a.
Arguments Throw {A} e.

Definition bindR {A B} (m : Result A) (k : A → Result B) : Result B :=
  match m with
  | Ok a => k a
  | Throw e => Throw e
  end.

(** Reading a property of a value that may be [undefined]. *)
Definition defined {A} (o : option A) : Result A :=
  match o with
  | Some a => Ok a
  | None => Throw TypeError
  end.

Module VersionEntry.
Record t := mk { title : JS.value; version : string; url : string }.
End VersionEntry.

Module Component.
Record t := mk {
  name : string;
  title : JS.value;
  url : string;
  versions : list VersionEntry.t;
}.

(** The getter [latestVersion]. *)
Definition latestVersion (c : t) : option VersionEntry.t := head (versions c).
End Component.

Module ContentCatalog.
Record t := mk {
  components : gmap string Component.t;
  files : gmap string loc;
  htmlUrlExtensionStyle : string;
}.
End ContentCatalog.

(** The state of a run: the store of [File] objects and the catalog. *)
Record State := mkState {
  heap : list File.t;
  catalog : ContentCatalog.t;
}.

(** A computation that reads and writes the state and returns or throws;
    what was written before a throw stays written. *)
Definition M (A : Type) : Type := State → Result A * State.

Definition ret {A} (a : A) : M A := λ st, (Ok a, st).
Definition throw {A} (e : Error) : M A := λ st, (Throw e, st).
Definition bind {A B} (m : M A) (k : A → M B) : M B :=
  λ st, match m st with
        | (Ok a, st') => k a st'
        | (Throw e, st') => (Throw e, st')
        end.
Definition lift {A} (r : Result A) : M A := λ st, (r, st).
Definition gets {A} (f : State → A) : M A := λ st, (Ok (f st), st).
Definition modify (f : State → State) : M unit := λ st, (Ok tt, f st).

Declare Scope js_scope.
Delimit Scope js_scope with js.
Notation "x <- m ;; k" := (bind m (λ x, k))
  (at level 100, m at next level, right associativity) : js_scope.
Notation "m ;; k" := (bind m (λ _, k))
  (at level 100, right associativity) : js_scope.
Notation "x <-? m ;; k" := (bindR m (λ x, k))
  (at level 100, m at next level, right associativity) : js_scope.
Local Open Scope js_scope.

(** Reading the object at a location. *)
Definition deref (l : loc) : M File.t :=
  λ st, (defined (heap st !! l), st).

(** Assigning to properties of the object at a location. *)
Definition update (l : loc) (f : File.t → File.t) : M unit :=
  modify (λ st, mkState (alter f l (heap st)) (catalog st)).

(** [new File(...)]. *)
Definition alloc (f : File.t) : M loc :=
  λ st, (Ok (length (heap st)), mkState (heap st ++ [f]) (catalog st)).

Definition getCatalog : M ContentCatalog.t := gets catalog.
Definition setCatalog (c : ContentCatalog.t) : M unit :=
  modify (λ st, mkState (heap st) c).

(** ** content-catalog.js *)

(** [array.findIndex(callback)] for a callback that may throw. *)
Fixpoint findIndexFrom {A} (f : A → Result bool) (l : list A) (i : Z) : Result Z :=
  match l with
  | [] => Ok (-1)
  | x :: l' => b <-? f x ;; if b : bool then Ok i else findIndexFrom f l' (i + 1)
  end.

Definition findIndex {A} (f : A → Result bool) (l : list A) : Result Z :=
  findIndexFrom f l 0.

(** [array.splice(i, 0, x)]. *)
Definition splice {A} (i : Z) (x : A) (l : list A) : list A :=
  take (Z.to_nat i) l ++ x :: drop (Z.to_nat i) l.

Definition generateId (s : Src.t) : string :=
  "$" +:+ JS.str (Src.family s) +:+ "/" +:+ JS.str (Src.version s) +:+ "@" +:+
  JS.str (Src.component s) +:+ ":" +:+ JS.str (Src.module s) +:+ ":" +:+
  JS.str (Src.relative s).

Definition expandPageSrc (src : Src.t) (family : string) : Result Src.t :=
  relative <-? defined (Src.relative src) ;;
  let basename := Path.basename relative in
  let extname := Path.extname relative in
  let stem := Path.basenameExt relative extname in
  Ok (Src.mk (Src.component src) (Src.version src) (Src.module src) (Some family)
        (Some relative) (Some basename) (Some extname) (Some stem)
        (Some "text/asciidoc") (Src.moduleRootPath src)).

Section Catalog.

(** The working directory of the process, which [path.relative] resolves
    its arguments against. *)
Variable cwd : string.

(** [./util/version-compare-desc] and [START_PAGE_ID] of [./constants]
    are not among the sources; the catalog is parametric in them. *)
Variable versionCompare : string → string → Z.
Variable START_PAGE_ID : Src.t.

Definition computeOut (src : Src.t) (family : JS.value) (htmlUrlExtensionStyle : string)
    : Result Out.t :=
  let component := Src.component src in
  let version := if JS.isStr (Src.version src) "master" then Some "" else Src.version src in
  let module := if JS.isStr (Src.module src) "ROOT" then Some "" else Src.module src in
  let stem := Src.stem src in
  let basename :=
    if JS.isStr (Src.mediaType src) "text/asciidoc" then Some (JS.str stem +:+ ".html")
    else Src.basename src in
  let '(basename, indexifyPathSegment) :=
    if JS.isStr family "page" && negb (JS.isStr stem "index") &&
       bool_decide (htmlUrlExtensionStyle = "indexify")
    then (Some "index.html", stem) else (basename, Some "") in
  let familyPathSegment :=
    if JS.isStr family "image" then "_images"
    else if JS.isStr family "attachment" then "_attachments"
    else "" in
  modulePath <-? defined (Path.joinValues [component; version; module]) ;;
  relative <-? defined (Src.relative src) ;;
  dirname <-? defined (Path.joinValues
    [Some modulePath; Some familyPathSegment; Some (Path.dirname relative);
     indexifyPathSegment]) ;;
  path_ <-? defined (Path.joinValues [Some dirname; basename]) ;;
  basename <-? defined basename ;;
  let moduleRootPath := JS.str (JS.orElse (Some (Path.relative cwd dirname modulePath)) (Some ".")) in
  let rootPath := JS.str (JS.orElse (Some (Path.relative cwd dirname "")) (Some ".")) in
  Ok (Out.mk dirname basename path_ moduleRootPath rootPath).

Definition computePub (src : Src.t) (out : option Out.t) (family : JS.value)
    (htmlUrlExtensionStyle : string) : Result Pub.t :=
  urlAndRoot <-?
    (if JS.isStr family "navigation" then
       let urlSegments :=
         [Src.component src] ++
         (if negb (JS.isStr (Src.version src) "master") then [Src.version src] else []) ++
         (if JS.truthy (Src.module src) && negb (JS.isStr (Src.module src) "ROOT")
          then [Src.module src] else []) in
       (* an artificial URL used for resolving page references in navigation model *)
       Ok ("/" +:+ JS.joinValues "/" urlSegments +:+ "/", Some ".")
     else if JS.isStr family "page" then
       out <-? defined out ;;
       let urlSegments := JS.split (Out.path out) "/" in
       let lastUrlSegmentIdx := (length urlSegments - 1)%nat in
       let urlSegments :=
         if bool_decide (htmlUrlExtensionStyle = "drop") then
           (* drop just the .html extension or, if the filename is index.html, the whole segment *)
           let lastUrlSegment := default "" (urlSegments !! lastUrlSegmentIdx) in
           <[lastUrlSegmentIdx :=
               if bool_decide (lastUrlSegment = "index.html") then ""
               else JS.substr lastUrlSegment 0 (JS.len lastUrlSegment - 5)]> urlSegments
         else if bool_decide (htmlUrlExtensionStyle = "indexify") then
           <[lastUrlSegmentIdx := ""]> urlSegments
         else urlSegments in
       Ok ("/" +:+ JS.join "/" urlSegments, None)
     else
       out <-? defined out ;;
       Ok ("/" +:+ Out.path out, None)) ;;
  let '(url, moduleRootPath) := urlAndRoot in
  Ok (match out with
      | Some out =>
          Pub.mk url (Some (Out.moduleRootPath out)) (Some (Out.rootPath out)) None
      | None => Pub.mk url moduleRootPath None None
      end).

Definition getComponent (name : JS.value) : M (option Component.t) :=
  c <- getCatalog ;; ret (ContentCatalog.components c !! JS.str name).

Definition getById (id : Src.t) : M (option loc) :=
  c <- getCatalog ;; ret (ContentCatalog.files c !! generateId id).

(** resolve-page.js *)
Definition resolvePage (spec : string) (ctx : Src.t) : M (option loc) :=
  match PageId.parsePageId spec ctx with
  | None => throw (InvalidPageID "Invalid page ID syntax")
  | Some id =>
      if negb (JS.truthy (Src.version id)) then
        component <- getComponent (Src.component id) ;;
        match component with
        | None => ret None
        | Some component =>
            latest <- lift (defined (Component.latestVersion component)) ;;
            getById (Src.setVersion (Some (VersionEntry.version latest)) id)
        end
      else getById id
  end.

(** The first part of [addComponentVersion]: the URL of the start page of
    the component version, that of the page [startPageSpec] or of
    [index.adoc], or the URL that [index.adoc] would have. *)
Definition startPageUrl (name version : string) (startPageSpec : JS.value) : M string :=
  startPage <- resolvePage
    (if JS.truthy startPageSpec then JS.str startPageSpec else "index.adoc")
    (Src.mk (Some name) (Some version) (Some "ROOT") None None None None None None None) ;;
  match startPage with
  | Some startPage =>
      file <- deref startPage ;;
      pub <- lift (defined (File.pub file)) ;;
      ret (Pub.url pub)
  | None =>
      if JS.truthy startPageSpec then
        throw (StartPageMissing
          ("Start page specified for " +:+ version +:+ "@" +:+ name +:+ " not found: "
           +:+ JS.str startPageSpec))
      else
        (* TODO throw error or report warning *)
        c <- getCatalog ;;
        let style := ContentCatalog.htmlUrlExtensionStyle c in
        lift (startPageSrc <-? expandPageSrc
                (Src.mk (Some name) (Some version) (Some "ROOT") None (Some "index.adoc")
                   None None None None None) "page" ;;
              startPageOut <-? computeOut startPageSrc (Src.family startPageSrc) style ;;
              pub <-? computePub startPageSrc (Some startPageOut)
                        (Src.family startPageSrc) style ;;
              Ok (Pub.url pub))
  end.

(** The second part of [addComponentVersion], for a component that the
    catalog has: the component with the entry of the version inserted. *)
Definition insertVersion (component : Component.t) (name version : string)
    (title : JS.value) (url : string) : Result Component.t :=
  let versions := Component.versions component in
  insertIdx <-? findIndex
    (λ candidate,
       let candidateVersion := VersionEntry.version candidate in
       if bool_decide (candidateVersion = version) then
         Throw (DuplicateVersion
           ("Duplicate version detected for component " +:+ name +:+ ": " +:+ version))
       else Ok (0 <? versionCompare candidateVersion version))
    versions ;;
  let versionEntry := VersionEntry.mk title version url in
  Ok (if insertIdx <? 0 then
        Component.mk (Component.name component) (Component.title component)
          (Component.url component) (versions ++ [versionEntry])
      else if insertIdx =? 0 then
        Component.mk (Component.name component) title url
          (splice insertIdx versionEntry versions)
      else
        Component.mk (Component.name component) (Component.title component)
          (Component.url component) (splice insertIdx versionEntry versions)).

Definition addComponentVersion (name version : string) (title startPageSpec : JS.value)
    : M unit :=
  url <- startPageUrl name version startPageSpec ;;
  c <- getCatalog ;;
  match ContentCatalog.components c !! name with
  | Some component =>
      component <- lift (insertVersion component name version title url) ;;
      setCatalog (ContentCatalog.mk (<[name := component]> (ContentCatalog.components c))
                    (ContentCatalog.files c) (ContentCatalog.htmlUrlExtensionStyle c))
  | None =>
      setCatalog (ContentCatalog.mk
        (<[name := Component.mk name title url [VersionEntry.mk title version url]]>
           (ContentCatalog.components c))
        (ContentCatalog.files c) (ContentCatalog.htmlUrlExtensionStyle c))
  end.

Definition isPublishableFamily (actingFamily : JS.value) : bool :=
  JS.isStr actingFamily "page" || JS.isStr actingFamily "image" ||
  JS.isStr actingFamily "attachment".

(** [!~('/' + relative).indexOf('/_')] *)
Definition noHiddenSegment (relative : JS.value) : bool :=
  JS.indexOf ("/" +:+ JS.str relative) "/_" =? -1.

(** The second part of [addFile]: the acting family of the file, its [out]
    when it is publishable and its [pub]. *)
Definition assignOutAndPub (file : loc) : M unit :=
  c <- getCatalog ;;
  f <- deref file ;;
  let family := Src.family (File.src f) in
  actingFamily <-
    (if JS.isStr family "alias" then
       rel <- lift (defined (File.rel f)) ;;
       target <- deref rel ;;
       ret (Src.family (File.src target))
     else ret family) ;;
  publishable <-
    (if bool_decide (is_Some (File.out f)) then ret true
     else if isPublishableFamily actingFamily && noHiddenSegment (Src.relative (File.src f))
     then
       out <- lift (computeOut (File.src f) actingFamily
                      (ContentCatalog.htmlUrlExtensionStyle c)) ;;
       update file (File.setOut out) ;;
       ret true
     else ret false) ;;
  f <- deref file ;;
  if negb (bool_decide (is_Some (File.pub f))) &&
     (publishable || JS.isStr actingFamily "navigation")
  then
    pub <- lift (computePub (File.src f) (File.out f) actingFamily
                   (ContentCatalog.htmlUrlExtensionStyle c)) ;;
    update file (File.setPub pub)
  else ret tt.

Definition addFile (file : loc) : M unit :=
  f <- deref file ;;
  let id := generateId (File.src f) in
  c <- getCatalog ;;
  if bool_decide (is_Some (ContentCatalog.files c !! id)) then
    throw (DuplicateFile
      ("Duplicate " +:+ JS.str (Src.family (File.src f)) +:+ ": " +:+
       JS.substrFrom id (JS.indexOf id "/" + 1)))
  else
    file <- (if File.isVinyl f then ret file else alloc (File.setVinyl f)) ;;
    assignOutAndPub file ;;
    c <- getCatalog ;;
    setCatalog (ContentCatalog.mk (ContentCatalog.components c)
                  (<[id := file]> (ContentCatalog.files c))
                  (ContentCatalog.htmlUrlExtensionStyle c)).

Definition getSiteStartPage : M (option loc) :=
  first <- getById START_PAGE_ID ;;
  page <- (match first with
           | Some page => ret (Some page)
           | None => getById (Src.setFamily (Some "alias") START_PAGE_ID)
           end) ;;
  match page with
  | Some page =>
      f <- deref page ;;
      ret (if JS.isStr (Src.family (File.src f)) "alias" then File.rel f else Some page)
  | None => ret None
  end.

Definition registerPageAlias (aliasSpec : string) (targetPage : loc) : M (option loc) :=
  target <- deref targetPage ;;
  match PageId.parsePageId aliasSpec (File.src target) with
  | None => ret None
  | Some src =>
      component <- getComponent (Src.component src) ;;
      match component with
      | None => ret None
      | Some component =>
          versionOrReturn <-
            (if JS.truthy (Src.version src) then
               let version := Src.version src in
               match List.find
                       (λ candidate, JS.strictEq (Some (VersionEntry.version candidate)) version)
                       (Component.versions component) with
               | None => ret None
               | Some _ => ret (Some src)
               end
             else
               latest <- lift (defined (Component.latestVersion component)) ;;
               ret (Some (Src.setVersion (Some (VersionEntry.version latest)) src))) ;;
          match versionOrReturn with
          | None => ret None
          | Some src =>
              existingPage <- getById src ;;
              match existingPage with
              | Some existingPage =>
                  existing <- deref existingPage ;;
                  let qualifiedSpec := generateId (File.src existing) in
                  let qualifiedSpec :=
                    JS.substrFrom qualifiedSpec (JS.indexOf qualifiedSpec "/" + 1) in
                  let message :=
                    if bool_decide (existingPage = targetPage)
                    then "Page alias cannot reference itself"
                    else "Page alias cannot reference an existing page" in
                  throw (AliasConflict (message +:+ ": " +:+ qualifiedSpec))
              | None =>
                  src <- lift (expandPageSrc src "alias") ;;
                  file <- alloc (File.mk true (File.path target) (Src.mediaType src) ""
                                   src None None (Some targetPage) None None None) ;;
                  addFile file ;;
                  ret (Some file)
              end
          end
      end
  end.

End Catalog.

(** ** classify-content.js *)

Module Playbook.
(** The fields of the playbook that the sources read. *)
Record t := mk {
  site_title : JS.value;
  site_url : JS.value;
  site_startPage : JS.value;
  urls_htmlExtensionStyle : JS.value;
  ui_outputDir : string;
  ui_defaultLayout : JS.value;
}.
End Playbook.

Module ComponentVersion.
(** A component version of the aggregate: the data of the component
    descriptor and the files. *)
Record t := mk {
  name : string;
  version : string;
  title : JS.value;
  start_page : JS.value;
  nav : option (list string);
  files : list loc;
}.
End ComponentVersion.

Fixpoint forEach {A} (f : A → M unit) (l : list A) : M unit :=
  match l with
  | [] => ret tt
  | x :: l' => f x ;; forEach f l'
  end.

Definition calculateRootPath (depth : nat) : string :=
  if bool_decide (depth ≠ 0%nat) then JS.join "/" (replicate depth "..") else ".".

(** The index of [filepath] among the navigation files of the component
    descriptor, when it is one of them. *)
Definition getNavInfo (filepath : string) (nav : list string) : option nat :=
  match findIndex (λ candidate, Ok (bool_decide (candidate = filepath))) nav with
  | Ok index => if index =? -1 then None else Some (Z.to_nat index)
  | Throw _ => None
  end.

(** What [allocateSrc] assigns to the properties of a file; [Some] of the
    file as assigned when it returns [true], [None] when it returns without
    having assigned anything. *)
Definition allocateSrcOn (file : File.t) (component version : string)
    (nav : option (list string)) : Result (option File.t) :=
  filepath <-? defined (File.path file) ;;
  let pathSegments := JS.split filepath "/" in
  let navInfo := match nav with Some nav => getNavInfo filepath nav | None => None end in
  let src := File.src file in
  let done (file : File.t) :=
    Ok (Some (File.setSrc
                (Src.setComponentVersion (Some component) (Some version) (File.src file))
                file)) in
  match navInfo with
  | Some index =>
      let file := File.setNav index file in
      let src := Src.setFamily (Some "navigation") src in
      if JS.isStr (pathSegments !! 0%nat) "modules" && (2 <? length pathSegments)%nat then
        let src := Src.setModule (pathSegments !! 1%nat) src in
        (* relative to modules/<module> *)
        let src := Src.setRelative (Some (JS.join "/" (drop 2 pathSegments))) src in
        let src := Src.setModuleRootPath
                     (Some (calculateRootPath (length pathSegments - 3))) src in
        done (File.setSrc src file)
      else
        (* relative to root *)
        done (File.setSrc (Src.setRelative (Some filepath) src) file)
  | None =>
      if JS.isStr (pathSegments !! 0%nat) "modules" then
        let finish (family : string) (from : nat) :=
          let src := Src.setFamily (Some family) src in
          let src := Src.setRelative (Some (JS.join "/" (drop from pathSegments))) src in
          let src := Src.setModule (pathSegments !! 1%nat) src in
          let src := Src.setModuleRootPath
                       (Some (calculateRootPath (length pathSegments - 3))) src in
          done (File.setSrc src file) in
        if JS.isStr (pathSegments !! 2%nat) "pages" then
          if JS.isStr (pathSegments !! 3%nat) "_partials" then
            (* relative to modules/<module>/pages/_partials *)
            finish "partial" 4%nat
          else if JS.isStr (Src.mediaType src) "text/asciidoc" then
            (* relative to modules/<module>/pages *)
            finish "page" 3%nat
          else Ok None
        else if JS.isStr (pathSegments !! 2%nat) "assets" then
          if JS.isStr (pathSegments !! 3%nat) "images" then
            (* relative to modules/<module>/assets/images *)
            finish "image" 4%nat
          else if JS.isStr (pathSegments !! 3%nat) "attachments" then
            (* relative to modules/<module>/assets/attachments *)
            finish "attachment" 4%nat
          else Ok None
        else if JS.isStr (pathSegments !! 2%nat) "examples" then
          (* relative to modules/<module>/examples *)
          finish "example" 3%nat
        else Ok None
      else Ok None
  end.

Definition allocateSrc (file : loc) (component version : string)
    (nav : option (list string)) : M bool :=
  f <- deref file ;;
  assigned <- lift (allocateSrcOn f component version nav) ;;
  match assigned with
  | Some f' => update file (λ _, f') ;; ret true
  | None => ret false
  end.

Section Classifier.

Variable cwd : string.
Variable versionCompare : string → string → Z.
Variable START_PAGE_ID : Src.t.

Definition newContentCatalog (playbook : Playbook.t) : ContentCatalog.t :=
  ContentCatalog.mk ∅ ∅
    (default "default" (Playbook.urls_htmlExtensionStyle playbook)).

Definition registerSiteStartPage (playbook : Playbook.t) : M unit :=
  let pageSpec := Playbook.site_startPage playbook in
  if negb (JS.truthy pageSpec) then ret tt
  else
    rel <- resolvePage (JS.str pageSpec) Src.empty ;;
    match rel with
    | None =>
        throw (SiteStartPageMissing
                 ("Specified start page for site not found: " +:+ JS.str pageSpec))
    | Some rel =>
        let src :=
          Src.mk (Src.component START_PAGE_ID) (Src.version START_PAGE_ID)
            (Src.module START_PAGE_ID) (Some "alias") (Src.relative START_PAGE_ID)
            (Some "index.adoc") (Src.extname START_PAGE_ID) (Some "index")
            (Some "text/asciidoc") (Src.moduleRootPath START_PAGE_ID) in
        file <- alloc (File.mk false None None "" src None None (Some rel) None None None) ;;
        addFile cwd file
    end.

Definition classifyContent (playbook : Playbook.t) (aggregate : list ComponentVersion.t)
    : M ContentCatalog.t :=
  setCatalog (newContentCatalog playbook) ;;
  forEach
    (λ cv,
       forEach
         (λ file,
            allocated <- allocateSrc file (ComponentVersion.name cv)
                           (ComponentVersion.version cv) (ComponentVersion.nav cv) ;;
            if allocated : bool then addFile cwd file else ret tt)
         (ComponentVersion.files cv) ;;
       addComponentVersion cwd versionCompare (ComponentVersion.name cv)
         (ComponentVersion.version cv) (ComponentVersion.title cv)
         (ComponentVersion.start_page cv))
    aggregate ;;
  registerSiteStartPage playbook ;;
  getCatalog.

End Classifier.

(** ** aggregate-content.js: [buildAggregate]

    The lodash chain, on association lists: the keys of the object that
    [groupBy] builds are visited in the order they were first inserted. *)

Module Aggregate.

(** A component version without its files: [_.omit(a, 'files')].  A
    property that the object does not have is [None]. *)
Record scalars := mkScalars {
  name : JS.value;
  version : JS.value;
  title : JS.value;
  start_page : JS.value;
  nav : option (list string);
}.

(** An element of the aggregate. *)
Record t := mk {
  fields : scalars;
  files : list loc;
}.

Definition emptyObject : scalars := mkScalars None None None None None.

Definition omitFiles (a : ComponentVersion.t) : scalars :=
  mkScalars (Some (ComponentVersion.name a)) (Some (ComponentVersion.version a))
    (ComponentVersion.title a) (ComponentVersion.start_page a) (ComponentVersion.nav a).

Definition assignProp {A} (a b : option A) : option A :=
  match b with Some _ => b | None => a end.

(** [_.assign(a, b)]: the properties of [b] overwrite those of [a]. *)
Definition assign (a b : scalars) : scalars :=
  mkScalars (assignProp (name a) (name b)) (assignProp (version a) (version b))
    (assignProp (title a) (title b)) (assignProp (start_page a) (start_page b))
    (assignProp (nav a) (nav b)).

Definition flattenDepth2 {A} (l : list (list (list A))) : list A := concat (concat l).

Fixpoint groupInsert {A} (key : string) (x : A) (groups : list (string * list A))
    : list (string * list A) :=
  match groups with
  | [] => [(key, [x])]
  | (k, xs) :: groups' =>
      if bool_decide (k = key) then (k, xs ++ [x]) :: groups'
      else (k, xs) :: groupInsert key x groups'
  end.

Definition groupBy {A} (iteratee : A → string) (l : list A) : list (string * list A) :=
  fold_left (λ groups x, groupInsert (iteratee x) x groups) l [].

Definition idOf (cv : ComponentVersion.t) : string :=
  ComponentVersion.version cv +:+ "@" +:+ ComponentVersion.name cv.

Definition mergeGroup (componentVersions : list ComponentVersion.t) : t :=
  mk (fold_left assign (map omitFiles componentVersions) emptyObject)
     (fold_left (λ a b, a ++ b) (map ComponentVersion.files componentVersions) []).

(** lodash's [compareAscending] on strings and [undefined]: strings by
    their code units, [undefined] last. *)
Definition compareAscending (value other : JS.value) : Z :=
  match value, other with
  | Some a, Some b =>
      match String.compare a b with Lt => -1 | Eq => 0 | Gt => 1 end
  | None, Some _ => 1
  | Some _, None => -1
  | None, None => 0
  end.

(** lodash's [compareMultiple] for the criteria [['name', 'version']]. *)
Definition compareMultiple (object other : t) : Z :=
  let byName := compareAscending (name (fields object)) (name (fields other)) in
  if byName =? 0
  then compareAscending (version (fields object)) (version (fields other))
  else byName.

(** A stable sort: an element goes after those that do not compare
    greater, so that ties keep the order of the input, as the index that
    lodash compares last makes them do. *)
Fixpoint insertSorted (x : t) (sorted : list t) : list t :=
  match sorted with
  | [] => [x]
  | y :: sorted' =>
      if compareMultiple x y <? 0 then x :: sorted else y :: insertSorted x sorted'
  end.

Definition sortBy (l : list t) : list t :=
  fold_left (λ sorted x, insertSorted x sorted) l [].

Definition buildAggregate (componentVersions : list (list (list ComponentVersion.t)))
    : list t :=
  sortBy (map (λ '(id, componentVersions), mergeGroup componentVersions)
            (groupBy idOf (flattenDepth2 componentVersions))).

End Aggregate.

(** ** create-page-composer.js *)

Module SiteUiModel.
(** The site model without [components] and [keys]. *)
Record t := mk {
  title : JS.value;
  url : JS.value;
  homeUrl : JS.value;
  ui_url : string;
  ui_defaultLayout : string;
}.
End SiteUiModel.

Module PageUiModel.
(** The page model.  [versions], [navigation], [breadcrumbs],
    [componentVersion], [editUrl] and [canonicalUrl], which
    [getPageVersions], the navigation catalog and [getBreadcrumbs] compute
    for the template, are left out: the composer itself reads [layout]
    only. *)
Record t := mk {
  layout : JS.value;
  title : JS.value;
  contents : option string;
  url : JS.value;
  description : JS.value;
  keywords : JS.value;
  attributes : string → JS.value;
  component : option Component.t;
  version : JS.value;
  module : JS.value;
  home : option bool;
}.
End PageUiModel.

Module UiModel.
(** The model passed to the template, without [antoraVersion] and [env]. *)
Record t := mk {
  page : PageUiModel.t;
  site : SiteUiModel.t;
  siteRootPath : JS.value;
  uiRootPath : string;
}.
End UiModel.

(** The page attributes of a document: the attribute [page-<name>] under
    the name [<name>]. *)
Definition pageAttributesOf (attributes : gmap string string) (name : string) : JS.value :=
  attributes !! ("page-" +:+ name).

Section Composer.

Variable START_PAGE_ID : Src.t.

(** [DEFAULT_LAYOUT_NAME] of [./constants], which is not among the
    sources. *)
Variable DEFAULT_LAYOUT_NAME : string.

Definition buildSiteUiModel (playbook : Playbook.t) : M SiteUiModel.t :=
  let siteUrl := Playbook.site_url playbook in
  let url :=
    if JS.truthy siteUrl then
      let siteUrl := JS.str siteUrl in
      Some (if bool_decide (JS.substr siteUrl (JS.len siteUrl - 1) 1 = "/")
            then JS.substr siteUrl 0 (JS.len siteUrl - 1) else siteUrl)
    else None in
  startPage <- getSiteStartPage START_PAGE_ID ;;
  homeUrl <-
    match startPage with
    | Some startPage =>
        f <- deref startPage ;;
        pub <- lift (defined (File.pub f)) ;;
        ret (Some (Pub.url pub))
    | None => ret None
    end ;;
  ret (SiteUiModel.mk (Playbook.site_title playbook) url homeUrl
         ("/" +:+ JS.join "/" (Path.resolveSegments "/" (Playbook.ui_outputDir playbook)))
         (JS.str (JS.orElse (Playbook.ui_defaultLayout playbook) (Some DEFAULT_LAYOUT_NAME)))).

Definition buildPageUiModel (file : loc) (site : SiteUiModel.t) : M PageUiModel.t :=
  f <- deref file ;;
  let componentName := Src.component (File.src f) in
  let version := Src.version (File.src f) in
  let stem := Src.stem (File.src f) in
  if negb (JS.truthy componentName) && JS.isStr stem "404" then
    ret (PageUiModel.mk stem (File.title f) None None None None (λ _, None) None None None None)
  else
    let attributes :=
      match File.asciidoc f with
      | Some asciidoc => default ∅ (AsciiDoc.attributes asciidoc)
      | None => ∅
      end in
    let pageAttributes := pageAttributesOf attributes in
    pub <- lift (defined (File.pub f)) ;;
    let url := Pub.url pub in
    component <- getComponent componentName ;;
    component <- lift (defined component) ;;
    let title :=
      match File.asciidoc f with
      | Some asciidoc => AsciiDoc.doctitle asciidoc
      | None => None
      end in
    ret (PageUiModel.mk
           (JS.orElse (pageAttributes "layout") (Some (SiteUiModel.ui_defaultLayout site)))
           title (Some (File.contents f)) (Some url)
           (attributes !! "description") (attributes !! "keywords") pageAttributes
           (Some component) version (Src.module (File.src f))
           (Some (JS.strictEq (Some url) (SiteUiModel.homeUrl site)))).

Definition buildUiModel (file : loc) (site : SiteUiModel.t) : M UiModel.t :=
  page <- buildPageUiModel file site ;;
  f <- deref file ;;
  pub <- lift (defined (File.pub f)) ;;
  uiRootPath <- lift (defined (Path.joinValues [Pub.rootPath pub; Some (SiteUiModel.ui_url site)])) ;;
  ret (UiModel.mk page site (Pub.rootPath pub) uiRootPath).

(** The function that [createPageComposerInternal] returns, for the site
    model and the compiled layouts it closes over. *)
Definition composePage (site : SiteUiModel.t) (layouts : gmap string (UiModel.t → string))
    (file : loc) : M loc :=
  uiModel <- buildUiModel file site ;;
  let layout := JS.str (PageUiModel.layout (UiModel.page uiModel)) in
  layout <-
    (if negb (bool_decide (is_Some (layouts !! layout))) then
       if bool_decide (layout = "404") then throw (LayoutNotFound "404 layout not found")
       else
         let defaultLayout := SiteUiModel.ui_defaultLayout (UiModel.site uiModel) in
         if bool_decide (defaultLayout = layout) then
           throw (LayoutNotFound (layout +:+ " layout not found"))
         else if negb (bool_decide (is_Some (layouts !! defaultLayout))) then
           throw (LayoutNotFound
                    ("Neither " +:+ layout +:+ " layout or fallback " +:+ defaultLayout
                     +:+ " layout found"))
         else ret defaultLayout
     else ret layout) ;;
  template <- lift (defined (layouts !! layout)) ;;
  update file (File.setContents (template uiModel)) ;;
  ret file.

End Composer.

(** ** Instances of the parameters and sample inputs *)

(** Modelled from the spec: [version-compare-desc] is not among the
    sources.  The specification asks for a total order over version strings,
    descending, negative when the first version is the newer one, and leaves
    the scheme open; this instance orders version strings by their
    characters, the greater string being the newer version, which is the
    order of the versions that the scenarios of the specification use. *)
Definition versionCompareDesc (a b : string) : Z :=
  match String.compare a b with
  | Lt => 1
  | Eq => 0
  | Gt => -1
  end.

(** A value for [START_PAGE_ID]: the id of a page [index.adoc] with empty
    coordinates, in line with the [basename] and [stem] that
    [registerSiteStartPage] gives the site start page. *)
Definition sampleStartPageId : Src.t :=
  Src.mk (Some "") (Some "") (Some "") (Some "page") (Some "index.adoc")
    None None None None None.

Definition samplePlaybook (startPage : JS.value) : Playbook.t :=
  Playbook.mk (Some "Docs") None startPage None "_" None.

(** A file as the aggregator hands it over: [assignFileProperties] has
    set the media type and the [basename], [stem] and [extname] of its path. *)
Definition rawFile (path mediaType : string) : File.t :=
  File.mk true (Some path) (Some mediaType) ""
    (Src.mk None None None None None (Some (Path.basename path))
       (Some (Path.extname path))
       (Some (Path.basenameExt path (Path.extname path)))
       (Some mediaType) None)
    None None None None None None.

Definition emptyState : State := mkState [] (ContentCatalog.mk ∅ ∅ "default").

(** The store with the page [modules/ROOT/pages/intro.adoc] and the
    aggregate with the component version [docs 2.0] that owns it. *)
Definition docsHeap : list File.t := [rawFile "modules/ROOT/pages/intro.adoc" "text/asciidoc"].
Definition docsAggregate : list ComponentVersion.t :=
  [ComponentVersion.mk "docs" "2.0" (Some "Docs") None None [0%nat]].

(** ** Auxiliary definitions for the statements *)

(** [version + "@" + component + ":" + module + ":" + relative]. *)
Definition formatPageId (id : Src.t) : string :=
  JS.str (Src.version id) +:+ "@" +:+ JS.str (Src.component id) +:+ ":" +:+
  JS.str (Src.module id) +:+ ":" +:+ JS.str (Src.relative id).

(** What [parsePageId] returns for the given coordinates and page path. *)
Definition pageId (component version module : JS.value) (relative : string) : Src.t :=
  Src.mk component version module (Some "page") (Some relative) None None None None None.

(** [s] at the first occurrence of the character [x]: what is before it
    and what is after it. *)
Fixpoint splitAt (x : ascii) (s : string) : option (string * string) :=
  match s with
  | EmptyString => None
  | String a s' =>
      if Ascii.eqb a x then Some (EmptyString, s')
      else match splitAt x s' with
           | Some (pre, post) => Some (String a pre, post)
           | None => None
           end
  end.

Fixpoint countChar (x : ascii) (s : string) : nat :=
  match s with
  | EmptyString => 0%nat
  | String a s' => ((if Ascii.eqb a x then 1 else 0) + countChar x s')%nat
  end.

(** [s] has none of the separators [@] and [:] and is not empty: a
    version, a component, a module or a page path of a page id. *)
Definition token (s : string) : Prop :=
  s ≠ "" ∧ countChar "@" s = 0%nat ∧ countChar ":" s = 0%nat.

(** The page path without its optional [.adoc] extension: the shortest
    non-empty prefix that is followed by [.adoc] or by nothing. *)
Fixpoint pageOfTail (s : string) : string :=
  match s with
  | EmptyString => EmptyString
  | String a s' => if bool_decide (s = ".adoc") then EmptyString else String a (pageOfTail s')
  end.

Definition pageOf (s : string) : string :=
  match s with
  | EmptyString => EmptyString
  | String a s' => String a (pageOfTail s')
  end.

(** What [PAGE_ID_RX] matches, read off the pattern from right to left:
    the page, the qualifiers before it and the version before them. *)
Definition pageMatch (s : string) (c : Regex.captures) : option Regex.captures :=
  if bool_decide (s ≠ "") && bool_decide (countChar ":" s = 0%nat)
  then Some (<[4%nat := pageOf s]> c) else None.

Definition orTry {A} (a b : option A) : option A :=
  match a with Some _ => a | None => b end.

Definition capturedThen (n : nat) (x : ascii) (s : string) (c : Regex.captures)
    (k : string → Regex.captures → option Regex.captures) : option Regex.captures :=
  match splitAt x s with
  | Some (pre, post) => if bool_decide (pre = "") then None else k post (<[n := pre]> c)
  | None => None
  end.

Definition moduleMatch (s : string) (c : Regex.captures) : option Regex.captures :=
  orTry (capturedThen 3 ":" s c pageMatch)
        (match s with
         | String a t => if Ascii.eqb a ":" then pageMatch t c else None
         | EmptyString => None
         end).

Definition qualifiersMatch (s : string) (c : Regex.captures) : option Regex.captures :=
  orTry (orTry (capturedThen 2 ":" s c moduleMatch) (moduleMatch s c)) (pageMatch s c).

Definition matchDirect (s : string) : option Regex.captures :=
  orTry (capturedThen 1 "@" s ∅ qualifiersMatch) (qualifiersMatch s ∅).

(** The [src] of the page [intro.adoc] of the module [ROOT] of [docs 1.0]. *)
Definition introSrc : Src.t :=
  Src.mk (Some "docs") (Some "1.0") (Some "ROOT") (Some "page") (Some "intro.adoc")
    (Some "intro.adoc") (Some ".adoc") (Some "intro") (Some "text/asciidoc") None.

(** The versions are in descending order: none is older, by
    [versionCompare], than one that comes after it. *)
Definition descending (versionCompare : string → string → Z)
    (versions : list VersionEntry.t) : Prop :=
  StronglySorted
    (λ a b, versionCompare (VersionEntry.version a) (VersionEntry.version b) ≤ 0)
    versions.

(** The versions of a component are in descending order, and the URL and
    the title of the component are those of its latest version. *)
Definition componentOk (versionCompare : string → string → Z) (c : Component.t) : Prop :=
  descending versionCompare (Component.versions c) ∧
  ∃ latest, Component.latestVersion c = Some latest ∧
            Component.versions c !! 0%nat = Some latest ∧
            Component.url c = VersionEntry.url latest ∧
            Component.title c = VersionEntry.title latest.

Definition catalogOk (versionCompare : string → string → Z) (st : State) : Prop :=
  ∀ name c, ContentCatalog.components (catalog st) !! name = Some c →
            componentOk versionCompare c.

(** A call of [addComponentVersion]. *)
Record Call := mkCall {
  call_name : string;
  call_version : string;
  call_title : JS.value;
  call_startPageSpec : JS.value;
}.

(** The state after a sequence of calls of [addComponentVersion], each of
    which returns or throws. *)
Definition runCalls (cwd : string) (versionCompare : string → string → Z)
    (calls : list Call) (st : State) : State :=
  fold_left
    (λ st call,
       (addComponentVersion cwd versionCompare (call_name call) (call_version call)
          (call_title call) (call_startPageSpec call) st).2)
    calls st.

(** The versions of a component of the catalog, latest first. *)
Definition versionsOf (st : State) (name : string) : list string :=
  match ContentCatalog.components (catalog st) !! name with
  | Some c => VersionEntry.version <$> Component.versions c
  | None => []
  end.

(** A computation that leaves the state as it is. *)
Definition readonly {A} (m : M A) : Prop := ∀ st, (m st).2 = st.

(** The [src] of the page [index.adoc] of the module [ROOT] of a component
    version, which [startPageUrl] computes the URL of when the catalog has no
    such page. *)
Definition indexSrc (name version : string) : Src.t :=
  Src.mk (Some name) (Some version) (Some "ROOT") (Some "page") (Some "index.adoc")
    (Some "index.adoc") (Some ".adoc") (Some "index") (Some "text/asciidoc") None.

(** A version goes in front of the first version that is older. *)
Fixpoint insertDescending (versionCompare : string → string → Z) (version : string)
    (versions : list string) : list string :=
  match versions with
  | [] => [version]
  | candidate :: versions' =>
      if 0 <? versionCompare candidate version then version :: versions
      else candidate :: insertDescending versionCompare version versions'
  end.

(** [a] is older than [b]: [versionCompare] puts [a] after [b]. *)
Definition olderThan (versionCompare : string → string → Z) (a b : string) : Prop :=
  0 < versionCompare a b.

(** The calls of the version ordering scenario. *)
Definition docsCalls : list Call :=
  [mkCall "docs" "1.0" None None; mkCall "docs" "2.0" None None;
   mkCall "docs" "1.5" None None; mkCall "docs" "3.0" None None].

(** The catalog that [classifyContent] builds from [docsAggregate]. *)
Definition docsState : State :=
  (classifyContent "/work" versionCompareDesc sampleStartPageId (samplePlaybook None)
     docsAggregate (mkState docsHeap (ContentCatalog.mk ∅ ∅ "default"))).2.

(** The message of the error for a version that the component has. *)
Definition duplicateVersionMessage (name version : string) : string :=
  "Duplicate version detected for component " +:+ name +:+ ": " +:+ version.

(** The acting family of a file: for an alias, the family of the file that
    [rel] refers to.  [None] when there is no such file, where [addFile]
    throws. *)
Definition actingFamilyOf (heap : list File.t) (f : File.t) : option JS.value :=
  if JS.isStr (Src.family (File.src f)) "alias" then
    match File.rel f with
    | Some rel =>
        match heap !! rel with
        | Some target => Some (Src.family (File.src target))
        | None => None
        end
    | None => None
    end
  else Some (Src.family (File.src f)).

(** No segment of the path begins with [_]. *)
Definition noSegmentHidden (relative : JS.value) : Prop :=
  Forall (λ segment, JS.startsWith segment "_" = false) (JS.split (JS.str relative) "/").

(** The publishable predicate of the specification. *)
Definition publishable (actingFamily relative : JS.value) : Prop :=
  (actingFamily = Some "page" ∨ actingFamily = Some "image" ∨
   actingFamily = Some "attachment") ∧
  noSegmentHidden relative.

(** The string begins with [_]. *)
Definition startsHidden (s : string) : bool :=
  match s with String a _ => Ascii.eqb a "_" | EmptyString => false end.

(** The first character of what [_] stands for in a path: whether the
    path, read from a position that is or is not the start of a segment, has
    no segment that begins with [_]. *)
Fixpoint noHiddenFrom (atStart : bool) (s : string) : bool :=
  match s with
  | EmptyString => true
  | String a s' =>
      if atStart && Ascii.eqb a "_" then false
      else noHiddenFrom (Ascii.eqb a "/") s'
  end.

(** What [assignOutAndPub] makes of a file of acting family [acting]:
    first the [out], then the [pub]. *)
Definition withOut (cwd style : string) (acting : JS.value) (f : File.t) : Result File.t :=
  if bool_decide (is_Some (File.out f)) then Ok f
  else if isPublishableFamily acting && noHiddenSegment (Src.relative (File.src f)) then
    out <-? computeOut cwd (File.src f) acting style ;; Ok (File.setOut out f)
  else Ok f.

Definition withPub (style : string) (acting : JS.value) (f : File.t) : Result File.t :=
  if negb (bool_decide (is_Some (File.pub f))) &&
     (bool_decide (is_Some (File.out f)) || JS.isStr acting "navigation")
  then pub <-? computePub (File.src f) (File.out f) acting style ;; Ok (File.setPub pub f)
  else Ok f.

(** The state with another store. *)
Definition withHeap (h : list File.t) (st : State) : State := mkState h (catalog st).

(** The state with a file registered in the catalog. *)
Definition withFile (id : string) (file : loc) (st : State) : State :=
  mkState (heap st)
    (ContentCatalog.mk (ContentCatalog.components (catalog st))
       (<[id := file]> (ContentCatalog.files (catalog st)))
       (ContentCatalog.htmlUrlExtensionStyle (catalog st))).

(** The page [intro.adoc] of [docs 1.0], classified and not yet added. *)
Definition introFile : File.t :=
  File.mk true (Some "modules/ROOT/pages/intro.adoc") (Some "text/asciidoc") ""
    introSrc None None None None None None.

(** The same page, with a [pub] that it has before it is added. *)
Definition introFileWithPub : File.t :=
  File.mk true (Some "modules/ROOT/pages/intro.adoc") (Some "text/asciidoc") ""
    introSrc None (Some (Pub.mk "/elsewhere" None None None)) None None None None.

(** A partial with a [pub] that it has before it is added. *)
Definition partialFileWithPub : File.t :=
  File.mk true (Some "modules/ROOT/pages/_partials/note.adoc") (Some "text/asciidoc") ""
    (Src.mk (Some "docs") (Some "1.0") (Some "ROOT") (Some "partial") (Some "note.adoc")
       (Some "note.adoc") (Some ".adoc") (Some "note") (Some "text/asciidoc") None)
    None (Some (Pub.mk "/elsewhere" None None None)) None None None None.

(** A store with one file and an empty catalog. *)
Definition oneFileState (f : File.t) : State :=
  mkState [f] (ContentCatalog.mk ∅ ∅ "default").

(** The id of the alias [old-intro] of the module [ROOT] of [docs 2.0], and
    the id of a page of that name. *)
Definition oldIntroAliasId : Src.t :=
  Src.mk (Some "docs") (Some "2.0") (Some "ROOT") (Some "alias") (Some "old-intro.adoc")
    None None None None None.

Definition oldIntroPageId : Src.t :=
  pageId (Some "docs") (Some "2.0") (Some "ROOT") "old-intro.adoc".

(** The id of the page [intro.adoc] of the module [ROOT] of [docs 2.0]. *)
Definition introPageId : Src.t :=
  pageId (Some "docs") (Some "2.0") (Some "ROOT") "intro.adoc".

(** The file that [registerPageAlias] creates for a target and the
    expanded [src] of the alias. *)
Definition aliasFile (target : File.t) (targetPage : loc) (src : Src.t) : File.t :=
  File.mk true (File.path target) (Src.mediaType src) "" src None None (Some targetPage)
    None None None.

(** The [src] of that alias, as [expandPageSrc] completes it. *)
Definition oldIntroAliasSrc : Src.t :=
  Src.mk (Some "docs") (Some "2.0") (Some "ROOT") (Some "alias") (Some "old-intro.adoc")
    (Some "old-intro.adoc") (Some ".adoc") (Some "old-intro") (Some "text/asciidoc") None.

(** ** The layout of a composed page *)

(** The test for the page of the site that reports a missing page. *)
Definition isNotFoundPage (f : File.t) : bool :=
  negb (JS.truthy (Src.component (File.src f))) && JS.isStr (Src.stem (File.src f)) "404".

(** The document attributes of a file. *)
Definition attributesOf (f : File.t) : gmap string string :=
  match File.asciidoc f with
  | Some asciidoc => default ∅ (AsciiDoc.attributes asciidoc)
  | None => ∅
  end.

(** The layout that a page asks for: that of the attribute [page-layout]
    when it is set to a string that is not empty, the default of the site
    otherwise; the page that reports a missing page asks for [404]. *)
Definition requestedLayout (site : SiteUiModel.t) (f : File.t) : string :=
  if isNotFoundPage f then "404"
  else match attributesOf f !! "page-layout" with
       | Some "" | None => SiteUiModel.ui_defaultLayout site
       | Some layout => layout
       end.

(** The state after the contents of a file are replaced. *)
Definition withContents (file : loc) (contents : string) (st : State) : State :=
  withHeap (alter (File.setContents contents) file (heap st)) st.

(** A site with the default layout [default], and two layouts. *)
Definition sampleSite : SiteUiModel.t := SiteUiModel.mk (Some "Docs") None None "/_" "default".

Definition sampleLayouts : gmap string (UiModel.t → string) :=
  {[ "default" := λ model, "<main>" +:+ default "" (PageUiModel.contents (UiModel.page model))
                             +:+ "</main>" ;
     "404" := λ model, "<h1>" +:+ JS.str (PageUiModel.title (UiModel.page model)) +:+ "</h1>" ]}.

(** The page that reports a missing page, as the site generator makes it:
    no component, the stem [404], no attributes. *)
Definition notFoundFile : File.t :=
  File.mk true None (Some "text/html") ""
    (Src.mk None None None None None None None (Some "404") None None)
    None (Some (Pub.mk "/404.html" None (Some "") None)) None None None
    (Some "Page Not Found").

(** ** navigation-catalog.js *)

Module NavItem.
(** An entry of a navigation tree, as [partitionContent] and
    [buildNavigationTree] make it; [discrete] marks the entry that
    [getBreadcrumbs] makes for a page outside the menu. *)
#[warnings="-register-all"] Inductive t := mk {
  content : JS.value;
  url : JS.value;
  urlType : JS.value;
  hash : JS.value;
  items : option (list t);
  discrete : bool;
}.
End NavItem.

Module NavTree.
(** A tree of a menu: a root entry and its [order], a number. *)
Record t := mk {
  order : Q;
  root : NavItem.t;
}.
End NavTree.

Module NavigationCatalog.

Abbreviation t := (gmap string (list NavTree.t)).

Definition generateId (component version : JS.value) : string :=
  JS.str component +:+ ":" +:+ JS.str version.

Definition addTree (component version : JS.value) (tree : NavTree.t) (menus : t) : t :=
  let id := generateId component version in
  let menu := default [] (menus !! id) in
  (* NOTE retain order on insert *)
  let insertIdx :=
    findIndex (λ candidate, Ok (Qle_bool (NavTree.order tree) (NavTree.order candidate)))
      menu in
  match insertIdx with
  | Ok insertIdx =>
      <[id := if insertIdx =? -1 then menu ++ [tree] else splice insertIdx tree menu]> menus
  | Throw _ => menus
  end.

Definition getMenu (component version : JS.value) (menus : t) : option (list NavTree.t) :=
  menus !! generateId component version.

End NavigationCatalog.

(** A menu is in order when the [order] of its trees does not decrease. *)
Definition menuOrdered (menu : list NavTree.t) : Prop :=
  StronglySorted (λ a b, (NavTree.order a <= NavTree.order b)%Q) menu.



(** ** page-composer: breadcrumbs *)

(** The URL of an entry without its fragment: [currentItemUrl] of
    [findBreadcrumbPath]. *)
Definition itemUrl (item : NavItem.t) : Result JS.value :=
  if JS.truthy (NavItem.hash item) then
    url <-? defined (NavItem.url item) ;;
    Ok (Some (JS.substr url 0 (JS.len url - JS.len (JS.str (NavItem.hash item)))))
  else Ok (NavItem.url item).

(** A loop over an array that returns the first result that is not
    [undefined]. *)
Definition findFirst {A B} (f : A → Result (option B)) : list A → Result (option B) :=
  fix loop (items : list A) : Result (option B) :=
    match items with
    | [] => Ok None
    | item :: items' =>
        found <-? f item ;;
        match found with
        | Some found => Ok (Some found)
        | None => loop items'
        end
    end.

Fixpoint findBreadcrumbPath (matchUrl : string) (currentItem : NavItem.t)
    (currentPath : list NavItem.t) {struct currentItem}
    : Result (option (list NavItem.t)) :=
  found <-? (if JS.isStr (NavItem.urlType currentItem) "internal" then
               currentItemUrl <-? itemUrl currentItem ;;
               Ok (JS.strictEq currentItemUrl (Some matchUrl))
             else Ok false) ;;
  if found : bool then Ok (Some (currentPath ++ [currentItem]))
  else
    match NavItem.items currentItem with
    | Some items =>
        findFirst
          (λ item,
             findBreadcrumbPath matchUrl item
               (if JS.truthy (NavItem.content currentItem)
                then currentPath ++ [currentItem] else currentPath))
          items
    | None => Ok None
    end.

(** The entry that [getBreadcrumbs] makes for a page that is in no tree of
    the menu. *)
Definition discreteEntry (pageUrl : string) (pageTitle : JS.value) : NavItem.t :=
  NavItem.mk pageTitle (Some pageUrl) (Some "internal") None None true.

(** The breadcrumbs of a page; the trees of the menu stand for their root
    entries. *)
Definition getBreadcrumbs (pageUrl : string) (pageTitle : JS.value) (menu : list NavTree.t)
    : Result (list NavItem.t) :=
  breadcrumbs <-? findFirst (λ tree, findBreadcrumbPath pageUrl (NavTree.root tree) []) menu ;;
  match breadcrumbs with
  | Some breadcrumbs => Ok breadcrumbs
  | None => Ok (if JS.truthy pageTitle then [discreteEntry pageUrl pageTitle] else [])
  end.

(** The entries of a tree, an entry before the entries below it. *)
Fixpoint entriesOf (item : NavItem.t) : list NavItem.t :=
  item :: match NavItem.items item with
          | Some items => flat_map entriesOf items
          | None => []
          end.

(** An entry stands for the page at [pageUrl]: it is internal and its URL
    without the fragment is [pageUrl]. *)
Definition isEntryOf (pageUrl : string) (item : NavItem.t) : Prop :=
  NavItem.urlType item = Some "internal" ∧ itemUrl item = Ok (Some pageUrl).

(** [descends item ancestors target]: [target] is [item] or lies below it,
    and [ancestors] are the entries from [item] down to the parent of
    [target]. *)
Inductive descends : NavItem.t → list NavItem.t → NavItem.t → Prop :=
| descends_here item : descends item [] item
| descends_below item items child ancestors target :
    NavItem.items item = Some items →
    child ∈ items →
    descends child ancestors target →
    descends item (item :: ancestors) target.

(** A menu of one tree: a category with two pages, the second of which is
    linked with a fragment. *)
Definition sampleMenu : list NavTree.t :=
  [NavTree.mk 0
     (NavItem.mk (Some "Guide") None None None
        (Some [NavItem.mk (Some "Intro") (Some "/docs/2.0/intro.html") (Some "internal")
                 None None false;
               NavItem.mk (Some "Setup") (Some "/docs/2.0/setup.html#start")
                 (Some "internal") (Some "#start") (Some []) false])
        false)].

(** ** The shape of page ids *)

(** The last character of a string. *)
Fixpoint lastChar (s : string) : option ascii :=
  match s with
  | EmptyString => None
  | String a EmptyString => Some a
  | String _ s' => lastChar s'
  end.

(** A spec to which the extension [.adoc] can be added: it does not end
    with a separator or with the extension. *)
Definition extensible (spec : string) : Prop :=
  (∃ a, lastChar spec = Some a ∧ a ≠ ":"%char ∧ a ≠ "@"%char) ∧
  ∀ u, spec ≠ u +:+ ".adoc".

(** What a match of [PAGE_ID_RX] says of the end of the spec. *)
Definition endsWithPage (s : string) (r : Regex.captures) : Prop :=
  ∃ before t, s = before +:+ t ∧ t ≠ "" ∧ countChar ":" t = 0%nat ∧
              r !! 4%nat = Some (pageOf t).

(** [s.endsWith('.adoc')]. *)
Fixpoint endsWithExtension (s : string) : bool :=
  bool_decide (s = ".adoc") ||
  match s with
  | String _ s' => endsWithExtension s'
  | EmptyString => false
  end.

(** ** The ids of the files of the catalog *)

(** Coordinates that keep apart in an id: a family without [/], a
    version without [@], a component and a module without [:]. *)
Definition coordinatesOk (s : Src.t) : Prop :=
  countChar "/" (JS.str (Src.family s)) = 0%nat ∧
  countChar "@" (JS.str (Src.version s)) = 0%nat ∧
  countChar ":" (JS.str (Src.component s)) = 0%nat ∧
  countChar ":" (JS.str (Src.module s)) = 0%nat.

(** The coordinates of a file, as [generateId] reads them. *)
Definition coordinates (s : Src.t) : list string :=
  [JS.str (Src.family s); JS.str (Src.version s); JS.str (Src.component s);
   JS.str (Src.module s); JS.str (Src.relative s)].

(** ** The classification of the files *)

(** The directory of a family below the directory of the module, as the
    comments of [allocateSrc] give it. *)
Definition familyDirectory (family : string) : option string :=
  if bool_decide (family = "page") then Some "pages"
  else if bool_decide (family = "partial") then Some "pages/_partials"
  else if bool_decide (family = "image") then Some "assets/images"
  else if bool_decide (family = "attachment") then Some "assets/attachments"
  else if bool_decide (family = "example") then Some "examples"
  else None.

(** A segment that [path.normalize] keeps as it is. *)
Definition plainSegment (segment : string) : Prop :=
  countChar "/" segment = 0%nat ∧ segment ≠ "" ∧ segment ≠ "." ∧ segment ≠ "..".

(** A page of the module [cli] in a directory, as it comes from the
    aggregate. *)
Definition rawTopicFile : File.t :=
  File.mk true (Some "modules/cli/pages/topic/page.adoc") (Some "text/asciidoc") ""
    (Src.mk None None None None None (Some "page.adoc") (Some ".adoc") (Some "page")
       (Some "text/asciidoc") None)
    None None None None None None.

(** ** The files of a classified catalog *)

(** The object at a location is a file that is not an alias. *)
Definition nonAliasAt (st : State) (l : loc) : Prop :=
  ∃ f, heap st !! l = Some f ∧ Src.family (File.src f) ≠ Some "alias".

(** Every file of the catalog is a file that is not an alias. *)
Definition registeredOk (st : State) : Prop :=
  ∀ id l, ContentCatalog.files (catalog st) !! id = Some l → nonAliasAt st l.

(** Every file of the catalog is a file that is not an alias, or an alias
    of such a file. *)
Definition aliasesOk (st : State) : Prop :=
  ∀ id l, ContentCatalog.files (catalog st) !! id = Some l →
    ∃ f, heap st !! l = Some f ∧
         (Src.family (File.src f) ≠ Some "alias" ∨
          ∃ target, File.rel f = Some target ∧ nonAliasAt st target).

(** The state in which [classifyContent] finds the files of
    [docsAggregate]. *)
Definition docsStart : State := mkState docsHeap (ContentCatalog.mk ∅ ∅ "default").

(** The catalog of [docsAggregate] for a playbook whose site start page is
    the page [intro] of [docs 2.0]. *)
Definition docsSiteState : State :=
  (classifyContent "/work" versionCompareDesc sampleStartPageId
     (samplePlaybook (Some "2.0@docs::intro")) docsAggregate docsStart).2.

(** ** The order and the groups of the aggregate *)

(** The sort criteria of an element of the aggregate. *)
Definition keyOf (e : Aggregate.t) : JS.value * JS.value :=
  (Aggregate.name (Aggregate.fields e), Aggregate.version (Aggregate.fields e)).

(** The ascending order of [compareAscending]: strings by their characters,
    [undefined] after every string. *)
Definition valueLt (a b : JS.value) : Prop :=
  match a, b with
  | Some a, Some b => String.compare a b = Lt
  | Some _, None => True
  | None, _ => False
  end.

(** By name, then by version, both ascending. *)
Definition keyLt (a b : JS.value * JS.value) : Prop :=
  valueLt a.1 b.1 ∨ (a.1 = b.1 ∧ valueLt a.2 b.2).

(** The component versions of the input that share an id, in the order of
    the input. *)
Definition membersOf (id : string) (flat : list ComponentVersion.t)
    : list ComponentVersion.t :=
  filter (λ cv, Aggregate.idOf cv = id) flat.

(** The id of the component versions that are merged into an element with
    these sort criteria. *)
Definition keyId (key : JS.value * JS.value) : string :=
  JS.str key.2 +:+ "@" +:+ JS.str key.1.

(** ** aggregate-content: the label of a progress bar *)

(** [s.repeat(n)]. *)
Fixpoint repeatString (s : string) (n : nat) : string :=
  match n with
  | O => ""
  | S n' => s +:+ repeatString s n'
  end.

Definition formatProgressBar (label : string) (maxLabelWidth : Z) (operation : string)
    : string :=
  let paddingSize := maxLabelWidth - JS.len label in
  let '(label, padding) :=
    if paddingSize <? 0 then ("..." +:+ JS.substrFrom label (- paddingSize + 3), "")
    else if negb (paddingSize =? 0) then (label, repeatString " " (Z.to_nat paddingSize))
    else (label, "") in
  (* NOTE assume operation has a fixed length *)
  "[" +:+ operation +:+ "] " +:+ label +:+ padding +:+ " [:bar]".

(** ** The output path of a file *)

(** The directories of a module in the output: the component, the version
    unless it is [master] and the module unless it is [ROOT]. *)
Definition moduleSegments (component version module : string) : list string :=
  [component] ++
  (if bool_decide (version = "master") then [] else [version]) ++
  (if bool_decide (module = "ROOT") then [] else [module]).

(** The directory of the images and of the attachments of a module. *)
Definition familySegments (family : JS.value) : list string :=
  if JS.isStr family "image" then ["_images"]
  else if JS.isStr family "attachment" then ["_attachments"]
  else [].

(** A page gets a directory of its own: under the [indexify] style, every
    page but [index]. *)
Definition indexified (family : JS.value) (stem style : string) : bool :=
  JS.isStr family "page" && negb (bool_decide (stem = "index")) &&
  bool_decide (style = "indexify").

(** The way up from a directory of the given segments: one [..] for each
    of them, and [.] when there is none. *)
Definition wayUp (segments : list string) : string :=
  match segments with
  | [] => "."
  | _ => JS.join "/" (replicate (length segments) "..")
  end.

(** The path of the given segments, [.] when there is none. *)
Definition pathOf (segments : list string) : string :=
  match segments with
  | [] => "."
  | _ => JS.join "/" segments
  end.

(** An argument of [path.join] and the directories it stands for: the
    argument is their path, or it is empty or [.] and there is none. *)
Definition segmentsOf (argument : string) (segments : list string) : Prop :=
  Forall plainSegment segments ∧
  (argument = JS.join "/" segments ∨ (argument = "." ∧ segments = [])).

(** An image of the module [cli] of the version [master] in a directory. *)
Definition diagramSrc : Src.t :=
  Src.mk (Some "docs") (Some "master") (Some "cli") (Some "image")
    (Some "topic/diagram.png") (Some "diagram.png") (Some ".png") (Some "diagram")
    (Some "image/png") None.

(** ** The navigation builder: the entries of the navigation *)

Module Navigation.
Import Regex.

(** The double quote. *)
Definition quote : ascii := "034"%char.

(** [.] of a regular expression: any character but a line terminator,
    which among the characters of a string here are the line feed and the
    carriage return. *)
Definition anyChar (a : ascii) : bool :=
  negb (Ascii.eqb a "010") && negb (Ascii.eqb a "013").

(** [LINK_RX]: an [a] element with its [href], an optional [class] after
    it, and its text in between the tags, which is the third group, lazy:
    [<a href=Q([^Q]+)Q(?: class=Q([^Q]+)Q)?>(.+?)<\/a>], where Q is the
    double quote. *)
Definition LINK_RX : re :=
  Seq (Lit ("<a href=" +:+ String quote ""))
 (Seq (Seq (Group 1 (Plus (notChar quote))) (Lit (String quote "")))
 (Seq (Opt (Seq (Lit (" class=" +:+ String quote ""))
           (Seq (Group 2 (Plus (notChar quote)))
                (Lit (String quote "")))))
 (Seq (Lit ">")
 (Seq (Group 3 (PlusLazy anyChar))
      (Lit "</a>"))))).

(** [s.match(r)] for a pattern that is not anchored: the match is tried
    at every position, from the start of the input on. *)
Fixpoint searchFrom (r : re) (i : nat) (s : string) : option captures :=
  match exec r (i, s) ∅ (λ _ c, Some c) with
  | Some c => Some c
  | None =>
      match s with
      | String _ s' => searchFrom r (S i) s'
      | EmptyString => None
      end
  end.

Definition search (r : re) (s : string) : option captures := searchFrom r 0 s.

(** The entry for the text of a list item or for the title of a list; the
    first group takes part in every match of [LINK_RX]. *)
Definition partitionContent (content : string) : NavItem.t :=
  let plain := NavItem.mk (Some content) None None None None false in
  if negb (JS.indexOf content "<a" =? -1) then
    match search LINK_RX content with
    | Some m =>
        let url := JS.str (m !! 1%nat) in
        let role := m !! 2%nat in
        let content := m !! 3%nat in
        if JS.isStr role "page" then
          let hashIdx := JS.indexOf url "#" in
          if negb (hashIdx =? -1) then
            NavItem.mk content (Some url) (Some "internal")
              (Some (JS.substrFrom url hashIdx)) None false
          else NavItem.mk content (Some url) (Some "internal") None None false
        else if bool_decide (JS.substr url 0 1 = "#") then
          NavItem.mk content (Some url) (Some "fragment") (Some url) None false
        else NavItem.mk content (Some url) (Some "external") None None false
    | None => plain
    end
  else plain.

End Navigation.

(** The markup of a link: an [a] element with its [href], with the class
    [role] if there is one, and with its text. *)
Definition anchor (url : string) (role : option string) (text : string) : string :=
  "<a href=" +:+ String Navigation.quote
    (url +:+ String Navigation.quote
       (match role with
        | Some role =>
            " class=" +:+ String Navigation.quote (role +:+ String Navigation.quote "")
        | None => ""
        end +:+ ">" +:+ text +:+ "</a>")).

(** What goes between the double quotes of an attribute. *)
Definition attributeValue (value : string) : Prop :=
  value ≠ "" ∧ countChar Navigation.quote value = 0%nat.

(** A text of one line without markup. *)
Definition plainText (text : string) : Prop :=
  countChar "<" text = 0%nat ∧ countChar "010" text = 0%nat ∧ countChar "013" text = 0%nat.

(** ** The component versions of a classified catalog *)

(** An aggregate of two versions of a component, the older one first,
    without files. *)
Definition docsReleases : list ComponentVersion.t :=
  [ComponentVersion.mk "docs" "1.0" (Some "Docs") None None [];
   ComponentVersion.mk "docs" "2.0" (Some "Docs") None None []].

(** The catalog that [classifyContent] builds from [docsReleases]. *)
Definition docsReleasesState : State :=
  (classifyContent "/work" versionCompareDesc sampleStartPageId (samplePlaybook None)
     docsReleases emptyState).2.

(** ** The ids of a classified catalog *)

(** Every file of the catalog is registered under the id of its own
    coordinates. *)
Definition keysOk (st : State) : Prop :=
  ∀ id l, ContentCatalog.files (catalog st) !! id = Some l →
          ∃ f, heap st !! l = Some f ∧ generateId (File.src f) = id.

(** The object at a location is a file of the catalog. *)
Definition registered (st : State) (l : loc) : Prop :=
  ∃ id, ContentCatalog.files (catalog st) !! id = Some l.

(** The file objects of an aggregate. *)
Definition filesOf (aggregate : list ComponentVersion.t) : list loc :=
  concat (ComponentVersion.files <$> aggregate).

(** * Properties *)

(** ** Strings *)

Lemma append_cons a s t : String a s +:+ t = String a (s +:+ t).
Proof. reflexivity. Qed.

Lemma append_nil_l s : "" +:+ s = s.
Proof. reflexivity. Qed.

Lemma append_nil_r s : s +:+ "" = s.
Proof. induction s as [|a s IH]; [done|]. by rewrite append_cons, IH. Qed.

Lemma append_assoc s t u : (s +:+ t) +:+ u = s +:+ t +:+ u.
Proof. induction s as [|a s IH]; [done|]. by rewrite !append_cons, IH. Qed.

Lemma length_append s t : String.length (s +:+ t) = (String.length s + String.length t)%nat.
Proof. induction s as [|a s IH]; [done|]. rewrite append_cons. simpl. by rewrite IH. Qed.

Lemma take_append s t : JS.take (String.length s) (s +:+ t) = s.
Proof. induction s as [|a s IH]; [by destruct t|]. rewrite append_cons. simpl. by rewrite IH. Qed.

Lemma ascii_eqb_eq a b : Ascii.eqb a b = true ↔ a = b.
Proof. apply Ascii.eqb_eq. Qed.

Lemma ascii_eqb_neq a b : Ascii.eqb a b = false ↔ a ≠ b.
Proof. apply Ascii.eqb_neq. Qed.

Lemma splitAt_Some x s pre post :
  splitAt x s = Some (pre, post) → s = pre +:+ String x post ∧ countChar x pre = 0%nat.
Proof.
  revert pre post. induction s as [|a s IH]; intros pre post; simpl; [done|].
  destruct (Ascii.eqb a x) eqn:E.
  - apply ascii_eqb_eq in E as ->. intros [= <- <-]. done.
  - destruct (splitAt x s) as [[pre' post']|]; [|done].
    intros [= <- <-]. destruct (IH _ _ eq_refl) as [-> H]. split; [done|].
    simpl. by rewrite E.
Qed.

Lemma splitAt_None x s : splitAt x s = None ↔ countChar x s = 0%nat.
Proof.
  induction s as [|a s IH]; simpl; [done|].
  destruct (Ascii.eqb a x); [done|].
  destruct (splitAt x s) as [[pre post]|]; simpl.
  - split; [done|]. intros H. by apply IH in H.
  - split; [|done]. intros _. by apply IH.
Qed.

Lemma splitAt_append x pre post :
  countChar x pre = 0%nat → splitAt x (pre +:+ String x post) = Some (pre, post).
Proof.
  induction pre as [|a pre IH]; simpl.
  - intros _. by rewrite Ascii.eqb_refl.
  - destruct (Ascii.eqb a x); [done|].
    simpl. intros H. by rewrite IH.
Qed.

Lemma countChar_append x s t :
  countChar x (s +:+ t) = (countChar x s + countChar x t)%nat.
Proof.
  induction s as [|a s IH]; [done|]. rewrite append_cons. simpl. rewrite IH. lia.
Qed.
(** ** The matcher on [PAGE_ID_RX] *)

Section RegexFacts.
Import Regex.

Lemma orTry_match {A} (a b : option A) :
  match a with Some r => Some r | None => b end = orTry a b.
Proof. by destruct a. Qed.

(** A greedy [[^x]*] in front of something that can only start with [x]
    stops at the first [x]. *)
Lemma starGreedy_until x s j c (K : cont) :
  (∀ j' t c', (∀ t', t ≠ String x t') → K (j', t) c' = None) →
  starGreedy (notChar x) s j c K =
  match splitAt x s with
  | Some (pre, post) => K ((j + String.length pre)%nat, String x post) c
  | None => None
  end.
Proof.
  intros HK. revert j. induction s as [|a s IH]; intros j; simpl.
  - by apply HK.
  - unfold notChar at 1. destruct (Ascii.eqb a x) eqn:E; simpl.
    + apply ascii_eqb_eq in E as ->. by rewrite Nat.add_0_r.
    + apply Ascii.eqb_neq in E.
      assert (K (j, String a s) c = None) as Hhere.
      { apply HK. intros t' [= ? _]. done. }
      rewrite IH. destruct (splitAt x s) as [[pre post]|]; [|done].
      simpl. rewrite Hhere.
      replace (j + S (String.length pre))%nat with (S (j + String.length pre)) by lia.
      by destruct (K (S _, _) c).
Qed.

(** [([^x]+)x], then a continuation that does not look at the index. *)
Lemma exec_capturedThen n x i s c (k : cont) k' :
  (∀ j t c', k (j, t) c' = k' t c') →
  exec (Seq (Group n (Plus (notChar x))) (Lit (String x ""))) (i, s) c k =
  capturedThen n x s c k'.
Proof.
  intros Hk. unfold capturedThen. simpl.
  destruct s as [|a s]; [done|]. simpl.
  unfold notChar at 1. destruct (Ascii.eqb a x) eqn:E; simpl; [done|].
  rewrite starGreedy_until.
  - destruct (splitAt x s) as [[pre post]|] eqn:Hs; [|done]. simpl.
    rewrite Ascii.eqb_refl. rewrite Hk.
    replace (S (i + String.length pre) - i)%nat with (S (String.length pre)) by lia.
    apply splitAt_Some in Hs as [-> _].
    simpl. by rewrite take_append.
  - intros j' t c' Ht. simpl. destruct t as [|b t]; [done|]. simpl.
    destruct (Ascii.eqb x b) eqn:E'; [|done].
    apply ascii_eqb_eq in E' as ->. by destruct (Ht t).
Qed.

Lemma stripPrefix_Some p s r : JS.stripPrefix p s = Some r ↔ s = p +:+ r.
Proof.
  revert s. induction p as [|a p IH]; intros s; simpl.
  - split; [by intros [= ->]|by intros ->].
  - destruct s as [|b s]; [done|].
    destruct (Ascii.eqb a b) eqn:E.
    + apply ascii_eqb_eq in E as ->. rewrite IH. split; [by intros ->|by intros [= ->]].
    + apply Ascii.eqb_neq in E. split; [done|]. by intros [= -> _].
Qed.

Lemma exec_Seq a b at_ c k :
  exec (Seq a b) at_ c k = exec a at_ c (λ at' c', exec b at' c' k).
Proof. reflexivity. Qed.

Lemma exec_Group n a at_ c k :
  exec (Group n a) at_ c k =
  exec a at_ c (λ at' c', k at' (<[n := JS.take (at'.1 - at_.1)%nat at_.2]> c')).
Proof. reflexivity. Qed.

Lemma exec_PlusLazy p i a s c k :
  exec (PlusLazy p) (i, String a s) c k =
  if p a then starLazy p s (S i) c k else None.
Proof. reflexivity. Qed.

Lemma exec_Lit_char x i s c k :
  exec (Lit (String x "")) (i, s) c k =
  match s with
  | String a t => if Ascii.eqb a x then k ((i + 1)%nat, t) c else None
  | EmptyString => None
  end.
Proof.
  cbn [exec fst snd JS.stripPrefix String.length].
  destruct s as [|a t]; [done|]. rewrite Ascii.eqb_sym.
  by destruct (Ascii.eqb a x).
Qed.

(** [(?:\.adoc)?$] *)
Lemma exec_extension_end j t c :
  exec (Seq (Opt (Lit ".adoc")) Eol) (j, t) c (λ _ c, Some c) =
  if bool_decide (t = ".adoc" ∨ t = "") then Some c else None.
Proof.
  cbn [exec fst snd].
  destruct (JS.stripPrefix ".adoc" t) as [r|] eqn:Hr.
  - apply stripPrefix_Some in Hr as ->. cbn [fst snd].
    destruct r as [|b r].
    + rewrite bool_decide_eq_true_2 by done. by rewrite bool_decide_eq_true_2 by (by left).
    + rewrite (bool_decide_eq_false_2 (String b r = "")) by done.
      rewrite (bool_decide_eq_false_2 (".adoc" +:+ String b r = "")) by done.
      rewrite bool_decide_eq_false_2; [done|].
      intros [H|H]; [|done]. by apply (f_equal String.length) in H.
  - case_bool_decide as Hempty.
    + rewrite bool_decide_eq_true_2; [done|by right].
    + rewrite bool_decide_eq_false_2; [done|].
      intros [->|H]; [|done]. by vm_compute in Hr.
Qed.

Lemma take_pageOfTail s : JS.take (String.length (pageOfTail s)) s = pageOfTail s.
Proof.
  induction s as [|a s IH]; [done|]. simpl.
  case_bool_decide; [done|]. simpl. by rewrite IH.
Qed.

(** The lazy [[^:]*?] in front of [(?:\.adoc)?$]. *)
Lemma starLazy_page i0 s0 s j c :
  starLazy (notChar ":") s j c
    (λ at' c', exec (Seq (Opt (Lit ".adoc")) Eol) at'
                 (<[4%nat := JS.take (at'.1 - i0) s0]> c') (λ _ c, Some c)) =
  if bool_decide (countChar ":" s = 0%nat)
  then Some (<[4%nat := JS.take (j + String.length (pageOfTail s) - i0) s0]> c)
  else None.
Proof.
  revert j. induction s as [|a s IH]; intros j.
  - simpl. rewrite Nat.add_0_r. done.
  - cbn [starLazy]. rewrite exec_extension_end. cbn [fst].
    cbn [pageOfTail countChar].
    destruct (bool_decide (String a s = ".adoc")) eqn:Hadoc.
    + apply bool_decide_eq_true in Hadoc. injection Hadoc as -> ->.
      rewrite bool_decide_eq_true_2 by (by left). simpl. by rewrite Nat.add_0_r.
    + apply bool_decide_eq_false in Hadoc.
      rewrite bool_decide_eq_false_2 by (by intros [?|?]).
      unfold notChar at 1. destruct (Ascii.eqb a ":"); simpl.
      * done.
      * rewrite IH. by replace (j + S (String.length (pageOfTail s)))%nat
          with (S j + String.length (pageOfTail s))%nat by lia.
Qed.

(** [([^:]+?)(?:\.adoc)?$] *)
Lemma exec_page i s c :
  exec (Seq (Group 4 (PlusLazy (notChar ":"))) (Seq (Opt (Lit ".adoc")) Eol))
    (i, s) c (λ _ c, Some c) = pageMatch s c.
Proof.
  unfold pageMatch.
  destruct s as [|a s]; [by vm_compute|].
  rewrite exec_Seq, exec_Group, exec_PlusLazy. cbv beta. cbn [fst snd].
  unfold notChar at 1. cbn [countChar].
  destruct (Ascii.eqb a ":"); simpl negb; cbv iota.
  - by rewrite andb_false_r.
  - rewrite (starLazy_page i (String a s)). simpl Nat.add.
    rewrite (bool_decide_eq_true_2 (String a s ≠ "")) by done. simpl andb.
    case_bool_decide; [|done].
    replace (S (i + String.length (pageOfTail s)) - i)%nat
      with (S (String.length (pageOfTail s))) by lia.
    simpl. by rewrite take_pageOfTail.
Qed.

(** [(?:([^:]+))?:], then the page. *)
Lemma exec_module i s c :
  exec (Seq (Opt (Group 3 (Plus (notChar ":")))) (Lit ":")) (i, s) c
    (λ at' c', exec (Seq (Group 4 (PlusLazy (notChar ":"))) (Seq (Opt (Lit ".adoc")) Eol))
                 at' c' (λ _ c, Some c)) =
  moduleMatch s c.
Proof.
  unfold moduleMatch.
  change (exec (Seq (Opt (Group 3 (Plus (notChar ":")))) (Lit ":")) (i, s) c ?k)
    with (match exec (Seq (Group 3 (Plus (notChar ":"))) (Lit ":")) (i, s) c k with
          | Some r => Some r
          | None => exec (Lit ":") (i, s) c k
          end).
  rewrite orTry_match.
  rewrite (exec_capturedThen _ _ _ _ _ _ pageMatch) by (intros; apply exec_page).
  f_equal. rewrite exec_Lit_char. destruct s as [|a s]; [done|].
  destruct (Ascii.eqb a ":"); [|done].
  apply exec_page.
Qed.

(** [(?:(?:([^:]+):)?(?:([^:]+))?:)?], then the page. *)
Lemma exec_qualifiers i s c :
  exec (Opt (Seq (Opt (Seq (Group 2 (Plus (notChar ":"))) (Lit ":")))
                 (Seq (Opt (Group 3 (Plus (notChar ":")))) (Lit ":"))))
    (i, s) c
    (λ at' c', exec (Seq (Group 4 (PlusLazy (notChar ":"))) (Seq (Opt (Lit ".adoc")) Eol))
                 at' c' (λ _ c, Some c)) =
  qualifiersMatch s c.
Proof.
  unfold qualifiersMatch.
  set (page := Seq (Group 4 (PlusLazy (notChar ":"))) (Seq (Opt (Lit ".adoc")) Eol)).
  set (k := λ (at' : pos) (c' : captures), exec page at' c' (λ _ c, Some c)).
  set (md := Seq (Opt (Group 3 (Plus (notChar ":")))) (Lit ":")).
  set (cp := Seq (Group 2 (Plus (notChar ":"))) (Lit ":")).
  change (exec (Opt (Seq (Opt cp) md)) (i, s) c k)
    with (match (match exec cp (i, s) c (λ at' c', exec md at' c' k) with
                 | Some r => Some r
                 | None => exec md (i, s) c k
                 end) with
          | Some r => Some r
          | None => k (i, s) c
          end).
  rewrite !orTry_match.
  unfold cp. rewrite (exec_capturedThen _ _ _ _ _ _ moduleMatch)
    by (intros; apply exec_module).
  unfold md, k, page. by rewrite exec_module, exec_page.
Qed.

(** What [PAGE_ID_RX] matches. *)
Lemma match_PAGE_ID_RX s : match_ PageId.PAGE_ID_RX s = matchDirect s.
Proof.
  unfold match_, matchDirect, PageId.PAGE_ID_RX.
  set (page := Seq (Group 4 (PlusLazy (notChar ":"))) (Seq (Opt (Lit ".adoc")) Eol)).
  set (qs := Opt (Seq (Opt (Seq (Group 2 (Plus (notChar ":"))) (Lit ":")))
                 (Seq (Opt (Group 3 (Plus (notChar ":")))) (Lit ":")))).
  set (vs := Seq (Group 1 (Plus (notChar "@"))) (Lit "@")).
  set (k := λ (at' : pos) (c' : captures), exec (Seq qs page) at' c' (λ _ c, Some c)).
  change (exec (Seq Bol (Seq (Opt vs) (Seq qs page))) (0%nat, s) ∅ (λ _ c, Some c))
    with (match exec vs (0%nat, s) ∅ k with
          | Some r => Some r
          | None => k (0%nat, s) ∅
          end).
  rewrite orTry_match.
  unfold vs. rewrite (exec_capturedThen _ _ _ _ _ _ qualifiersMatch)
    by (intros; apply exec_qualifiers).
  f_equal. apply exec_qualifiers.
Qed.

End RegexFacts.

(** ** [parsePageId] *)

Section ParsePageId.
Import Regex.

Lemma truthy_Some s : s ≠ "" → JS.truthy (Some s) = true.
Proof. intros H. simpl. by destruct s. Qed.

Lemma token_no_colon_head s : countChar ":" s = 0%nat →
  match s with String a t => if Ascii.eqb a ":" then Some t else None | "" => None end = None.
Proof. destruct s as [|a t]; [done|]. simpl. by destruct (Ascii.eqb a ":"). Qed.

Lemma pageMatch_token p c : p ≠ "" → countChar ":" p = 0%nat →
  pageMatch p c = Some (<[4%nat := pageOf p]> c).
Proof.
  intros Hp Hc. unfold pageMatch.
  by rewrite !bool_decide_eq_true_2.
Qed.

Lemma capturedThen_append n x pre post c k :
  pre ≠ "" → countChar x pre = 0%nat →
  capturedThen n x (pre +:+ String x post) c k = k post (<[n := pre]> c).
Proof.
  intros Hne Hc. unfold capturedThen. rewrite splitAt_append by done.
  by rewrite bool_decide_eq_false_2.
Qed.

Lemma capturedThen_none n x s c k :
  countChar x s = 0%nat → capturedThen n x s c k = None.
Proof.
  intros Hc. unfold capturedThen. by apply splitAt_None in Hc as ->.
Qed.

Lemma moduleMatch_page p c : countChar ":" p = 0%nat → moduleMatch p c = None.
Proof.
  intros Hc. unfold moduleMatch. rewrite capturedThen_none by done. simpl.
  destruct p as [|a t]; [done|]. simpl in Hc. by destruct (Ascii.eqb a ":").
Qed.

(** One qualifier: it is the module. *)
Lemma qualifiersMatch_module q p c :
  q ≠ "" → countChar ":" q = 0%nat → p ≠ "" → countChar ":" p = 0%nat →
  qualifiersMatch (q +:+ String ":" p) c =
  Some (<[4%nat := pageOf p]> (<[3%nat := q]> c)).
Proof.
  intros Hq Hqc Hp Hpc. unfold qualifiersMatch.
  rewrite capturedThen_append by done.
  rewrite moduleMatch_page by done. simpl.
  unfold moduleMatch. rewrite capturedThen_append by done.
  by rewrite pageMatch_token.
Qed.

(** Two qualifiers, the second one empty: the component. *)
Lemma qualifiersMatch_component c0 p c :
  c0 ≠ "" → countChar ":" c0 = 0%nat → p ≠ "" → countChar ":" p = 0%nat →
  qualifiersMatch (c0 +:+ String ":" (String ":" p)) c =
  Some (<[4%nat := pageOf p]> (<[2%nat := c0]> c)).
Proof.
  intros Hq Hqc Hp Hpc. unfold qualifiersMatch.
  rewrite capturedThen_append by done.
  unfold moduleMatch at 1. unfold capturedThen at 1. simpl.
  by rewrite pageMatch_token.
Qed.

(** Two qualifiers: the component and the module. *)
Lemma qualifiersMatch_component_module c0 m p c :
  c0 ≠ "" → countChar ":" c0 = 0%nat → m ≠ "" → countChar ":" m = 0%nat →
  p ≠ "" → countChar ":" p = 0%nat →
  qualifiersMatch (c0 +:+ String ":" (m +:+ String ":" p)) c =
  Some (<[4%nat := pageOf p]> (<[3%nat := m]> (<[2%nat := c0]> c))).
Proof.
  intros Hq Hqc Hm Hmc Hp Hpc. unfold qualifiersMatch.
  rewrite capturedThen_append by done.
  unfold moduleMatch at 1. rewrite capturedThen_append by done.
  by rewrite pageMatch_token.
Qed.

Lemma pageMatch_Some s c r : pageMatch s c = Some r → r = <[4%nat := pageOf s]> c.
Proof. unfold pageMatch. case_match; [by intros [= <-]|done]. Qed.

Lemma capturedThen_Some n x s c k r :
  capturedThen n x s c k = Some r →
  ∃ pre post, s = pre +:+ String x post ∧ k post (<[n := pre]> c) = Some r.
Proof.
  unfold capturedThen. destruct (splitAt x s) as [[pre post]|] eqn:Hs; [|done].
  case_bool_decide; [done|]. intros Hk.
  apply splitAt_Some in Hs as [-> _]. eauto.
Qed.

Lemma moduleMatch_Some s c r :
  moduleMatch s c = Some r →
  r !! 2%nat = c !! 2%nat ∧ (1 ≤ countChar ":" s)%nat.
Proof.
  unfold moduleMatch, orTry.
  destruct (capturedThen 3 ":" s c pageMatch) as [r'|] eqn:H3.
  - intros [= <-]. apply capturedThen_Some in H3 as (pre & post & -> & Hp).
    apply pageMatch_Some in Hp as ->.
    rewrite !lookup_insert_ne by done. split; [done|].
    rewrite countChar_append. simpl. lia.
  - destruct s as [|a t]; [done|].
    destruct (Ascii.eqb a ":") eqn:E; [|done].
    intros Hp. apply pageMatch_Some in Hp as ->.
    rewrite lookup_insert_ne by done. split; [done|]. simpl. rewrite E. lia.
Qed.

Lemma qualifiersMatch_Some s c r :
  qualifiersMatch s c = Some r →
  r !! 2%nat = c !! 2%nat ∨ (2 ≤ countChar ":" s)%nat.
Proof.
  unfold qualifiersMatch, orTry.
  destruct (capturedThen 2 ":" s c moduleMatch) as [r'|] eqn:H2.
  - intros [= <-]. apply capturedThen_Some in H2 as (pre & post & -> & Hm).
    apply moduleMatch_Some in Hm as [_ Hm]. right.
    rewrite countChar_append. simpl. lia.
  - destruct (moduleMatch s c) as [r'|] eqn:Hm.
    + intros [= <-]. left. by apply moduleMatch_Some in Hm as [? _].
    + intros Hp. apply pageMatch_Some in Hp as ->. left.
      by rewrite lookup_insert_ne.
Qed.

(** The component group takes part in a match only if the spec has two
    colons. *)
Lemma matchDirect_component s r :
  matchDirect s = Some r → r !! 2%nat = None ∨ (2 ≤ countChar ":" s)%nat.
Proof.
  unfold matchDirect, orTry.
  destruct (capturedThen 1 "@" s ∅ qualifiersMatch) as [r'|] eqn:H1.
  - intros [= <-]. apply capturedThen_Some in H1 as (pre & post & -> & Hq).
    apply qualifiersMatch_Some in Hq as [Hq|Hq].
    + left. rewrite Hq. by rewrite lookup_insert_ne.
    + right. rewrite countChar_append. simpl. lia.
  - intros Hq. apply qualifiersMatch_Some in Hq as [Hq|Hq]; [left|by right].
    by rewrite Hq.
Qed.

Lemma parsePageId_one_colon spec ctx id :
  countChar ":" spec = 1%nat →
  PageId.parsePageId spec ctx = Some id →
  Src.component id = Src.component ctx.
Proof.
  intros Hone. unfold PageId.parsePageId. rewrite match_PAGE_ID_RX.
  destruct (matchDirect spec) as [m|] eqn:Hm; [|done].
  apply matchDirect_component in Hm as [Hm|Hm]; [|lia].
  unfold PageId.PAGE_ID_RXG.component. rewrite Hm. simpl.
  by intros [= <-].
Qed.

End ParsePageId.

Section ParsePageIdClaims.

Lemma pageOfTail_extension t : pageOfTail (t +:+ ".adoc") = t.
Proof.
  induction t as [|a t IH]; [done|]. simpl.
  rewrite bool_decide_eq_false_2.
  - by rewrite IH.
  - intros H. apply (f_equal String.length) in H. simpl in H.
    rewrite length_append in H. simpl in H. lia.
Qed.

(** The page of a path with the extension is the path without it. *)
Lemma pageOf_extension p : p ≠ "" → pageOf (p +:+ ".adoc") = p.
Proof.
  destruct p as [|a t]; [done|]. intros _. simpl. by rewrite pageOfTail_extension.
Qed.

Lemma pageOfTail_no_extension t :
  (∀ u, t ≠ u +:+ ".adoc") → pageOfTail t = t.
Proof.
  induction t as [|a t IH]; [done|]. intros H. simpl.
  rewrite bool_decide_eq_false_2 by (intros Heq; by apply (H "")).
  rewrite IH; [done|]. intros u ->. by apply (H (String a u)).
Qed.

(** The page of a path without the extension is the path. *)
Lemma pageOf_no_extension p : (∀ u, p ≠ u +:+ ".adoc") → pageOf p = p.
Proof.
  destruct p as [|a t]; [done|]. intros H. simpl.
  rewrite pageOfTail_no_extension; [done|].
  intros u ->. by apply (H (String a u)).
Qed.

Lemma token_append_colon q p :
  countChar "@" q = 0%nat → countChar "@" p = 0%nat →
  countChar "@" (q +:+ String ":" p) = 0%nat.
Proof. intros Hq Hp. rewrite countChar_append. simpl. lia. Qed.

(** Appending to a literal. *)
Ltac lits :=
  repeat match goal with
    | |- context [String.append (String ?a ?l) ?t] =>
        change (String.append (String a l) t) with (String a (String.append l t))
    | |- context [String.append EmptyString ?t] =>
        change (String.append EmptyString t) with t
    end.

(** Reading the captures. *)
Ltac caps :=
  repeat first
    [ rewrite lookup_insert_eq
    | rewrite lookup_insert_ne by done
    | rewrite lookup_empty ].

Lemma orTry_None_l {A} (b : option A) : orTry None b = b.
Proof. reflexivity. Qed.

Lemma orTry_Some_l {A} (a : A) (b : option A) : orTry (Some a) b = Some a.
Proof. reflexivity. Qed.

Lemma parsePageId_module q p ctx :
  token q → token p →
  PageId.parsePageId (q +:+ ":" +:+ p) ctx =
  Some (pageId (Src.component ctx) (Src.version ctx) (Some q) (pageOf p +:+ ".adoc")).
Proof.
  intros (Hq & Hqa & Hqc) (Hp & Hpa & Hpc).
  unfold PageId.parsePageId. rewrite match_PAGE_ID_RX. unfold matchDirect.
  lits.
  rewrite capturedThen_none by (by apply token_append_colon). rewrite orTry_None_l.
  rewrite qualifiersMatch_module by done.
  unfold PageId.PAGE_ID_RXG.version, PageId.PAGE_ID_RXG.component,
    PageId.PAGE_ID_RXG.module, PageId.PAGE_ID_RXG.page.
  caps. by rewrite ?truthy_Some.
Qed.

Lemma parsePageId_version_module v q p ctx :
  token v → token q → token p →
  PageId.parsePageId (v +:+ "@" +:+ q +:+ ":" +:+ p) ctx =
  Some (pageId (Src.component ctx) (Some v) (Some q) (pageOf p +:+ ".adoc")).
Proof.
  intros (Hv & Hva & Hvc) (Hq & Hqa & Hqc) (Hp & Hpa & Hpc).
  unfold PageId.parsePageId. rewrite match_PAGE_ID_RX. unfold matchDirect.
  lits.
  rewrite capturedThen_append by done.
  rewrite qualifiersMatch_module by done. rewrite orTry_Some_l.
  unfold PageId.PAGE_ID_RXG.version, PageId.PAGE_ID_RXG.component,
    PageId.PAGE_ID_RXG.module, PageId.PAGE_ID_RXG.page.
  caps. by rewrite ?truthy_Some.
Qed.

Lemma parsePageId_component c p ctx :
  token c → token p →
  PageId.parsePageId (c +:+ "::" +:+ p) ctx =
  Some (pageId (Some c) None (Some "ROOT") (pageOf p +:+ ".adoc")).
Proof.
  intros (Hq & Hqa & Hqc) (Hp & Hpa & Hpc).
  unfold PageId.parsePageId. rewrite match_PAGE_ID_RX. unfold matchDirect.
  lits.
  rewrite capturedThen_none.
  2:{ rewrite countChar_append. simpl. lia. }
  rewrite orTry_None_l. rewrite qualifiersMatch_component by done.
  unfold PageId.PAGE_ID_RXG.version, PageId.PAGE_ID_RXG.component,
    PageId.PAGE_ID_RXG.module, PageId.PAGE_ID_RXG.page.
  caps. by rewrite ?truthy_Some.
Qed.

Lemma parsePageId_component_module c m p ctx :
  token c → token m → token p →
  PageId.parsePageId (c +:+ ":" +:+ m +:+ ":" +:+ p) ctx =
  Some (pageId (Some c) None (Some m) (pageOf p +:+ ".adoc")).
Proof.
  intros (Hq & Hqa & Hqc) (Hm & Hma & Hmc) (Hp & Hpa & Hpc).
  unfold PageId.parsePageId. rewrite match_PAGE_ID_RX. unfold matchDirect.
  lits.
  rewrite capturedThen_none.
  2:{ rewrite !countChar_append. simpl. rewrite countChar_append. simpl. lia. }
  rewrite orTry_None_l. rewrite qualifiersMatch_component_module by done.
  unfold PageId.PAGE_ID_RXG.version, PageId.PAGE_ID_RXG.component,
    PageId.PAGE_ID_RXG.module, PageId.PAGE_ID_RXG.page.
  caps. by rewrite ?truthy_Some.
Qed.

Lemma parsePageId_full v c m p ctx :
  token v → token c → token m → token p →
  PageId.parsePageId (v +:+ "@" +:+ c +:+ ":" +:+ m +:+ ":" +:+ p) ctx =
  Some (pageId (Some c) (Some v) (Some m) (pageOf p +:+ ".adoc")).
Proof.
  intros (Hv & Hva & Hvc) (Hq & Hqa & Hqc) (Hm & Hma & Hmc) (Hp & Hpa & Hpc).
  unfold PageId.parsePageId. rewrite match_PAGE_ID_RX. unfold matchDirect.
  lits.
  rewrite capturedThen_append by done.
  rewrite qualifiersMatch_component_module by done. rewrite orTry_Some_l.
  unfold PageId.PAGE_ID_RXG.version, PageId.PAGE_ID_RXG.component,
    PageId.PAGE_ID_RXG.module, PageId.PAGE_ID_RXG.page.
  caps. by rewrite ?truthy_Some.
Qed.

(** Parsing a fully qualified page id with the extension and formatting
    the result gives the id back, whatever the context. *)
Lemma parse_then_format_tokens v c m p ctx :
  token v → token c → token m → token p →
  ∃ id, PageId.parsePageId (v +:+ "@" +:+ c +:+ ":" +:+ m +:+ ":" +:+ p +:+ ".adoc") ctx
        = Some id ∧
        formatPageId id = v +:+ "@" +:+ c +:+ ":" +:+ m +:+ ":" +:+ p +:+ ".adoc".
Proof.
  intros Hv Hc Hm (Hp & Hpa & Hpc). eexists. split.
  - apply parsePageId_full; [done..|]. split; [by destruct p|].
    rewrite !countChar_append. simpl. lia.
  - unfold formatPageId. simpl. by rewrite pageOf_extension.
Qed.

(** C8: parsing ["ver@comp:mod:topic/page.adoc"] with an empty context and
    putting [version + "@" + component + ":" + module + ":" + relative]
    together from the result gives the spec back. *)
Theorem parse_then_format :
  ∃ id, PageId.parsePageId "ver@comp:mod:topic/page.adoc" Src.empty = Some id ∧
        formatPageId id = "ver@comp:mod:topic/page.adoc".
Proof. eexists. split; [by vm_compute|]. by vm_compute. Qed.

(** C9: a spec with one qualifier in front of the page path gives the
    qualifier to the module, and the component, and the version when the
    spec has none, come from the context; no spec with a single colon
    sets the component; with two qualifiers the first is the component
    and the second the module, [ROOT] when it is empty.  The version, the
    qualifiers and the page path are tokens: not empty, without [@] and
    [:]. *)
Theorem parsePageId_qualifiers (v q c m p : string) (ctx : Src.t)
    (Hv : token v) (Hq : token q) (Hc : token c) (Hm : token m) (Hp : token p) :
  PageId.parsePageId (q +:+ ":" +:+ p) ctx =
    Some (pageId (Src.component ctx) (Src.version ctx) (Some q) (pageOf p +:+ ".adoc")) ∧
  PageId.parsePageId (v +:+ "@" +:+ q +:+ ":" +:+ p) ctx =
    Some (pageId (Src.component ctx) (Some v) (Some q) (pageOf p +:+ ".adoc")) ∧
  (∀ spec id, countChar ":" spec = 1%nat → PageId.parsePageId spec ctx = Some id →
              Src.component id = Src.component ctx) ∧
  PageId.parsePageId (c +:+ "::" +:+ p) ctx =
    Some (pageId (Some c) None (Some "ROOT") (pageOf p +:+ ".adoc")) ∧
  PageId.parsePageId (c +:+ ":" +:+ m +:+ ":" +:+ p) ctx =
    Some (pageId (Some c) None (Some m) (pageOf p +:+ ".adoc")).
Proof.
  split; [by apply parsePageId_module|].
  split; [by apply parsePageId_version_module|].
  split; [intros spec id; apply parsePageId_one_colon|].
  split; [by apply parsePageId_component|].
  by apply parsePageId_component_module.
Qed.

End ParsePageIdClaims.

Lemma parsePageId_qualifiers_witness :
  PageId.parsePageId "mod:topic/page" Src.empty =
    Some (pageId None None (Some "mod") "topic/page.adoc") ∧
  PageId.parsePageId "comp::page" Src.empty =
    Some (pageId (Some "comp") None (Some "ROOT") "page.adoc").
Proof.
  assert (∀ s, bool_decide (token s) = true → token s) as tok
    by (intros s; apply bool_decide_eq_true_1).
  pose proof (parsePageId_qualifiers "ver" "mod" "comp" "mod" "topic/page" Src.empty
                (tok "ver" eq_refl) (tok "mod" eq_refl) (tok "comp" eq_refl)
                (tok "mod" eq_refl) (tok "topic/page" eq_refl)) as (H1 & _ & _ & _ & _).
  pose proof (parsePageId_qualifiers "ver" "mod" "comp" "mod" "page" Src.empty
                (tok "ver" eq_refl) (tok "mod" eq_refl) (tok "comp" eq_refl)
                (tok "mod" eq_refl) (tok "page" eq_refl)) as (_ & _ & _ & H4 & _).
  split; [exact H1|exact H4].
Defined.

(** ** [computeOut] and [computePub] *)

Section UrlComputer.
Variable cwd : string.

(** [introSrc] is the page id expanded by [expandPageSrc]. *)
Lemma introSrc_expanded :
  expandPageSrc
    (Src.mk (Some "docs") (Some "1.0") (Some "ROOT") None (Some "intro.adoc")
       None None None None None) "page" = Ok introSrc.
Proof. reflexivity. Qed.

(** C6: for the page [intro.adoc] of [docs 1.0], module [ROOT], the output
    path and the URL under the three extension styles. *)
Theorem extension_styles :
  (∃ out pub,
     computeOut cwd introSrc (Some "page") "default" = Ok out ∧
     Out.path out = "docs/1.0/intro.html" ∧
     computePub introSrc (Some out) (Some "page") "default" = Ok pub ∧
     Pub.url pub = "/docs/1.0/intro.html") ∧
  (∃ out pub,
     computeOut cwd introSrc (Some "page") "drop" = Ok out ∧
     computePub introSrc (Some out) (Some "page") "drop" = Ok pub ∧
     Pub.url pub = "/docs/1.0/intro") ∧
  (∃ out pub,
     computeOut cwd introSrc (Some "page") "indexify" = Ok out ∧
     Out.path out = "docs/1.0/intro/index.html" ∧
     computePub introSrc (Some out) (Some "page") "indexify" = Ok pub ∧
     Pub.url pub = "/docs/1.0/intro/").
Proof.
  split; [|split].
  - eexists _, _. split; [by vm_compute|]. split; [done|]. split; [by vm_compute|done].
  - eexists _, _. split; [by vm_compute|]. split; [by vm_compute|done].
  - eexists _, _. split; [by vm_compute|]. split; [done|]. split; [by vm_compute|done].
Qed.

End UrlComputer.

(** ** Computations that only read *)

Section Readonly.

Lemma readonly_ret {A} (a : A) : readonly (ret a).
Proof. by intros st. Qed.

Lemma readonly_throw {A} e : readonly (@throw A e).
Proof. by intros st. Qed.

Lemma readonly_lift {A} (r : Result A) : readonly (lift r).
Proof. by intros st. Qed.

Lemma readonly_gets {A} (f : State → A) : readonly (gets f).
Proof. by intros st. Qed.

Lemma readonly_deref l : readonly (deref l).
Proof. by intros st. Qed.

Lemma readonly_bind {A B} (m : M A) (k : A → M B) :
  readonly m → (∀ a, readonly (k a)) → readonly (bind m k).
Proof.
  intros Hm Hk st. unfold bind. specialize (Hm st).
  destruct (m st) as [[a|e] st']; simpl in *; subst; [apply Hk|done].
Qed.

Lemma readonly_run {A} (m : M A) st : readonly m → m st = ((m st).1, st).
Proof. intros H. specialize (H st). by destruct (m st) as [r st']; simpl in *; subst. Qed.

End Readonly.

Create HintDb readonly.
#[export] Hint Resolve readonly_ret readonly_throw readonly_lift readonly_gets
  readonly_deref : readonly.

Ltac readonly :=
  repeat first
    [ progress intros
    | apply readonly_bind
    | apply readonly_ret | apply readonly_throw | apply readonly_lift
    | apply readonly_gets | apply readonly_deref
    | progress auto with readonly
    | case_match ].

Section ReadonlyCatalog.
Variable cwd : string.

Lemma readonly_getCatalog : readonly getCatalog.
Proof. apply readonly_gets. Qed.

Lemma readonly_getComponent name : readonly (getComponent name).
Proof. unfold getComponent, getCatalog. readonly. Qed.

Lemma readonly_getById id : readonly (getById id).
Proof. unfold getById, getCatalog. readonly. Qed.

Lemma readonly_resolvePage spec ctx : readonly (resolvePage spec ctx).
Proof. unfold resolvePage. pose proof readonly_getComponent. pose proof readonly_getById. readonly. Qed.

Lemma readonly_startPageUrl name version startPageSpec :
  readonly (startPageUrl cwd name version startPageSpec).
Proof.
  unfold startPageUrl, getCatalog. pose proof readonly_resolvePage. readonly.
Qed.

End ReadonlyCatalog.

(** ** [addComponentVersion]: the versions of a component *)

Section Versions.
Variable cwd : string.
Variable versionCompare : string → string → Z.

(** The contract of [versionCompare], a descending total order. *)
Hypothesis versionCompare_antisym :
  ∀ a b, 0 < versionCompare a b → versionCompare b a < 0.
Hypothesis versionCompare_trans :
  ∀ a b c, versionCompare a b ≤ 0 → versionCompare b c ≤ 0 → versionCompare a c ≤ 0.

(** What the callback of [findIndex] finds: no version that is older than
    the new one, the first such version, or the new version itself. *)
Lemma findIndexFrom_versions name version l i :
  match findIndexFrom
          (λ candidate,
             if bool_decide (VersionEntry.version candidate = version) then
               Throw (DuplicateVersion
                 ("Duplicate version detected for component " +:+ name +:+ ": " +:+ version))
             else Ok (0 <? versionCompare (VersionEntry.version candidate) version))
          l i with
  | Ok r =>
      (r = -1 ∧
       Forall (λ x, versionCompare (VersionEntry.version x) version ≤ 0 ∧
                    VersionEntry.version x ≠ version) l) ∨
      (∃ (k : nat) y, r = i + Z.of_nat k ∧ l !! k = Some y ∧
         0 < versionCompare (VersionEntry.version y) version ∧
         Forall (λ x, versionCompare (VersionEntry.version x) version ≤ 0 ∧
                      VersionEntry.version x ≠ version) (take k l))
  | Throw e =>
      e = DuplicateVersion
            ("Duplicate version detected for component " +:+ name +:+ ": " +:+ version) ∧
      ∃ x, x ∈ l ∧ VersionEntry.version x = version
  end.
Proof.
  revert i. induction l as [|x l IH]; intros i; simpl.
  - left. by split.
  - case_bool_decide as Heq; simpl.
    + split; [done|]. exists x. split; [left|done].
    + destruct (0 <? versionCompare (VersionEntry.version x) version) eqn:Hcmp.
      * apply Z.ltb_lt in Hcmp. right. exists 0%nat, x.
        repeat split; [lia|done|by constructor].
      * apply Z.ltb_ge in Hcmp. specialize (IH (i + 1)).
        destruct (findIndexFrom _ l (i + 1)) as [r|e].
        -- destruct IH as [[-> Hall]|(k & y & -> & Hk & Hy & Hall)].
           ++ left. split; [done|]. by constructor.
           ++ right. exists (S k), y. repeat split; [lia|done|done|]. by constructor.
        -- destruct IH as [-> (y & Hy & Hv)]. split; [done|].
           exists y. split; [by right|done].
Qed.

Lemma descending_push l e version :
  VersionEntry.version e = version →
  descending versionCompare l →
  Forall (λ x, versionCompare (VersionEntry.version x) version ≤ 0 ∧
               VersionEntry.version x ≠ version) l →
  descending versionCompare (l ++ [e]).
Proof.
  intros <- Hl Hall. apply StronglySorted_app. split; [|split; [done|]].
  - intros x y Hx ->%list_elem_of_singleton.
    rewrite Forall_forall in Hall. by apply Hall.
  - repeat constructor.
Qed.

Lemma descending_splice l e version (k : nat) y :
  VersionEntry.version e = version →
  descending versionCompare l →
  l !! k = Some y →
  0 < versionCompare (VersionEntry.version y) version →
  Forall (λ x, versionCompare (VersionEntry.version x) version ≤ 0 ∧
               VersionEntry.version x ≠ version) (take k l) →
  descending versionCompare (splice (Z.of_nat k) e l).
Proof.
  intros <- Hl Hk Hy Hall. unfold splice. rewrite Nat2Z.id.
  unfold descending in *.
  rewrite <-(take_drop k l) in Hl.
  apply StronglySorted_app in Hl as (Hcross & Htake & Hdrop).
  apply StronglySorted_app. split; [|split; [done|]].
  - intros a b Ha Hb. apply elem_of_cons in Hb as [->|Hb].
    + rewrite Forall_forall in Hall. by apply Hall.
    + by apply Hcross.
  - apply StronglySorted_cons. split; [|done].
    rewrite (drop_S _ y) in Hdrop |- * by done.
    apply StronglySorted_cons in Hdrop as [Hy' _].
    apply versionCompare_antisym in Hy.
    constructor; [lia|].
    eapply Forall_impl; [exact Hy'|]. intros z Hz. simpl in *.
    eapply versionCompare_trans; [|exact Hz]. lia.
Qed.

(** Inserting a version keeps the component in order. *)
Lemma insertVersion_ok component name version title url component' :
  componentOk versionCompare component →
  insertVersion versionCompare component name version title url = Ok component' →
  componentOk versionCompare component'.
Proof.
  intros [Hdesc (latest & Hlatest & Hfirst & Hurl & Htitle)].
  unfold insertVersion, findIndex.
  pose proof (findIndexFrom_versions name version (Component.versions component) 0) as Hfind.
  destruct (findIndexFrom _ _ 0) as [r|e]; [|done]. simpl.
  intros [= <-].
  destruct Hfind as [[-> Hall]|(k & y & -> & Hk & Hy & Hall)].
  - simpl. split; simpl.
    + by eapply descending_push.
    + exists latest. unfold Component.latestVersion in *. simpl.
      destruct (Component.versions component); [done|]. by simpl in *.
  - rewrite Z.add_0_l. destruct k as [|k].
    + simpl. split; simpl.
      * by eapply (descending_splice _ _ _ 0%nat).
      * eexists. unfold Component.latestVersion, splice. simpl. done.
    + replace (Z.of_nat (S k) <? 0) with false by (symmetry; apply Z.ltb_ge; lia).
      replace (Z.of_nat (S k) =? 0) with false by (symmetry; apply Z.eqb_neq; lia).
      split; simpl.
      * by eapply descending_splice.
      * exists latest. unfold Component.latestVersion, splice in *.
        rewrite Nat2Z.id. simpl.
        destruct (Component.versions component); [done|]. by simpl in *.
Qed.

(** A version that the component has is found before any older one. *)
Lemma findIndexFrom_duplicate name version l i :
  descending versionCompare l →
  version ∈ VersionEntry.version <$> l →
  findIndexFrom
    (λ candidate,
       if bool_decide (VersionEntry.version candidate = version) then
         Throw (DuplicateVersion
           ("Duplicate version detected for component " +:+ name +:+ ": " +:+ version))
       else Ok (0 <? versionCompare (VersionEntry.version candidate) version))
    l i =
  Throw (DuplicateVersion
           ("Duplicate version detected for component " +:+ name +:+ ": " +:+ version)).
Proof.
  revert i. induction l as [|x l IH]; intros i Hdesc Hin; simpl.
  - by apply elem_of_nil in Hin.
  - case_bool_decide as Heq; [done|]. simpl.
    rewrite fmap_cons in Hin.
    apply elem_of_cons in Hin as [Hin|Hin]; [done|].
    apply StronglySorted_cons in Hdesc as [Hx Hl].
    pose proof Hin as Hin'.
    apply list_elem_of_fmap in Hin as (y & -> & Hy).
    rewrite Forall_forall in Hx. specialize (Hx y Hy). simpl in Hx.
    replace (0 <? versionCompare (VersionEntry.version x) (VersionEntry.version y))
      with false by (symmetry; apply Z.ltb_ge; lia).
    by apply IH.
Qed.

Lemma insertVersion_duplicate component name version title url :
  descending versionCompare (Component.versions component) →
  version ∈ VersionEntry.version <$> Component.versions component →
  insertVersion versionCompare component name version title url =
  Throw (DuplicateVersion
           ("Duplicate version detected for component " +:+ name +:+ ": " +:+ version)).
Proof.
  intros Hdesc Hin. unfold insertVersion, findIndex.
  by rewrite findIndexFrom_duplicate.
Qed.

End Versions.

(** ** When [computeOut] and [computePub] return *)

Section Returns.
Variable cwd : string.

Lemma computeOut_Ok src family style :
  is_Some (Src.component src) → is_Some (Src.version src) → is_Some (Src.module src) →
  is_Some (Src.relative src) → is_Some (Src.stem src) →
  Src.mediaType src = Some "text/asciidoc" ∨ is_Some (Src.basename src) →
  ∃ out, computeOut cwd src family style = Ok out.
Proof.
  destruct src as [component version module family' relative basename extname stem
                     mediaType moduleRootPath].
  cbn [Src.component Src.version Src.module Src.relative Src.stem Src.mediaType
       Src.basename].
  intros [c ->] [v ->] [m ->] [r ->] [s ->] Hbase.
  unfold computeOut.
  cbn [Src.component Src.version Src.module Src.relative Src.stem Src.mediaType
       Src.basename].
  destruct (JS.isStr (Some v) "master"), (JS.isStr (Some m) "ROOT"),
    (JS.isStr family "page" && negb (JS.isStr (Some s) "index") &&
     bool_decide (style = "indexify")).
  all: destruct Hbase as [->|[b ->]]; [|destruct (JS.isStr mediaType "text/asciidoc")].
  all: cbn; eauto.
Qed.

Lemma computePub_Ok src out family style :
  ∃ pub, computePub src (Some out) family style = Ok pub.
Proof.
  unfold computePub.
  destruct (JS.isStr family "navigation"), (JS.isStr family "page"); cbn; eauto.
Qed.

Lemma expandPageSrc_index name version :
  expandPageSrc
    (Src.mk (Some name) (Some version) (Some "ROOT") None (Some "index.adoc")
       None None None None None) "page" = Ok (indexSrc name version).
Proof. reflexivity. Qed.

End Returns.

Section VersionsState.
Variable cwd : string.
Variable versionCompare : string → string → Z.

(** [addComponentVersion], step by step. *)
Lemma addComponentVersion_run name version title startPageSpec st :
  addComponentVersion cwd versionCompare name version title startPageSpec st =
  match (startPageUrl cwd name version startPageSpec st).1 with
  | Throw e => (Throw e, st)
  | Ok url =>
      let c := catalog st in
      match ContentCatalog.components c !! name with
      | Some component =>
          match insertVersion versionCompare component name version title url with
          | Ok component =>
              (Ok tt,
               mkState (heap st)
                 (ContentCatalog.mk (<[name := component]> (ContentCatalog.components c))
                    (ContentCatalog.files c) (ContentCatalog.htmlUrlExtensionStyle c)))
          | Throw e => (Throw e, st)
          end
      | None =>
          (Ok tt,
           mkState (heap st)
             (ContentCatalog.mk
                (<[name := Component.mk name title url [VersionEntry.mk title version url]]>
                   (ContentCatalog.components c))
                (ContentCatalog.files c) (ContentCatalog.htmlUrlExtensionStyle c)))
      end
  end.
Proof.
  unfold addComponentVersion, bind at 1.
  rewrite (readonly_run (startPageUrl _ _ _ _)) by apply readonly_startPageUrl.
  simpl. destruct (startPageUrl _ _ _ _ st).1 as [url|e]; [|done].
  unfold bind, getCatalog, gets. simpl.
  destruct (ContentCatalog.components (catalog st) !! name) as [component|]; [|done].
  unfold bind, lift. by destruct (insertVersion _ _ _ _ _ _).
Qed.

Lemma parsePageId_index ctx :
  PageId.parsePageId "index.adoc" ctx =
  Some (pageId (Src.component ctx) (Src.version ctx) (Src.module ctx) "index.adoc").
Proof. reflexivity. Qed.

(** Without files in the catalog and without a start page spec, the URL
    is the one that [index.adoc] would have. *)
Lemma startPageUrl_no_files name version st :
  ContentCatalog.files (catalog st) = ∅ → version ≠ "" →
  ∃ url, startPageUrl cwd name version None st = (Ok url, st).
Proof.
  intros Hfiles Hversion. unfold startPageUrl, resolvePage.
  change (JS.truthy None) with false. cbv iota.
  rewrite parsePageId_index. cbn [pageId Src.version Src.component].
  rewrite truthy_Some by done. cbn [negb].
  unfold bind at 1, getById at 1, bind at 1, getCatalog at 1, gets at 1, ret at 1.
  rewrite Hfiles, lookup_empty.
  unfold bind, getCatalog, gets, lift.
  rewrite expandPageSrc_index. cbn [bindR].
  destruct (computeOut_Ok cwd (indexSrc name version) (Some "page")
              (ContentCatalog.htmlUrlExtensionStyle (catalog st))) as [out Hout];
    [by eexists..|by left|].
  change (Src.family (indexSrc name version)) with (Some "page").
  rewrite Hout. cbn [bindR].
  destruct (computePub_Ok (indexSrc name version) out (Some "page")
              (ContentCatalog.htmlUrlExtensionStyle (catalog st))) as [pub Hpub].
  rewrite Hpub. cbn [bindR]. eauto.
Qed.

End VersionsState.

Section VersionsInsert.
Variable cwd : string.
Variable versionCompare : string → string → Z.

Lemma insertDescending_app version l1 l2 :
  Forall (λ x, versionCompare x version ≤ 0) l1 →
  insertDescending versionCompare version (l1 ++ l2) =
  l1 ++ insertDescending versionCompare version l2.
Proof.
  induction 1 as [|x l1 Hx _ IH]; [done|]. simpl.
  replace (0 <? versionCompare x version) with false
    by (symmetry; apply Z.ltb_ge; lia).
  by rewrite IH.
Qed.

(** The versions of the component after [insertVersion]. *)
Lemma insertVersion_versions component name version title url component' :
  insertVersion versionCompare component name version title url = Ok component' →
  VersionEntry.version <$> Component.versions component' =
  insertDescending versionCompare version
    (VersionEntry.version <$> Component.versions component).
Proof.
  unfold insertVersion, findIndex.
  pose proof (findIndexFrom_versions versionCompare name version
                (Component.versions component) 0) as Hfind.
  destruct (findIndexFrom _ _ 0) as [r|e]; [|done]. simpl.
  intros [= <-].
  assert (∀ l, Forall (λ x, versionCompare (VersionEntry.version x) version ≤ 0 ∧
                            VersionEntry.version x ≠ version) l →
               Forall (λ x, versionCompare x version ≤ 0) (VersionEntry.version <$> l))
    as Hfmap.
  { intros l Hl. apply Forall_fmap. eapply Forall_impl; [exact Hl|]. by intros x [? _]. }
  destruct Hfind as [[-> Hall]|(k & y & -> & Hk & Hy & Hall)].
  - simpl. rewrite fmap_app. simpl.
    rewrite <-(app_nil_r (VersionEntry.version <$> Component.versions component)) at 2.
    rewrite insertDescending_app by by apply Hfmap. done.
  - rewrite Z.add_0_l.
    assert (VersionEntry.version <$> splice (Z.of_nat k) (VersionEntry.mk title version url)
                                      (Component.versions component) =
            insertDescending versionCompare version
              (VersionEntry.version <$> Component.versions component)) as Hgoal.
    { unfold splice. rewrite Nat2Z.id.
      rewrite <-(take_drop k (Component.versions component)) at 3.
      rewrite !fmap_app. rewrite insertDescending_app by by apply Hfmap.
      f_equal. rewrite (drop_S _ y) by done. simpl.
      apply Z.ltb_lt in Hy. by rewrite Hy. }
    replace (Z.of_nat k <? 0) with false by (symmetry; apply Z.ltb_ge; lia).
    by destruct (Z.of_nat k =? 0).
Qed.

(** A version that the component does not have is inserted. *)
Lemma insertVersion_new component name version title url :
  version ∉ VersionEntry.version <$> Component.versions component →
  ∃ component', insertVersion versionCompare component name version title url = Ok component'.
Proof.
  intros Hnew. unfold insertVersion, findIndex.
  pose proof (findIndexFrom_versions versionCompare name version
                (Component.versions component) 0) as Hfind.
  destruct (findIndexFrom _ _ 0) as [r|e]; simpl; [eauto|].
  destruct Hfind as [_ (x & Hx & Hv)]. destruct Hnew.
  apply list_elem_of_fmap. eauto.
Qed.

(** A call without a start page spec on a catalog without files, for a
    version that the component does not have. *)
Lemma addComponentVersion_no_files name version title st :
  ContentCatalog.files (catalog st) = ∅ → version ≠ "" →
  version ∉ versionsOf st name →
  ∃ st', addComponentVersion cwd versionCompare name version title None st = (Ok tt, st') ∧
         ContentCatalog.files (catalog st') = ∅ ∧
         versionsOf st' name =
           insertDescending versionCompare version (versionsOf st name).
Proof.
  intros Hfiles Hversion Hnew. rewrite addComponentVersion_run.
  destruct (startPageUrl_no_files cwd name version st Hfiles Hversion) as [url ->].
  simpl. unfold versionsOf in *.
  destruct (ContentCatalog.components (catalog st) !! name) as [component|] eqn:Hc.
  - destruct (insertVersion_new component name version title url Hnew) as [c' Hc'].
    rewrite Hc'. eexists. split; [done|]. simpl. split; [done|].
    rewrite lookup_insert_eq. by eapply insertVersion_versions.
  - eexists. split; [done|]. simpl. split; [done|]. by rewrite lookup_insert_eq.
Qed.

End VersionsInsert.

Section VersionsClaim.
Variable cwd : string.
Variable versionCompare : string → string → Z.

Hypothesis versionCompare_antisym :
  ∀ a b, 0 < versionCompare a b → versionCompare b a < 0.
Hypothesis versionCompare_trans :
  ∀ a b c, versionCompare a b ≤ 0 → versionCompare b c ≤ 0 → versionCompare a c ≤ 0.

(** A call keeps every component in order, whether it returns or throws. *)
Lemma addComponentVersion_ok name version title startPageSpec st :
  catalogOk versionCompare st →
  catalogOk versionCompare
    (addComponentVersion cwd versionCompare name version title startPageSpec st).2.
Proof.
  intros Hst. rewrite addComponentVersion_run.
  destruct (startPageUrl _ _ _ _ st).1 as [url|e]; [|done]. simpl.
  destruct (ContentCatalog.components (catalog st) !! name) as [component|] eqn:Hc.
  - destruct (insertVersion _ _ _ _ _ _) as [component'|e] eqn:Hins; [|done].
    intros name' c. simpl. destruct (decide (name = name')) as [<-|Hne].
    + rewrite lookup_insert_eq. intros [= <-].
      eapply insertVersion_ok; [done..| |done]. by eapply Hst.
    + rewrite lookup_insert_ne by done. apply Hst.
  - intros name' c. simpl. destruct (decide (name = name')) as [<-|Hne].
    + rewrite lookup_insert_eq. intros [= <-]. split; simpl.
      * repeat constructor.
      * by eexists.
    + rewrite lookup_insert_ne by done. apply Hst.
Qed.

Lemma runCalls_ok calls st :
  catalogOk versionCompare st → catalogOk versionCompare (runCalls cwd versionCompare calls st).
Proof.
  revert st. induction calls as [|call calls IH]; intros st Hst; [done|].
  simpl. apply IH. by apply addComponentVersion_ok.
Qed.

(** Adding a version that the component has throws: the error of the
    start page when there is one, and the duplicate version otherwise. *)
Lemma addComponentVersion_duplicate name version title startPageSpec st :
  catalogOk versionCompare st →
  version ∈ versionsOf st name →
  addComponentVersion cwd versionCompare name version title startPageSpec st =
  (Throw match (startPageUrl cwd name version startPageSpec st).1 with
         | Ok _ => DuplicateVersion (duplicateVersionMessage name version)
         | Throw e => e
         end, st).
Proof.
  intros Hst Hin. rewrite addComponentVersion_run.
  destruct (startPageUrl _ _ _ _ st).1 as [url|e]; [|done]. simpl.
  unfold versionsOf in Hin.
  destruct (ContentCatalog.components (catalog st) !! name) as [component|] eqn:Hc;
    [|by apply elem_of_nil in Hin].
  rewrite insertVersion_duplicate; [done|by apply (Hst _ _ Hc)|done].
Qed.

(** The scenario: 1.0, 2.0, 1.5 and 3.0 added in this order. *)
Lemma docs_scenario heap style :
  olderThan versionCompare "1.0" "1.5" → olderThan versionCompare "1.5" "2.0" →
  olderThan versionCompare "1.0" "2.0" → olderThan versionCompare "2.0" "3.0" →
  versionsOf
    (runCalls cwd versionCompare docsCalls (mkState heap (ContentCatalog.mk ∅ ∅ style)))
    "docs" = ["3.0"; "2.0"; "1.5"; "1.0"].
Proof.
  unfold olderThan. intros H1015 H1520 H1020 H2030.
  pose proof (versionCompare_antisym _ _ H1520) as H2015.
  assert (∀ (v : string) (l : list string), Forall (λ x, x ≠ v) l → v ∉ l) as Hnotin.
  { intros v l Hl Hin. rewrite Forall_forall in Hl. by apply (Hl v). }
  set (st0 := mkState heap (ContentCatalog.mk ∅ ∅ style)).
  assert (versionsOf st0 "docs" = []) as Hv0.
  { unfold versionsOf. simpl. by rewrite lookup_empty. }
  unfold runCalls, docsCalls. simpl.
  destruct (addComponentVersion_no_files cwd versionCompare "docs" "1.0" None st0)
    as (st1 & -> & Hf1 & Hv1); [done|done|rewrite Hv0; apply not_elem_of_nil|].
  rewrite Hv0 in Hv1. simpl in Hv1. cbn [snd].
  destruct (addComponentVersion_no_files cwd versionCompare "docs" "2.0" None st1)
    as (st2 & -> & Hf2 & Hv2); [done|done|rewrite Hv1; apply Hnotin; by repeat constructor|].
  rewrite Hv1 in Hv2. simpl in Hv2. cbn [snd].
  apply Z.ltb_lt in H1020 as E1. rewrite E1 in Hv2.
  destruct (addComponentVersion_no_files cwd versionCompare "docs" "1.5" None st2)
    as (st3 & -> & Hf3 & Hv3); [done|done|rewrite Hv2; apply Hnotin; by repeat constructor|].
  rewrite Hv2 in Hv3. simpl in Hv3. cbn [snd].
  replace (0 <? versionCompare "2.0" "1.5") with false in Hv3
    by (symmetry; apply Z.ltb_ge; lia).
  apply Z.ltb_lt in H1015 as E2. rewrite E2 in Hv3.
  destruct (addComponentVersion_no_files cwd versionCompare "docs" "3.0" None st3)
    as (st4 & -> & Hf4 & Hv4); [done|done|rewrite Hv3; apply Hnotin; by repeat constructor|].
  rewrite Hv3 in Hv4. simpl in Hv4. cbn [snd].
  apply Z.ltb_lt in H2030 as E3. rewrite E3 in Hv4.
  done.
Qed.

(** C5, as amended: after every sequence of calls of [addComponentVersion]
    the versions of every component are in descending order and the latest
    version is the first one, whose URL is the URL of the component; the
    versions 1.0, 2.0, 1.5 and 3.0 added in this order end up as 3.0, 2.0,
    1.5, 1.0; and adding a version that the component has throws, the
    duplicate version error once the start page of the call is resolved and
    the error of the start page otherwise. *)
Theorem versions_descending (calls : list Call) (st : State)
    (Hst : catalogOk versionCompare st) :
  (∀ name c,
     ContentCatalog.components (catalog (runCalls cwd versionCompare calls st)) !! name
       = Some c →
     descending versionCompare (Component.versions c) ∧
     ∃ latest, Component.latestVersion c = Some latest ∧
               Component.versions c !! 0%nat = Some latest ∧
               Component.url c = VersionEntry.url latest) ∧
  (∀ heap style,
     olderThan versionCompare "1.0" "1.5" → olderThan versionCompare "1.5" "2.0" →
     olderThan versionCompare "1.0" "2.0" → olderThan versionCompare "2.0" "3.0" →
     let st' := runCalls cwd versionCompare docsCalls
                  (mkState heap (ContentCatalog.mk ∅ ∅ style)) in
     versionsOf st' "docs" = ["3.0"; "2.0"; "1.5"; "1.0"] ∧
     ∃ c latest, ContentCatalog.components (catalog st') !! "docs" = Some c ∧
                 Component.latestVersion c = Some latest ∧
                 VersionEntry.version latest = "3.0" ∧
                 Component.url c = VersionEntry.url latest) ∧
  (∀ name version title startPageSpec,
     version ∈ versionsOf st name →
     addComponentVersion cwd versionCompare name version title startPageSpec st =
     (Throw match (startPageUrl cwd name version startPageSpec st).1 with
            | Ok _ => DuplicateVersion (duplicateVersionMessage name version)
            | Throw e => e
            end, st)).
Proof.
  split; [|split].
  - intros name c Hc.
    destruct (runCalls_ok calls st Hst name c Hc) as [Hdesc (latest & ? & ? & ? & _)].
    eauto.
  - intros heap style H1 H2 H3 H4 st'.
    pose proof (docs_scenario heap style H1 H2 H3 H4) as Hv. fold st' in Hv.
    split; [done|]. unfold versionsOf in Hv.
    destruct (ContentCatalog.components (catalog st') !! "docs") as [c|] eqn:Hc; [|done].
    assert (catalogOk versionCompare st') as Hok.
    { apply runCalls_ok. intros name c'. simpl. by rewrite lookup_empty. }
    destruct (Hok _ _ Hc) as [_ (latest & Hlatest & Hfirst & Hurl & _)].
    exists c, latest. repeat split; [done| |done].
    destruct (Component.versions c) as [|e l]; [done|].
    simpl in Hfirst, Hv. by injection Hfirst as ->; injection Hv as ->.
  - intros name version title startPageSpec Hin.
    by apply addComponentVersion_duplicate.
Qed.

End VersionsClaim.

(** [versionCompareDesc] meets the contract of [versionCompare]. *)
Lemma versionCompareDesc_le a b : versionCompareDesc a b ≤ 0 ↔ String.le b a.
Proof.
  unfold versionCompareDesc, String.le, String.leb.
  rewrite (String.compare_antisym a b).
  destruct (String.compare b a); simpl; split; intros H; try done; lia.
Qed.

Lemma versionCompareDesc_antisym a b :
  0 < versionCompareDesc a b → versionCompareDesc b a < 0.
Proof.
  unfold versionCompareDesc. rewrite (String.compare_antisym b a).
  destruct (String.compare a b); simpl; lia.
Qed.

Lemma versionCompareDesc_trans a b c :
  versionCompareDesc a b ≤ 0 → versionCompareDesc b c ≤ 0 → versionCompareDesc a c ≤ 0.
Proof.
  rewrite !versionCompareDesc_le. intros Hba Hcb. by etrans.
Qed.

Lemma versions_descending_witness :
  versionsOf (runCalls "/work" versionCompareDesc docsCalls emptyState) "docs"
  = ["3.0"; "2.0"; "1.5"; "1.0"].
Proof.
  assert (catalogOk versionCompareDesc emptyState) as Hst.
  { intros name c. simpl. by rewrite lookup_empty. }
  pose proof (versions_descending "/work" versionCompareDesc versionCompareDesc_antisym
                versionCompareDesc_trans docsCalls emptyState Hst) as (_ & Hex & _).
  apply (Hex [] "default"); by vm_compute.
Defined.

(** C5 as stated fails: [docs] has the version 2.0, and adding it again with
    a start page spec that names no page throws the error of the start page,
    not the duplicate version error. *)
Lemma versions_descending_counterexample :
  versionsOf docsState "docs" = ["2.0"] ∧
  (addComponentVersion "/work" versionCompareDesc "docs" "2.0" (Some "Docs")
     (Some "missing") docsState).1 =
  Throw (StartPageMissing "Start page specified for 2.0@docs not found: missing").
Proof. split; by vm_compute. Qed.

(** ** [registerPageAlias] *)

Section RegisterPageAlias.
Variable cwd : string.

Lemma find_version_None (version : JS.value) (versions : list VersionEntry.t) :
  Forall (λ candidate, Some (VersionEntry.version candidate) ≠ version) versions →
  List.find (λ candidate, JS.strictEq (Some (VersionEntry.version candidate)) version)
    versions = None.
Proof.
  induction 1 as [|x l Hx _ IH]; [done|]. simpl. unfold JS.strictEq at 1.
  by rewrite bool_decide_eq_false_2.
Qed.

(** C10: [registerPageAlias] returns [undefined], without a change of the
    state and without an error, when the alias spec does not parse, when the
    component it names is not in the catalog, and when the version it names
    is not a version of that component. *)
Theorem registerPageAlias_ignored (aliasSpec : string) (targetPage : loc)
    (target : File.t) (st : State)
    (Htarget : heap st !! targetPage = Some target)
    (Hcase :
       PageId.parsePageId aliasSpec (File.src target) = None ∨
       (∃ src, PageId.parsePageId aliasSpec (File.src target) = Some src ∧
               ContentCatalog.components (catalog st) !! JS.str (Src.component src) = None) ∨
       (∃ src component,
          PageId.parsePageId aliasSpec (File.src target) = Some src ∧
          ContentCatalog.components (catalog st) !! JS.str (Src.component src)
            = Some component ∧
          JS.truthy (Src.version src) = true ∧
          Forall (λ candidate, Some (VersionEntry.version candidate) ≠ Src.version src)
            (Component.versions component))) :
  registerPageAlias cwd aliasSpec targetPage st = (Ok None, st).
Proof.
  unfold registerPageAlias, bind at 1, deref at 1. rewrite Htarget. cbn [defined].
  destruct Hcase as [->|[(src & -> & Hc)|(src & component & -> & Hc & Hv & Hnone)]].
  - done.
  - unfold bind, getComponent, getCatalog, gets, ret. cbn. by rewrite Hc.
  - unfold bind at 1, getComponent, bind at 1, getCatalog, gets, ret. cbn.
    rewrite Hc. rewrite Hv. unfold bind at 1.
    by rewrite find_version_None.
Qed.

End RegisterPageAlias.

Lemma registerPageAlias_ignored_witness :
  registerPageAlias "/work" "a:b:c:d" 0%nat docsState = (Ok None, docsState) ∧
  registerPageAlias "/work" "other::page" 0%nat docsState = (Ok None, docsState) ∧
  registerPageAlias "/work" "9.9@docs::page" 0%nat docsState = (Ok None, docsState).
Proof.
  assert (∃ target, heap docsState !! 0%nat = Some target) as [target Htarget]
    by (eexists; by vm_compute).
  split; [|split].
  - apply (registerPageAlias_ignored "/work" "a:b:c:d" 0%nat target docsState Htarget).
    left. injection Htarget as <-. by vm_compute.
  - apply (registerPageAlias_ignored "/work" "other::page" 0%nat target docsState Htarget).
    right. left. injection Htarget as <-. eexists. split; by vm_compute.
  - apply (registerPageAlias_ignored "/work" "9.9@docs::page" 0%nat target docsState Htarget).
    right. right. injection Htarget as <-. eexists _, _.
    split; [by vm_compute|]. split; [by vm_compute|]. split; [by vm_compute|].
    repeat constructor. by vm_compute.
Defined.

(** ** [addFile] *)

Section HiddenSegments.

Lemma indexOfFrom_nonneg p s i : 0 ≤ i → JS.indexOfFrom p s i = -1 ∨ 0 ≤ JS.indexOfFrom p s i.
Proof.
  revert i. induction s as [|a s IH]; intros i Hi; simpl.
  - destruct (JS.stripPrefix p ""); auto.
  - destruct (JS.stripPrefix p (String a s)); [auto|]. apply IH. lia.
Qed.

Lemma stripPrefix_hidden prev s :
  JS.stripPrefix "/_" (String prev s) =
  if Ascii.eqb prev "/" then
    match s with
    | String a t => if Ascii.eqb a "_" then Some t else None
    | EmptyString => None
    end
  else None.
Proof.
  change (JS.stripPrefix "/_" (String prev s))
    with (if Ascii.eqb "/" prev then JS.stripPrefix "_" s else None).
  rewrite (Ascii.eqb_sym "/" prev). destruct (Ascii.eqb prev "/"); [|done].
  destruct s as [|a t]; [done|].
  change (JS.stripPrefix "_" (String a t))
    with (if Ascii.eqb "_" a then Some t else None).
  by rewrite (Ascii.eqb_sym "_" a).
Qed.

(** [/_] does not occur after a character [prev]. *)
Lemma indexOfFrom_hidden prev s i :
  0 ≤ i →
  (JS.indexOfFrom "/_" (String prev s) i =? -1) = noHiddenFrom (Ascii.eqb prev "/") s.
Proof.
  revert prev i. induction s as [|a s IH]; intros prev i Hi.
  - cbn [JS.indexOfFrom noHiddenFrom]. rewrite stripPrefix_hidden.
    by destruct (Ascii.eqb prev "/").
  - cbn [noHiddenFrom].
    change (JS.indexOfFrom "/_" (String prev (String a s)) i)
      with (match JS.stripPrefix "/_" (String prev (String a s)) with
            | Some _ => i
            | None => JS.indexOfFrom "/_" (String a s) (i + 1)
            end).
    rewrite stripPrefix_hidden.
    destruct (Ascii.eqb prev "/"), (Ascii.eqb a "_"); cbn [andb].
    + apply Z.eqb_neq. lia.
    + apply IH. lia.
    + apply IH. lia.
    + apply IH. lia.
Qed.

Lemma noHiddenSegment_from relative :
  noHiddenSegment relative = noHiddenFrom true (JS.str relative).
Proof.
  unfold noHiddenSegment, JS.indexOf.
  change ("/" +:+ JS.str relative) with (String "/" (JS.str relative)).
  by rewrite indexOfFrom_hidden.
Qed.

Lemma startsWith_hidden s : JS.startsWith s "_" = startsHidden s.
Proof.
  unfold JS.startsWith. destruct s as [|a s]; [done|].
  change (JS.stripPrefix "_" (String a s))
    with (if Ascii.eqb "_" a then Some s else None).
  rewrite (Ascii.eqb_sym "_" a). unfold startsHidden.
  destruct (Ascii.eqb a "_").
  - by rewrite bool_decide_eq_true_2.
  - rewrite bool_decide_eq_false_2; [done|]. by intros [? ?].
Qed.

Lemma startsHidden_rev_app cur b s1 s2 :
  startsHidden (String.rev_app cur (String b s1)) =
  startsHidden (String.rev_app cur (String b s2)).
Proof.
  revert b s1 s2. induction cur as [|a cur IH]; intros b s1 s2; [done|].
  simpl. apply IH.
Qed.

(** The segments that [split] gives from an accumulated start of a
    segment [cur], kept in reverse. *)
Lemma splitGo_hidden cur s :
  Forall (λ segment, startsHidden segment = false) (JS.splitGo "/" cur s) ↔
  startsHidden (String.rev cur) = false ∧
  noHiddenFrom (bool_decide (cur = "")) s = true.
Proof.
  revert cur. induction s as [|a s IH]; intros cur.
  - simpl. rewrite Forall_singleton. naive_solver.
  - cbn [JS.splitGo noHiddenFrom]. destruct (Ascii.eqb a "/") eqn:Hsep.
    + apply Ascii.eqb_eq in Hsep as ->. rewrite Forall_cons, IH.
      rewrite andb_false_r. simpl. naive_solver.
    + rewrite IH. rewrite (bool_decide_eq_false_2 (String a cur = "")) by done.
      destruct cur as [|b cur].
      * simpl. destruct (Ascii.eqb a "_"); naive_solver.
      * rewrite (bool_decide_eq_false_2 (String b cur = "")) by done. simpl.
        unfold String.rev. simpl.
        by rewrite (startsHidden_rev_app cur b (String a "") "").
Qed.

(** The test of [addFile] on [relative] says that no segment begins with
    [_]. *)
Lemma noHiddenSegment_segments relative :
  noHiddenSegment relative = true ↔ noSegmentHidden relative.
Proof.
  rewrite noHiddenSegment_from. unfold noSegmentHidden, JS.split.
  assert (∀ l, Forall (λ segment, JS.startsWith segment "_" = false) l ↔
               Forall (λ segment, startsHidden segment = false) l) as ->.
  { intros l. apply Forall_iff. intros s. by rewrite startsWith_hidden. }
  rewrite splitGo_hidden. simpl. naive_solver.
Qed.

End HiddenSegments.

Section AddFile.
Variable cwd : string.

Lemma alter_lookup {A} (g : A → A) (l : list A) (i : nat) (x : A) :
  l !! i = Some x → alter g i l = <[i := g x]> l.
Proof.
  revert i. induction l as [|y l IH]; intros [|i] Hi; simplify_eq/=; [done|].
  f_equal. by apply IH.
Qed.

(** [assignOutAndPub], step by step. *)
Lemma assignOutAndPub_run file f st :
  heap st !! file = Some f →
  assignOutAndPub cwd file st =
  let style := ContentCatalog.htmlUrlExtensionStyle (catalog st) in
  match actingFamilyOf (heap st) f with
  | None => (Throw TypeError, st)
  | Some acting =>
      match withOut cwd style acting f with
      | Throw e => (Throw e, st)
      | Ok f1 =>
          match withPub style acting f1 with
          | Throw e => (Throw e, withHeap (<[file := f1]> (heap st)) st)
          | Ok f2 => (Ok tt, withHeap (<[file := f2]> (heap st)) st)
          end
      end
  end.
Proof.
  intros Hfile. destruct st as [h c]. simpl in Hfile.
  unfold assignOutAndPub, actingFamilyOf, withHeap.
  unfold bind at 1, getCatalog, gets. cbn [catalog heap].
  unfold bind at 1, deref at 1. cbn [heap]. rewrite Hfile. cbn [defined].
  unfold bind at 1.
  assert (∀ acting,
    (publishable <-
       (if bool_decide (is_Some (File.out f)) then ret true
        else if isPublishableFamily acting && noHiddenSegment (Src.relative (File.src f))
        then out <- lift (computeOut cwd (File.src f) acting
                            (ContentCatalog.htmlUrlExtensionStyle c)) ;;
             update file (File.setOut out) ;; ret true
        else ret false) ;;
     f0 <- deref file ;;
     if negb (bool_decide (is_Some (File.pub f0))) &&
        (publishable || JS.isStr acting "navigation")
     then pub <- lift (computePub (File.src f0) (File.out f0) acting
                         (ContentCatalog.htmlUrlExtensionStyle c)) ;;
          update file (File.setPub pub)
     else ret tt) (mkState h c) =
    match withOut cwd (ContentCatalog.htmlUrlExtensionStyle c) acting f with
    | Throw e => (Throw e, mkState h c)
    | Ok f1 =>
        match withPub (ContentCatalog.htmlUrlExtensionStyle c) acting f1 with
        | Throw e => (Throw e, mkState (<[file := f1]> h) c)
        | Ok f2 => (Ok tt, mkState (<[file := f2]> h) c)
        end
    end) as Hrest.
  { intros acting. unfold withOut, withPub.
    assert (file < length h)%nat as Hlt by (by eapply lookup_lt_Some).
    destruct (bool_decide (is_Some (File.out f))) eqn:Hout.
    - unfold bind at 1, ret at 1. unfold bind at 1, deref at 1. cbn [heap].
      rewrite Hfile. cbn [defined]. rewrite Hout. cbn [orb andb].
      destruct (negb (bool_decide (is_Some (File.pub f)))).
      + cbn [andb]. unfold bind, lift, update, modify. cbn [heap catalog].
        destruct (computePub _ _ _ _) as [pub|e]; cbn [bindR].
        * by rewrite (alter_lookup _ _ _ _ Hfile).
        * by rewrite list_insert_id.
      + cbn [andb]. unfold ret. by rewrite list_insert_id.
    - destruct (isPublishableFamily acting && noHiddenSegment (Src.relative (File.src f))).
      + unfold bind at 1, bind at 1, lift at 1.
        destruct (computeOut _ _ _ _) as [out|e]; cbn [bindR]; [|done].
        unfold bind at 1, update at 1, modify at 1. cbn [heap catalog].
        unfold ret at 1. unfold bind at 1, deref at 1. cbn [heap].
        rewrite (alter_lookup _ _ _ _ Hfile).
        rewrite list_lookup_insert_eq by done. cbn [defined].
        change (File.pub (File.setOut out f)) with (File.pub f).
        change (bool_decide (is_Some (File.out (File.setOut out f)))) with true.
        cbn [orb].
        destruct (negb (bool_decide (is_Some (File.pub f)))); cbn [andb].
        * unfold bind, lift, update, modify. cbn [heap catalog].
          destruct (computePub _ _ _ _) as [pub|e]; cbn [bindR]; [|done].
          rewrite (alter_lookup _ _ _ (File.setOut out f))
            by (by rewrite list_lookup_insert_eq).
          by rewrite list_insert_insert_eq.
        * done.
      + unfold bind at 1, ret at 1. unfold bind at 1, deref at 1. cbn [heap].
        rewrite Hfile. cbn [defined]. rewrite Hout. cbn [orb].
        destruct (negb (bool_decide (is_Some (File.pub f)))); cbn [andb].
        * destruct (JS.isStr acting "navigation").
          -- unfold bind, lift, update, modify. cbn [heap catalog].
             destruct (computePub _ _ _ _) as [pub|e]; cbn [bindR].
             ++ by rewrite (alter_lookup _ _ _ _ Hfile).
             ++ by rewrite list_insert_id.
          -- unfold ret. by rewrite list_insert_id.
        * unfold ret. by rewrite list_insert_id. }
  destruct (JS.isStr (Src.family (File.src f)) "alias").
  - unfold bind at 1, lift at 1. destruct (File.rel f) as [rel|]; cbn [defined]; [|done].
    unfold bind at 1, deref at 1. cbn [heap].
    destruct (h !! rel) as [target|]; cbn [defined]; [|done].
    unfold ret at 1. apply Hrest.
  - unfold ret at 1. apply Hrest.
Qed.

End AddFile.

Section AddFileClaims.
Variable cwd : string.

(** [addFile], step by step. *)
Lemma addFile_run file f st :
  heap st !! file = Some f →
  addFile cwd file st =
  let id := generateId (File.src f) in
  if bool_decide (is_Some (ContentCatalog.files (catalog st) !! id)) then
    (Throw (DuplicateFile
       ("Duplicate " +:+ JS.str (Src.family (File.src f)) +:+ ": " +:+
        JS.substrFrom id (JS.indexOf id "/" + 1))), st)
  else
    let l := if File.isVinyl f then file else length (heap st) in
    let st0 := if File.isVinyl f then st
               else withHeap (heap st ++ [File.setVinyl f]) st in
    match assignOutAndPub cwd l st0 with
    | (Ok _, st1) => (Ok tt, withFile id l st1)
    | (Throw e, st1) => (Throw e, st1)
    end.
Proof.
  intros Hfile. unfold addFile.
  unfold bind at 1, deref at 1. rewrite Hfile. cbn [defined].
  unfold bind at 1, getCatalog at 1, gets at 1. cbv zeta.
  case_bool_decide; [done|].
  unfold bind at 1. destruct (File.isVinyl f).
  - unfold ret at 1. unfold bind at 1.
    destruct (assignOutAndPub cwd file st) as [[[]|e] st1]; [|done].
    by unfold bind, getCatalog, gets, setCatalog, modify, withFile.
  - unfold alloc at 1. unfold bind at 1. unfold withHeap.
    destruct (assignOutAndPub cwd _ _) as [[[]|e] st1]; [|done].
    by unfold bind, getCatalog, gets, setCatalog, modify, withFile.
Qed.

Lemma isPublishableFamily_true acting :
  isPublishableFamily acting = true ↔
  acting = Some "page" ∨ acting = Some "image" ∨ acting = Some "attachment".
Proof.
  unfold isPublishableFamily, JS.isStr.
  rewrite !orb_true_iff, !bool_decide_eq_true. tauto.
Qed.

(** The test of [addFile] is the publishable predicate. *)
Lemma publishable_test acting relative :
  isPublishableFamily acting && noHiddenSegment relative = true ↔
  publishable acting relative.
Proof.
  unfold publishable.
  by rewrite andb_true_iff, isPublishableFamily_true, noHiddenSegment_segments.
Qed.

Lemma withOut_Ok style acting f f1 :
  withOut cwd style acting f = Ok f1 →
  File.src f1 = File.src f ∧ File.rel f1 = File.rel f ∧ File.pub f1 = File.pub f ∧
  (File.out f = None →
   (is_Some (File.out f1) ↔ publishable acting (Src.relative (File.src f)))).
Proof.
  unfold withOut. case_bool_decide as Hout.
  - intros [= <-]. split; [done|]. split; [done|]. split; [done|].
    intros Hnone. rewrite Hnone in Hout. by destruct Hout.
  - rewrite <-publishable_test.
    destruct (isPublishableFamily acting && noHiddenSegment _).
    + destruct (computeOut _ _ _ _) as [out|e]; [|done]. intros [= <-].
      split; [done|]. split; [done|]. split; [done|].
      intros _. split; [done|]. intros _. by eexists.
    + intros [= <-]. split; [done|]. split; [done|]. split; [done|].
      intros _. split; [by intros ?%Hout|done].
Qed.

Lemma withPub_Ok style acting f1 f2 :
  withPub style acting f1 = Ok f2 →
  File.src f2 = File.src f1 ∧ File.rel f2 = File.rel f1 ∧ File.out f2 = File.out f1 ∧
  (File.pub f1 = None →
   (is_Some (File.pub f2) ↔ is_Some (File.out f1) ∨ acting = Some "navigation")) ∧
  (is_Some (File.pub f1) → File.pub f2 = File.pub f1).
Proof.
  unfold withPub. case_bool_decide as Hpub; cbn [negb andb].
  - intros [= <-]. split; [done|]. split; [done|]. split; [done|]. split; [|done].
    intros Hnone. rewrite Hnone in Hpub. by destruct Hpub.
  - destruct (bool_decide (is_Some (File.out f1)) || JS.isStr acting "navigation") eqn:Hcond.
    + destruct (computePub _ _ _ _) as [pub|e]; [|done]. intros [= <-].
      split; [done|]. split; [done|]. split; [done|]. split.
      * intros _. split; [|intros _; by eexists]. intros _.
        apply orb_true_iff in Hcond as [Hc|Hc]; apply bool_decide_eq_true in Hc; auto.
      * by intros ?%Hpub.
    + intros [= <-]. split; [done|]. split; [done|]. split; [done|]. split; [|done].
      intros Hnone. apply orb_false_iff in Hcond as [Hc1 Hc2].
      apply bool_decide_eq_false in Hc1, Hc2. rewrite Hnone.
      split; [by intros [? ?]|by intros [?|?]].
Qed.

(** C4, as amended: a file that [addFile] adds, and that comes without an
    [out], gets an [out] if and only if its acting family is page, image or
    attachment and no segment of its relative path begins with [_]; when it
    also comes without a [pub], it gets a [pub] if and only if it is
    publishable or its acting family is navigation; a [pub] that it comes
    with is kept. *)
Theorem addFile_out_pub (file : loc) (f : File.t) (st st' : State)
    (Hfile : heap st !! file = Some f)
    (Hrel : ∀ rel, File.rel f = Some rel → (rel < length (heap st))%nat)
    (Hout : File.out f = None)
    (Hadd : addFile cwd file st = (Ok tt, st')) :
  ∃ added f' acting,
    ContentCatalog.files (catalog st') !! generateId (File.src f) = Some added ∧
    heap st' !! added = Some f' ∧
    actingFamilyOf (heap st) f = Some acting ∧
    (is_Some (File.out f') ↔ publishable acting (Src.relative (File.src f))) ∧
    (File.pub f = None →
     (is_Some (File.pub f') ↔
      publishable acting (Src.relative (File.src f)) ∨ acting = Some "navigation")) ∧
    (is_Some (File.pub f) → File.pub f' = File.pub f).
Proof.
  rewrite (addFile_run _ _ _ Hfile) in Hadd. cbv zeta in Hadd.
  case_bool_decide as Hdup; [done|].
  set (l := if File.isVinyl f then file else length (heap st)) in *.
  set (st0 := if File.isVinyl f then st
              else withHeap (heap st ++ [File.setVinyl f]) st) in *.
  set (f0 := if File.isVinyl f then f else File.setVinyl f).
  assert (heap st0 !! l = Some f0) as Hl.
  { unfold st0, l, f0. destruct (File.isVinyl f); [done|]. simpl.
    by apply list_lookup_middle. }
  assert (File.src f0 = File.src f ∧ File.rel f0 = File.rel f ∧
          File.out f0 = File.out f ∧ File.pub f0 = File.pub f) as (Hs0 & Hr0 & Ho0 & Hp0).
  { unfold f0. by destruct (File.isVinyl f). }
  assert (actingFamilyOf (heap st0) f0 = actingFamilyOf (heap st) f) as Hacting.
  { unfold actingFamilyOf. rewrite Hs0, Hr0.
    destruct (JS.isStr _ "alias"); [|done].
    destruct (File.rel f) as [rel|] eqn:Hrel'; [|done].
    unfold st0. destruct (File.isVinyl f); [done|]. simpl.
    by rewrite lookup_app_l by by apply Hrel. }
  rewrite (assignOutAndPub_run _ _ _ _ Hl) in Hadd. cbv zeta in Hadd.
  rewrite Hacting in Hadd.
  destruct (actingFamilyOf (heap st) f) as [acting|]; [|done].
  destruct (withOut _ _ _ _) as [f1|e] eqn:H1; [|done].
  destruct (withPub _ _ _) as [f2|e] eqn:H2; [|done].
  injection Hadd as <-.
  apply withOut_Ok in H1 as (Hs1 & Hr1 & Hp1 & Ho1).
  apply withPub_Ok in H2 as (Hs2 & Hr2 & Ho2 & Hp2 & Hp2').
  rewrite Ho0 in Ho1. specialize (Ho1 Hout). rewrite Hs0 in Ho1.
  exists l, f2, acting. split; [|split; [|split; [done|split; [|split]]]].
  - simpl. by rewrite lookup_insert_eq.
  - simpl. apply list_lookup_insert_eq. by eapply lookup_lt_Some.
  - by rewrite Ho2.
  - intros Hnone. rewrite Hp1, Hp0 in Hp2. rewrite (Hp2 Hnone). by rewrite Ho1.
  - intros Hsome. rewrite Hp2', Hp1, Hp0; [done|]. by rewrite Hp1, Hp0.
Qed.

End AddFileClaims.

Lemma addFile_out_pub_witness :
  ∃ st' f', addFile "/work" 0%nat (oneFileState introFile) = (Ok tt, st') ∧
            heap st' !! 0%nat = Some f' ∧
            is_Some (File.out f') ∧ is_Some (File.pub f').
Proof.
  destruct (addFile "/work" 0%nat (oneFileState introFile)) as [r st'] eqn:Hadd.
  assert (r = Ok tt) as -> by (by vm_compute in Hadd; injection Hadd as <- _).
  assert (heap (oneFileState introFile) !! 0%nat = Some introFile) as Hfile by done.
  assert (∀ rel, File.rel introFile = Some rel →
                 (rel < length (heap (oneFileState introFile)))%nat) as Hrel by done.
  destruct (addFile_out_pub "/work" 0%nat introFile (oneFileState introFile) st'
              Hfile Hrel eq_refl Hadd)
    as (added & f' & acting & Hadded & Hf' & Hacting & Hout & Hpub & _).
  injection Hacting as <-.
  assert (publishable (Some "page") (Some "intro.adoc")) as Hp.
  { split; [by left|]. by repeat constructor. }
  assert (added = 0%nat) as ->.
  { vm_compute in Hadd. injection Hadd as <-. vm_compute in Hadded. by injection Hadded. }
  exists st', f'. split; [done|]. split; [done|]. split.
  - by apply Hout.
  - apply Hpub; [done|by left].
Defined.

(** C4 as stated fails for a file that comes with a [pub]: a partial keeps
    the [pub] it comes with, though it is neither publishable nor a
    navigation file; and a page that comes with a [pub] is publishable, gets
    its [out], and does not get the [pub] computed from it. *)
Lemma addFile_out_pub_counterexample :
  (∃ st' f',
     File.out partialFileWithPub = None ∧
     addFile "/work" 0%nat (oneFileState partialFileWithPub) = (Ok tt, st') ∧
     heap st' !! 0%nat = Some f' ∧
     is_Some (File.pub f') ∧
     ¬ (publishable (Some "partial") (Src.relative (File.src partialFileWithPub)) ∨
        Some "partial" = Some "navigation")) ∧
  (∃ st' f' out pub,
     File.out introFileWithPub = None ∧
     addFile "/work" 0%nat (oneFileState introFileWithPub) = (Ok tt, st') ∧
     heap st' !! 0%nat = Some f' ∧
     File.out f' = Some out ∧
     publishable (Some "page") (Src.relative (File.src introFileWithPub)) ∧
     computePub (File.src f') (File.out f') (Some "page") "default" = Ok pub ∧
     File.pub f' ≠ Some pub).
Proof.
  split.
  - eexists _, _. split; [done|]. split; [by vm_compute|]. split; [by vm_compute|].
    split; [by eexists|]. intros [[[?|[?|?]] _]|?]; done.
  - eexists _, _, _, _. split; [done|]. split; [by vm_compute|]. split; [by vm_compute|].
    split; [by vm_compute|]. split; [|split; [by vm_compute|done]].
    split; [by left|]. by repeat constructor.
Qed.

Section AliasResolution.
Variable cwd : string.

Lemma find_version_Some (version : string) (versions : list VersionEntry.t) :
  version ∈ VersionEntry.version <$> versions →
  is_Some (List.find
             (λ candidate, JS.strictEq (Some (VersionEntry.version candidate)) (Some version))
             versions).
Proof.
  induction versions as [|x l IH]; intros Hin; [by apply elem_of_nil in Hin|].
  simpl. unfold JS.strictEq at 1. case_bool_decide as Heq; [by eexists|].
  rewrite fmap_cons in Hin. apply elem_of_cons in Hin as [->|Hin]; [done|]. by apply IH.
Qed.

(** A file, whatever it is, gets through the second step of
    [assignOutAndPub]. *)
Lemma withPub_total style acting f1 : ∃ f2, withPub style acting f1 = Ok f2.
Proof.
  unfold withPub.
  destruct (negb (bool_decide (is_Some (File.pub f1)))); cbn [andb]; [|by eexists].
  destruct (bool_decide (is_Some (File.out f1))) eqn:Hout; cbn [orb].
  - apply bool_decide_eq_true in Hout as [out Hout]. rewrite Hout.
    destruct (computePub_Ok (File.src f1) out acting style) as [pub ->]. by eexists.
  - destruct (JS.isStr acting "navigation") eqn:Hnav; [|by eexists].
    unfold computePub. rewrite Hnav. cbn [bindR]. destruct (File.out f1); by eexists.
Qed.

(** [registerPageAlias] for a spec that names a version of a component of
    the catalog and no page of the catalog: the alias is created and added. *)
Lemma registerPageAlias_add aliasSpec targetPage target st src component aliasSrc :
  heap st !! targetPage = Some target →
  PageId.parsePageId aliasSpec (File.src target) = Some src →
  ContentCatalog.components (catalog st) !! JS.str (Src.component src) = Some component →
  (∃ version, Src.version src = Some version ∧ version ≠ "" ∧
              version ∈ VersionEntry.version <$> Component.versions component) →
  ContentCatalog.files (catalog st) !! generateId src = None →
  expandPageSrc src "alias" = Ok aliasSrc →
  registerPageAlias cwd aliasSpec targetPage st =
  match addFile cwd (length (heap st))
          (withHeap (heap st ++ [aliasFile target targetPage aliasSrc]) st) with
  | (Ok _, st') => (Ok (Some (length (heap st))), st')
  | (Throw e, st') => (Throw e, st')
  end.
Proof.
  intros Htarget Hparse Hc (version & Hv & Hne & Hin) Hfree Hexpand.
  unfold registerPageAlias.
  unfold bind at 1, deref at 1. rewrite Htarget. cbn [defined]. rewrite Hparse.
  unfold bind at 1, getComponent at 1, bind at 1, getCatalog at 1, gets at 1, ret at 1.
  rewrite Hc. rewrite Hv. rewrite truthy_Some by done.
  destruct (find_version_Some version (Component.versions component) Hin) as [e ->].
  unfold bind at 1, ret at 1.
  unfold bind at 1, getById at 1, bind at 1, getCatalog at 1, gets at 1, ret at 1.
  rewrite Hfree.
  unfold bind at 1, lift at 1. rewrite Hexpand.
  unfold bind at 1, alloc at 1. unfold aliasFile, withHeap.
  unfold bind at 1. by destruct (addFile _ _ _) as [[[]|e'] st'].
Qed.


(** Adding the alias that [registerPageAlias] has created for a target
    of the store, under an id that is free. *)
Lemma addFile_alias targetPage target st :
  heap st !! targetPage = Some target →
  ContentCatalog.files (catalog st) !! generateId oldIntroAliasSrc = None →
  ∃ f2,
    addFile cwd (length (heap st))
      (withHeap (heap st ++ [aliasFile target targetPage oldIntroAliasSrc]) st) =
    (Ok tt,
     withFile (generateId oldIntroAliasSrc) (length (heap st))
       (withHeap (<[length (heap st) := f2]>
                    (heap st ++ [aliasFile target targetPage oldIntroAliasSrc])) st)) ∧
    File.src f2 = oldIntroAliasSrc ∧ File.rel f2 = Some targetPage.
Proof.
  intros Htarget Hfree.
  set (af := aliasFile target targetPage oldIntroAliasSrc).
  set (st_a := withHeap (heap st ++ [af]) st).
  assert (heap st_a !! length (heap st) = Some af) as Hl by (by apply list_lookup_middle).
  rewrite (addFile_run cwd _ _ _ Hl). cbv zeta.
  change (File.src af) with oldIntroAliasSrc.
  change (ContentCatalog.files (catalog st_a)) with (ContentCatalog.files (catalog st)).
  rewrite Hfree. rewrite bool_decide_eq_false_2 by (by intros [? ?]).
  change (File.isVinyl af) with true. cbv iota.
  rewrite (assignOutAndPub_run cwd _ _ _ Hl). cbv zeta.
  assert (actingFamilyOf (heap st_a) af = Some (Src.family (File.src target))) as ->.
  { unfold actingFamilyOf. change (File.src af) with oldIntroAliasSrc.
    change (File.rel af) with (Some targetPage).
    change (JS.isStr (Src.family oldIntroAliasSrc) "alias") with true. cbv iota.
    unfold st_a, withHeap. cbn [heap].
    rewrite lookup_app_l by (by eapply lookup_lt_Some).
    by rewrite Htarget. }
  set (acting := Src.family (File.src target)).
  set (style := ContentCatalog.htmlUrlExtensionStyle (catalog st_a)).
  assert (∃ f1, withOut cwd style acting af = Ok f1 ∧
                File.src f1 = oldIntroAliasSrc ∧ File.rel f1 = Some targetPage)
    as (f1 & -> & Hs1 & Hr1).
  { unfold withOut. change (bool_decide (is_Some (File.out af))) with false. cbv iota.
    destruct (isPublishableFamily acting && noHiddenSegment _); [|by eexists].
    destruct (computeOut_Ok cwd (File.src af) acting style) as [out ->];
      [by eexists..|by left|].
    by eexists. }
  destruct (withPub_total style acting f1) as [f2 Hf2]. rewrite Hf2.
  apply withPub_Ok in Hf2 as (Hs2 & Hr2 & _).
  exists f2. split; [done|]. by rewrite Hs2, Hr2.
Qed.

(** C3, as amended: in a catalog that has the page [intro.adoc] of the
    module [ROOT] of [docs 2.0], the version 2.0 of [docs], and neither a
    page nor an alias [old-intro] of that module, registering the alias
    [2.0@docs::old-intro] for the page adds a file that [getById] returns
    for the id of the alias and whose [rel] is the page; registering it a
    second time throws the duplicate file error of [addFile]. *)
Theorem alias_resolution (page : loc) (pf : File.t) (c : Component.t) (st : State)
    (Hpage : heap st !! page = Some pf)
    (Hid : generateId (File.src pf) = generateId introPageId)
    (Hin : ContentCatalog.files (catalog st) !! generateId introPageId = Some page)
    (Hcomp : ContentCatalog.components (catalog st) !! "docs" = Some c)
    (Hver : "2.0" ∈ VersionEntry.version <$> Component.versions c)
    (Hfree_page : ContentCatalog.files (catalog st) !! generateId oldIntroPageId = None)
    (Hfree_alias : ContentCatalog.files (catalog st) !! generateId oldIntroAliasId = None) :
  ∃ alias st1 af,
    registerPageAlias cwd "2.0@docs::old-intro" page st = (Ok (Some alias), st1) ∧
    getById oldIntroAliasId st1 = (Ok (Some alias), st1) ∧
    heap st1 !! alias = Some af ∧
    File.rel af = Some page ∧
    Src.family (File.src af) = Some "alias" ∧
    heap st1 !! page = Some pf ∧
    ∃ st2, registerPageAlias cwd "2.0@docs::old-intro" page st1 =
           (Throw (DuplicateFile "Duplicate alias: 2.0@docs:ROOT:old-intro.adoc"), st2).
Proof.
  assert (∀ ctx, PageId.parsePageId "2.0@docs::old-intro" ctx = Some oldIntroPageId)
    as Hparse by done.
  assert (page < length (heap st))%nat as Hlt by (by eapply lookup_lt_Some).
  destruct (addFile_alias page pf st Hpage Hfree_alias) as (f2 & Hadd & Hs2 & Hr2).
  remember (length (heap st)) as alias eqn:Halias.
  set (st1 := withFile (generateId oldIntroAliasSrc) alias
                (withHeap (<[alias := f2]> (heap st ++ [aliasFile pf page oldIntroAliasSrc]))
                   st)) in *.
  assert (heap st1 !! page = Some pf) as Hpage1.
  { simpl. rewrite list_lookup_insert_ne by lia.
    by rewrite lookup_app_l by (rewrite <-Halias; lia). }
  exists alias, st1, f2. split; [|split; [|split; [|split; [|split; [|split]]]]].
  - rewrite (registerPageAlias_add _ _ pf st oldIntroPageId c oldIntroAliasSrc);
      [by rewrite <-Halias, Hadd|done|done|done|by exists "2.0"|done|done].
  - unfold getById, bind, getCatalog, gets, ret. simpl.
    by rewrite lookup_insert_eq.
  - simpl. apply list_lookup_insert_eq. rewrite length_app. simpl. lia.
  - done.
  - by rewrite Hs2.
  - done.
  - eexists.
    rewrite (registerPageAlias_add _ _ pf st1 oldIntroPageId c oldIntroAliasSrc);
      [|done|done|done|by exists "2.0"| |done].
    + set (af' := aliasFile pf page oldIntroAliasSrc).
      assert (heap (withHeap (heap st1 ++ [af']) st1) !! length (heap st1) = Some af')
        as Hl by (by apply list_lookup_middle).
      rewrite (addFile_run cwd _ _ _ Hl). cbv zeta.
      rewrite bool_decide_eq_true_2; [done|].
      simpl. rewrite lookup_insert_eq. by eexists.
    + simpl. by rewrite lookup_insert_ne.
Qed.

End AliasResolution.

Lemma alias_resolution_witness :
  ∃ st1 af,
    registerPageAlias "/work" "2.0@docs::old-intro" 0%nat docsState = (Ok (Some 1%nat), st1) ∧
    getById oldIntroAliasId st1 = (Ok (Some 1%nat), st1) ∧
    heap st1 !! 1%nat = Some af ∧
    File.rel af = Some 0%nat.
Proof.
  pose (pf := default introFile (heap docsState !! 0%nat)).
  pose (c := default (Component.mk "" None "" [])
               (ContentCatalog.components (catalog docsState) !! "docs")).
  assert (heap docsState !! 0%nat = Some pf) as Hpage by (vm_compute; reflexivity).
  assert (generateId (File.src pf) = generateId introPageId) as Hid
    by (vm_compute; reflexivity).
  assert (ContentCatalog.files (catalog docsState) !! generateId introPageId = Some 0%nat)
    as Hin by (vm_compute; reflexivity).
  assert (ContentCatalog.components (catalog docsState) !! "docs" = Some c) as Hcomp
    by (vm_compute; reflexivity).
  assert ("2.0" ∈ VersionEntry.version <$> Component.versions c) as Hver
    by (vm_compute; left).
  assert (ContentCatalog.files (catalog docsState) !! generateId oldIntroPageId = None)
    as Hfree_page by (vm_compute; reflexivity).
  assert (ContentCatalog.files (catalog docsState) !! generateId oldIntroAliasId = None)
    as Hfree_alias by (vm_compute; reflexivity).
  destruct (alias_resolution "/work" 0%nat pf c docsState Hpage Hid Hin Hcomp Hver
              Hfree_page Hfree_alias)
    as (alias & st1 & af & Hreg & Hget & Haf & Hrel & _).
  assert (alias = 1%nat) as Halias.
  { pose proof Hreg as Hreg'. vm_compute in Hreg'. injection Hreg' as <- _. reflexivity. }
  rewrite Halias in Hreg, Hget, Haf.
  exists st1, af. split; [exact Hreg|]. split; [exact Hget|]. split; [exact Haf|exact Hrel].
Defined.

(** C3 as stated fails: the second registration of the alias throws the
    duplicate file error of [addFile], not an alias conflict. *)
Lemma alias_resolution_counterexample :
  (registerPageAlias "/work" "2.0@docs::old-intro" 0%nat docsState).1 = Ok (Some 1%nat) ∧
  ∃ e, (registerPageAlias "/work" "2.0@docs::old-intro" 0%nat
          (registerPageAlias "/work" "2.0@docs::old-intro" 0%nat docsState).2).1 = Throw e ∧
       e = DuplicateFile "Duplicate alias: 2.0@docs:ROOT:old-intro.adoc" ∧
       ∀ message, e ≠ AliasConflict message.
Proof.
  split; [by vm_compute|]. eexists. split; [by vm_compute|]. by split.
Qed.

(** ** [composePage]: the layout of a page *)

Section ComposePage.
Variable START_PAGE_ID : Src.t.
Variable DEFAULT_LAYOUT_NAME : string.

Lemma readonly_buildPageUiModel file site : readonly (buildPageUiModel file site).
Proof. unfold buildPageUiModel. pose proof readonly_getComponent. readonly. Qed.

Lemma readonly_buildUiModel file site : readonly (buildUiModel file site).
Proof.
  unfold buildUiModel.
  apply readonly_bind; [apply readonly_buildPageUiModel|]. readonly.
Qed.

Lemma orElse_layout (attribute : JS.value) (fallback : string) :
  JS.str (JS.orElse attribute (Some fallback)) =
  match attribute with
  | Some "" | None => fallback
  | Some layout => layout
  end.
Proof. by destruct attribute as [[|a s]|]. Qed.

(** The layout of the page model is the layout that the page asks for. *)
Lemma buildPageUiModel_layout file site f st page :
  heap st !! file = Some f →
  (buildPageUiModel file site st).1 = Ok page →
  JS.str (PageUiModel.layout page) = requestedLayout site f.
Proof.
  intros Hfile. unfold buildPageUiModel, requestedLayout, isNotFoundPage, bind, deref.
  rewrite Hfile. simpl.
  destruct (negb _ && _) eqn:H404.
  - intros [= <-]. simpl.
    apply andb_true_iff in H404 as [_ Hstem]. apply bool_decide_eq_true in Hstem.
    by rewrite Hstem.
  - unfold lift, ret. destruct (File.pub f) as [pub|]; simpl; [|done].
    destruct (ContentCatalog.components (catalog st) !! _) as [component|]; simpl; [|done].
    intros [= <-]. simpl. by rewrite orElse_layout.
Qed.

Lemma buildUiModel_page file site f st uiModel :
  heap st !! file = Some f →
  (buildUiModel file site st).1 = Ok uiModel →
  JS.str (PageUiModel.layout (UiModel.page uiModel)) = requestedLayout site f ∧
  UiModel.site uiModel = site.
Proof.
  intros Hfile. unfold buildUiModel, bind at 1.
  rewrite (readonly_run (buildPageUiModel file site) st) by apply readonly_buildPageUiModel.
  destruct (buildPageUiModel file site st).1 as [page|e] eqn:Hpage; [|done].
  unfold bind, deref, lift, ret. rewrite Hfile. simpl.
  destruct (File.pub f) as [pub|]; simpl; [|done].
  destruct (Path.joinValues _) as [uiRootPath|]; simpl; [|done].
  intros [= <-]. simpl. split; [|done].
  by eapply buildPageUiModel_layout.
Qed.

(** C7, as amended: the layout that a page asks for is [404] for the page
    without a component whose stem is [404], and otherwise the attribute
    [page-layout] when it is set to a string that is not empty, else the
    default of the site.  That layout is applied when it has a template.
    When it has none, the composer throws at once if it is [404], throws if
    it is the default or if the default has no template either, and applies
    the default layout otherwise. *)
Theorem composePage_layout (site : SiteUiModel.t)
    (layouts : gmap string (UiModel.t → string)) (file : loc) (f : File.t)
    (uiModel : UiModel.t) (st : State)
    (Hfile : heap st !! file = Some f)
    (Hmodel : (buildUiModel file site st).1 = Ok uiModel) :
  let requested := requestedLayout site f in
  let defaultLayout := SiteUiModel.ui_defaultLayout site in
  JS.str (PageUiModel.layout (UiModel.page uiModel)) = requested ∧
  (isNotFoundPage f = true → requested = "404") ∧
  (isNotFoundPage f = false →
   ∀ layout, attributesOf f !! "page-layout" = Some layout → layout ≠ "" →
             requested = layout) ∧
  (isNotFoundPage f = false →
   attributesOf f !! "page-layout" = None ∨ attributesOf f !! "page-layout" = Some "" →
   requested = defaultLayout) ∧
  composePage site layouts file st =
  match layouts !! requested with
  | Some template => (Ok file, withContents file (template uiModel) st)
  | None =>
      if bool_decide (requested = "404") then
        (Throw (LayoutNotFound "404 layout not found"), st)
      else if bool_decide (defaultLayout = requested) then
        (Throw (LayoutNotFound (requested +:+ " layout not found")), st)
      else match layouts !! defaultLayout with
           | Some template => (Ok file, withContents file (template uiModel) st)
           | None =>
               (Throw (LayoutNotFound ("Neither " +:+ requested +:+ " layout or fallback "
                                       +:+ defaultLayout +:+ " layout found")), st)
           end
  end.
Proof.
  intros requested defaultLayout.
  destruct (buildUiModel_page _ _ _ _ _ Hfile Hmodel) as [Hlayout Hsite].
  split; [done|]. split; [|split; [|split]].
  - unfold requested, requestedLayout. by intros ->.
  - unfold requested, requestedLayout. intros -> layout -> Hne. by destruct layout.
  - unfold requested, requestedLayout. by intros -> [->| ->].
  - unfold composePage, bind at 1.
    rewrite (readonly_run (buildUiModel file site) st) by apply readonly_buildUiModel.
    rewrite Hmodel, Hlayout, Hsite. fold requested defaultLayout.
    destruct (layouts !! requested) as [template|] eqn:Hrequested.
    + rewrite bool_decide_eq_true_2 by done. simpl.
      unfold bind, ret, lift. by rewrite Hrequested.
    + rewrite bool_decide_eq_false_2 by (by intros [? ?]). simpl.
      case_bool_decide; [done|]. case_bool_decide; [done|].
      destruct (layouts !! defaultLayout) as [template|] eqn:Hdefault.
      * rewrite bool_decide_eq_true_2 by done. simpl.
        unfold bind, ret, lift. by rewrite Hdefault.
      * by rewrite bool_decide_eq_false_2 by (by intros [? ?]).
Qed.

End ComposePage.

Lemma composePage_layout_witness :
  ∃ uiModel,
    composePage sampleSite sampleLayouts 0%nat docsState =
    (Ok 0%nat,
     withContents 0%nat ("<main>" +:+ default "" (PageUiModel.contents (UiModel.page uiModel))
                           +:+ "</main>") docsState).
Proof.
  assert (∃ f, heap docsState !! 0%nat = Some f) as [f Hfile] by (eexists; by vm_compute).
  assert (∃ uiModel, (buildUiModel 0%nat sampleSite docsState).1 = Ok uiModel)
    as [uiModel Hmodel] by (eexists; by vm_compute).
  exists uiModel.
  destruct (composePage_layout sampleSite sampleLayouts 0%nat f uiModel docsState Hfile Hmodel)
    as (_ & _ & _ & _ & ->).
  injection Hfile as <-. by vm_compute.
Defined.

(** C7 as stated fails for the page that reports a missing page: it has no
    attribute [page-layout], the default layout of the site is [default] and
    has a template, and yet the page is composed with the layout [404]. *)
Lemma composePage_layout_counterexample :
  attributesOf notFoundFile !! "page-layout" = None ∧
  SiteUiModel.ui_defaultLayout sampleSite = "default" ∧
  is_Some (sampleLayouts !! "default") ∧
  ∃ uiModel,
    (buildUiModel 0%nat sampleSite (oneFileState notFoundFile)).1 = Ok uiModel ∧
    PageUiModel.layout (UiModel.page uiModel) = Some "404" ∧
    composePage sampleSite sampleLayouts 0%nat (oneFileState notFoundFile) =
    (Ok 0%nat, withContents 0%nat "<h1>Page Not Found</h1>" (oneFileState notFoundFile)).
Proof.
  split; [done|]. split; [done|]. split; [by eexists|].
  eexists. split; [by vm_compute|]. split; [done|]. by vm_compute.
Qed.

(** ** [NavigationCatalog]: the order of a menu *)

Section NavigationMenus.

Lemma findIndexFrom_pure {A} (f : A → bool) (l : list A) (i : Z) :
  ∃ k, findIndexFrom (λ x, Ok (f x)) l i = Ok k ∧
       ((k = -1 ∧ Forall (λ x, f x = false) l) ∨
        (∃ n x, k = i + Z.of_nat n ∧ l !! n = Some x ∧ f x = true ∧
                Forall (λ y, f y = false) (take n l))).
Proof.
  revert i. induction l as [|x l IH]; intros i; simpl.
  - exists (-1). split; [done|]. by left.
  - destruct (f x) eqn:Hx.
    + exists i. split; [done|]. right. exists 0%nat, x. repeat split; [lia|done|done].
    + destruct (IH (i + 1)) as (k & -> & [[-> Hall]|(n & y & -> & Hn & Hy & Hall)]).
      * exists (-1). split; [done|]. left. split; [done|]. by constructor.
      * exists (i + 1 + Z.of_nat n). split; [done|]. right. exists (S n), y.
        repeat split; [lia|done|done|]. simpl. by constructor.
Qed.

(** Where [addTree] puts a tree: after the trees of a smaller order, in
    front of the first tree whose order is not smaller. *)
Lemma addTree_menu component version tree menus :
  ∃ before after,
    default [] (NavigationCatalog.getMenu component version menus) = before ++ after ∧
    NavigationCatalog.addTree component version tree menus =
    <[NavigationCatalog.generateId component version := before ++ tree :: after]> menus ∧
    Forall (λ t, (NavTree.order t < NavTree.order tree)%Q) before ∧
    match after with
    | [] => True
    | next :: _ => (NavTree.order tree <= NavTree.order next)%Q
    end.
Proof.
  unfold NavigationCatalog.addTree, NavigationCatalog.getMenu, findIndex.
  set (menu := default [] (menus !! _)).
  set (f := λ candidate, Qle_bool (NavTree.order tree) (NavTree.order candidate)).
  assert (∀ l, Forall (λ x, f x = false) l →
               Forall (λ t, (NavTree.order t < NavTree.order tree)%Q) l) as Hlt.
  { intros l Hl. eapply Forall_impl; [done|]. intros t Ht. unfold f in Ht.
    apply Qnot_le_lt. intros Hle. apply Qle_bool_iff in Hle. congruence. }
  change (findIndexFrom _ menu 0) with (findIndexFrom (λ x, Ok (f x)) menu 0).
  destruct (findIndexFrom_pure f menu 0) as (k & -> & [[-> Hall]|(n & x & -> & Hn & Hx & Hall)]).
  - exists menu, []. rewrite app_nil_r.
    split; [done|]. split; [done|]. split; [by apply Hlt|done].
  - exists (take n menu), (drop n menu). rewrite take_drop.
    rewrite (proj2 (Z.eqb_neq (0 + Z.of_nat n) (-1))) by lia.
    unfold splice. replace (Z.to_nat (0 + Z.of_nat n)) with n by lia.
    split; [done|]. split; [done|]. split; [by apply Hlt|].
    rewrite (drop_S _ _ _ Hn). by apply Qle_bool_iff.
Qed.




(** [addTree] adds the tree to the menu of its component version, after the
    trees of a smaller order and in front of the trees of the same or of a
    greater order, and leaves the other menus as they are. *)
Theorem addTree_position (component version : JS.value) (tree : NavTree.t)
    (menus : NavigationCatalog.t) :
  let menus' := NavigationCatalog.addTree component version tree menus in
  (∃ before after,
     default [] (NavigationCatalog.getMenu component version menus) = before ++ after ∧
     NavigationCatalog.getMenu component version menus' = Some (before ++ tree :: after) ∧
     Forall (λ t, (NavTree.order t < NavTree.order tree)%Q) before ∧
     (map_Forall (λ _ menu, menuOrdered menu) menus →
      Forall (λ t, (NavTree.order tree <= NavTree.order t)%Q) after)) ∧
  (∀ id, id ≠ NavigationCatalog.generateId component version → menus' !! id = menus !! id).
Proof.
  intros menus'. unfold menus'.
  destruct (addTree_menu component version tree menus)
    as (before & after & Hmenu & -> & Hbefore & Hafter).
  split.
  - exists before, after. split; [done|]. split.
    { unfold NavigationCatalog.getMenu. by rewrite lookup_insert_eq. }
    split; [done|]. intros Hordered.
    destruct after as [|next after]; [done|].
    assert (menuOrdered (before ++ next :: after)) as Hsorted.
    { rewrite <-Hmenu. unfold NavigationCatalog.getMenu.
      destruct (menus !! _) as [menu|] eqn:Hlookup; simpl; [by eapply Hordered|constructor]. }
    apply StronglySorted_app_1_r, StronglySorted_inv in Hsorted as [_ Hnext].
    constructor; [done|]. eapply Forall_impl; [done|].
    intros t Ht. simpl in Ht. by eapply Qle_trans.
  - intros id Hid. by rewrite lookup_insert_ne.
Qed.

End NavigationMenus.

(** ** [findBreadcrumbPath] and [getBreadcrumbs] *)

Section Breadcrumbs.

(** Induction on the entries of a tree. *)
Lemma NavItem_induction (P : NavItem.t → Prop) :
  (∀ item, match NavItem.items item with
           | Some items => Forall P items
           | None => True
           end → P item) →
  ∀ item, P item.
Proof.
  intros Hitem. fix IH 1. intros [content url urlType hash items discrete].
  apply Hitem. simpl. destruct items as [items|]; [|exact I].
  induction items as [|item items IHitems]; constructor; [apply IH|apply IHitems].
Qed.

Lemma findFirst_Some {A B} (f : A → Result (option B)) items found :
  findFirst f items = Ok (Some found) →
  ∃ before item after,
    items = before ++ item :: after ∧ Forall (λ x, f x = Ok None) before ∧
    f item = Ok (Some found).
Proof.
  induction items as [|x items IH]; simpl; [done|].
  destruct (f x) as [[y|]|e] eqn:Hx; simpl; [| |done].
  - intros [= ->]. by exists [], x, items.
  - intros H. apply IH in H as (before & item & after & -> & Hbefore & Hitem).
    exists (x :: before), item, after. split; [done|]. split; [by constructor|done].
Qed.

Lemma findFirst_None {A B} (f : A → Result (option B)) items :
  findFirst f items = Ok None ↔ Forall (λ x, f x = Ok None) items.
Proof.
  induction items as [|x items IH]; simpl; [done|]. rewrite Forall_cons, <-IH.
  destruct (f x) as [[y|]|e]; simpl; naive_solver.
Qed.

Lemma entriesOf_descends item target :
  target ∈ entriesOf item ↔ ∃ ancestors, descends item ancestors target.
Proof.
  revert target. induction item as [item IH] using NavItem_induction. intros target.
  destruct item as [content url urlType hash items discrete]. simpl in *.
  rewrite elem_of_cons. split.
  - intros [->|Hin]; [eexists; constructor|].
    destruct items as [items|]; [|by apply elem_of_nil in Hin].
    apply list_elem_of_In, in_flat_map in Hin as (child & Hchild & Hin).
    apply list_elem_of_In in Hchild, Hin.
    rewrite Forall_forall in IH. apply IH in Hin as [ancestors Hd]; [|done].
    eexists. by eapply descends_below.
  - intros [ancestors Hd]. inversion Hd as [|? ? child ? ? Hitems Hchild Hd']; subst; [by left|].
    right. simpl in Hitems. subst items.
    apply list_elem_of_In, in_flat_map. exists child. split; [by apply list_elem_of_In|].
    apply list_elem_of_In. rewrite Forall_forall in IH. apply IH; [done|]. by eexists.
Qed.

Lemma findBreadcrumbPath_unfold matchUrl item currentPath :
  findBreadcrumbPath matchUrl item currentPath =
  (found <-? (if JS.isStr (NavItem.urlType item) "internal" then
                currentItemUrl <-? itemUrl item ;;
                Ok (JS.strictEq currentItemUrl (Some matchUrl))
              else Ok false) ;;
   if found : bool then Ok (Some (currentPath ++ [item]))
   else
     match NavItem.items item with
     | Some items =>
         findFirst
           (λ child,
              findBreadcrumbPath matchUrl child
                (if JS.truthy (NavItem.content item)
                 then currentPath ++ [item] else currentPath))
           items
     | None => Ok None
     end).
Proof. by destruct item. Qed.

(** What [findBreadcrumbPath] returns for an entry: the path from the entry
    down to an entry of the page, without the entries that have no
    content. *)
Lemma findBreadcrumbPath_found matchUrl item :
  ∀ currentPath path,
    findBreadcrumbPath matchUrl item currentPath = Ok (Some path) →
    ∃ ancestors target,
      descends item ancestors target ∧ isEntryOf matchUrl target ∧
      path = currentPath ++ filter (λ a, JS.truthy (NavItem.content a) = true) ancestors
               ++ [target].
Proof.
  induction item as [item IH] using NavItem_induction. intros currentPath path.
  rewrite findBreadcrumbPath_unfold.
  assert (match NavItem.items item with
          | Some items =>
              findFirst
                (λ child,
                   findBreadcrumbPath matchUrl child
                     (if JS.truthy (NavItem.content item)
                      then currentPath ++ [item] else currentPath))
                items
          | None => Ok None
          end = Ok (Some path) →
          ∃ ancestors target,
            descends item ancestors target ∧ isEntryOf matchUrl target ∧
            path = currentPath ++
                   filter (λ a, JS.truthy (NavItem.content a) = true) ancestors ++ [target])
    as Hbelow.
  { destruct (NavItem.items item) as [items|] eqn:Hitems; [|done].
    intros (before & child & after & -> & _ & Hchild)%findFirst_Some.
    apply Forall_app in IH as [_ [IHchild _]%Forall_cons].
    apply IHchild in Hchild as (ancestors & target & Hd & Htarget & ->).
    exists (item :: ancestors), target. split.
    { eapply descends_below; [done| |done]. apply elem_of_app. right. by left. }
    split; [done|]. rewrite filter_cons.
    destruct (JS.truthy (NavItem.content item)).
    - rewrite decide_True by done. by rewrite <-!app_assoc.
    - by rewrite decide_False by done. }
  destruct (JS.isStr (NavItem.urlType item) "internal") eqn:Hinternal; simpl; [|done].
  destruct (itemUrl item) as [currentItemUrl|e] eqn:Hurl; simpl; [|done].
  destruct (JS.strictEq currentItemUrl (Some matchUrl)) eqn:Hmatch; [|done].
  intros [= <-]. exists [], item. split; [constructor|]. split; [|done].
  apply bool_decide_eq_true in Hinternal, Hmatch. by subst.
Qed.

(** When [findBreadcrumbPath] returns [undefined], no entry of the tree is
    an entry of the page. *)
Lemma findBreadcrumbPath_none matchUrl item :
  ∀ currentPath,
    findBreadcrumbPath matchUrl item currentPath = Ok None →
    Forall (λ entry, ¬ isEntryOf matchUrl entry) (entriesOf item).
Proof.
  induction item as [item IH] using NavItem_induction. intros currentPath.
  rewrite findBreadcrumbPath_unfold.
  assert (¬ isEntryOf matchUrl item →
          match NavItem.items item with
          | Some items =>
              findFirst
                (λ child,
                   findBreadcrumbPath matchUrl child
                     (if JS.truthy (NavItem.content item)
                      then currentPath ++ [item] else currentPath))
                items
          | None => Ok None
          end = Ok None →
          Forall (λ entry, ¬ isEntryOf matchUrl entry) (entriesOf item)) as Hbelow.
  { intros Hitem Hnone.
    assert (entriesOf item =
            item :: match NavItem.items item with
                    | Some items => flat_map entriesOf items
                    | None => []
                    end) as -> by (by destruct item).
    constructor; [done|].
    destruct (NavItem.items item) as [items|]; [|constructor].
    apply findFirst_None in Hnone.
    induction items as [|child items IHitems]; simpl; [constructor|].
    apply Forall_cons in IH as [IHchild IH]. apply Forall_cons in Hnone as [Hchild Hnone].
    apply Forall_app. split; [by eapply IHchild|by apply IHitems]. }
  unfold isEntryOf in Hbelow.
  destruct (JS.isStr (NavItem.urlType item) "internal") eqn:Hinternal; simpl.
  - destruct (itemUrl item) as [currentItemUrl|e] eqn:Hurl; simpl; [|done].
    destruct (JS.strictEq currentItemUrl (Some matchUrl)) eqn:Hmatch; [done|].
    apply Hbelow. intros [_ [= ->]]. by apply bool_decide_eq_false in Hmatch.
  - apply Hbelow. intros [Htype _]. apply bool_decide_eq_false in Hinternal. done.
Qed.

(** The breadcrumbs of a page end with the page: when [getBreadcrumbs]
    returns, it returns either the path to an entry of the page in the first
    tree of the menu that has one, from the root of the tree and without the
    entries that have no content, or, when no tree has an entry of the page,
    the entry made from the title of the page, and no breadcrumbs when the
    page has no title. *)
Theorem getBreadcrumbs_ends_with_page (pageUrl : string) (pageTitle : JS.value)
    (menu : list NavTree.t) (breadcrumbs : list NavItem.t)
    (Hreturns : getBreadcrumbs pageUrl pageTitle menu = Ok breadcrumbs) :
  (∃ before tree after ancestors target,
     menu = before ++ tree :: after ∧
     Forall (λ t, Forall (λ entry, ¬ isEntryOf pageUrl entry) (entriesOf (NavTree.root t)))
       before ∧
     descends (NavTree.root tree) ancestors target ∧
     isEntryOf pageUrl target ∧
     breadcrumbs =
       filter (λ a, JS.truthy (NavItem.content a) = true) ancestors ++ [target]) ∨
  (Forall (λ t, Forall (λ entry, ¬ isEntryOf pageUrl entry) (entriesOf (NavTree.root t))) menu ∧
   breadcrumbs = if JS.truthy pageTitle then [discreteEntry pageUrl pageTitle] else []).
Proof.
  unfold getBreadcrumbs in Hreturns.
  destruct (findFirst _ menu) as [[found|]|e] eqn:Hfind; simpl in Hreturns; [| |done].
  - injection Hreturns as ->. left.
    apply findFirst_Some in Hfind as (before & tree & after & -> & Hbefore & Htree).
    apply findBreadcrumbPath_found in Htree as (ancestors & target & Hd & Htarget & ->).
    exists before, tree, after, ancestors, target.
    split; [done|]. split; [|done].
    eapply Forall_impl; [done|]. intros t Ht. simpl in Ht.
    by eapply findBreadcrumbPath_none.
  - injection Hreturns as <-. right. split; [|done].
    apply findFirst_None in Hfind. eapply Forall_impl; [done|].
    intros t Ht. simpl in Ht. by eapply findBreadcrumbPath_none.
Qed.

End Breadcrumbs.

Lemma getBreadcrumbs_ends_with_page_witness :
  ∃ category page,
    getBreadcrumbs "/docs/2.0/setup.html" (Some "Setup") sampleMenu = Ok [category; page] ∧
    NavItem.content category = Some "Guide" ∧
    isEntryOf "/docs/2.0/setup.html" page.
Proof.
  assert (∃ breadcrumbs,
            getBreadcrumbs "/docs/2.0/setup.html" (Some "Setup") sampleMenu = Ok breadcrumbs)
    as [breadcrumbs Hreturns] by (eexists; reflexivity).
  destruct (getBreadcrumbs_ends_with_page _ _ _ _ Hreturns)
    as [(before & tree & after & ancestors & target & _ & _ & _ & Htarget & Hcrumbs)|[_ Hcrumbs]].
  - assert (target = NavItem.mk (Some "Setup") (Some "/docs/2.0/setup.html#start")
                       (Some "internal") (Some "#start") (Some []) false) as Heq.
    { vm_compute in Hreturns. injection Hreturns as <-.
      apply (f_equal last) in Hcrumbs. rewrite last_snoc in Hcrumbs.
      by injection Hcrumbs as <-. }
    eexists _, target. split; [rewrite Heq; reflexivity|]. split; [done|done].
  - exfalso. vm_compute in Hreturns. injection Hreturns as <-. discriminate Hcrumbs.
Defined.

(** ** [parsePageId]: the page ids that it returns and the specs that it
    rejects *)

Section PageIdShape.

Lemma pageOfTail_prefix s : ∃ u, s = pageOfTail s +:+ u ∧ (u = "" ∨ u = ".adoc").
Proof.
  induction s as [|a s IH]; [by exists ""; split; [|left]|].
  cbn [pageOfTail]. case_bool_decide as Hs.
  - exists ".adoc". by split; [|right].
  - destruct IH as (u & Hu & Hor). exists u. split; [|done].
    rewrite append_cons. by rewrite <-Hu.
Qed.

Lemma pageOf_prefix s : ∃ u, s = pageOf s +:+ u ∧ (u = "" ∨ u = ".adoc").
Proof.
  destruct s as [|a s]; [by exists ""; split; [|left]|]. simpl.
  destruct (pageOfTail_prefix s) as (u & Hu & Hor). exists u. split; [|done].
  rewrite append_cons. by rewrite <-Hu.
Qed.

Lemma endsWithPage_append pre s r : endsWithPage s r → endsWithPage (pre +:+ s) r.
Proof.
  intros (before & t & -> & Ht). exists (pre +:+ before), t.
  by rewrite append_assoc.
Qed.

Lemma pageMatch_page s c r :
  pageMatch s c = Some r → endsWithPage s r ∧ countChar ":" s = 0%nat.
Proof.
  unfold pageMatch. destruct (bool_decide (s ≠ "")) eqn:Hs; [|done].
  destruct (bool_decide (countChar ":" s = 0%nat)) eqn:Hc; [|done]. simpl.
  apply bool_decide_eq_true in Hs, Hc. intros [= <-]. split; [|done].
  exists "", s. by rewrite lookup_insert_eq.
Qed.

Lemma moduleMatch_page_end s c r :
  moduleMatch s c = Some r → endsWithPage s r ∧ countChar ":" s = 1%nat.
Proof.
  unfold moduleMatch, orTry.
  destruct (capturedThen 3 ":" s c pageMatch) as [r'|] eqn:H3.
  - intros [= <-]. unfold capturedThen in H3.
    destruct (splitAt ":" s) as [[pre post]|] eqn:Hsplit; [|done].
    case_bool_decide; [done|].
    apply splitAt_Some in Hsplit as [-> Hpre].
    apply pageMatch_page in H3 as [Hend Hpost]. split.
    + apply endsWithPage_append.
      by apply (endsWithPage_append (String ":" "")) in Hend.
    + rewrite countChar_append. simpl. lia.
  - destruct s as [|a t]; [done|].
    destruct (Ascii.eqb a ":") eqn:E; [|done].
    intros [Hend Hc]%pageMatch_page. split.
    + by apply (endsWithPage_append (String a "")) in Hend.
    + simpl. rewrite E. lia.
Qed.

Lemma qualifiersMatch_page_end s c r :
  qualifiersMatch s c = Some r → endsWithPage s r ∧ (countChar ":" s ≤ 2)%nat.
Proof.
  unfold qualifiersMatch, orTry.
  destruct (capturedThen 2 ":" s c moduleMatch) as [r'|] eqn:H2.
  - intros [= <-]. unfold capturedThen in H2.
    destruct (splitAt ":" s) as [[pre post]|] eqn:Hsplit; [|done].
    case_bool_decide; [done|].
    apply splitAt_Some in Hsplit as [-> Hpre].
    apply moduleMatch_page_end in H2 as [Hend Hpost]. split.
    + apply endsWithPage_append.
      by apply (endsWithPage_append (String ":" "")) in Hend.
    + rewrite countChar_append. simpl. lia.
  - destruct (moduleMatch s c) as [r'|] eqn:Hm.
    + intros [= <-]. apply moduleMatch_page_end in Hm as [? ?]. split; [done|lia].
    + intros [? ?]%pageMatch_page. split; [done|lia].
Qed.

Lemma matchDirect_page_end s r :
  matchDirect s = Some r →
  endsWithPage s r ∧ (countChar "@" s = 0%nat → (countChar ":" s ≤ 2)%nat).
Proof.
  unfold matchDirect, orTry.
  destruct (capturedThen 1 "@" s ∅ qualifiersMatch) as [r'|] eqn:H1.
  - intros [= <-]. apply capturedThen_Some in H1 as (pre & post & -> & Hq).
    apply qualifiersMatch_page_end in Hq as [Hend _]. split.
    + apply endsWithPage_append.
      by apply (endsWithPage_append (String "@" "")) in Hend.
    + rewrite countChar_append. simpl. lia.
  - intros [? ?]%qualifiersMatch_page_end. done.
Qed.

Lemma countChar_suffix x s t : countChar x (s +:+ t) = 0%nat → countChar x s = 0%nat.
Proof. rewrite countChar_append. lia. Qed.

(** The page id that [parsePageId] returns is the id of a page: its family
    is [page], and its relative path is a path with the extension [.adoc],
    made from a non-empty end of the spec that has no colon and whose own
    extension [.adoc], if it has one, is not doubled. *)
Theorem parsePageId_page (spec : string) (ctx id : Src.t)
    (Hparsed : PageId.parsePageId spec ctx = Some id) :
  Src.family id = Some "page" ∧
  ∃ before page,
    page ≠ "" ∧ countChar ":" page = 0%nat ∧
    Src.relative id = Some (page +:+ ".adoc") ∧
    (spec = before +:+ page ∨ spec = before +:+ page +:+ ".adoc").
Proof.
  unfold PageId.parsePageId in Hparsed. rewrite match_PAGE_ID_RX in Hparsed.
  destruct (matchDirect spec) as [m|] eqn:Hm; [|done].
  apply matchDirect_page_end in Hm as [(before & t & -> & Ht & Hcolon & Hpage) _].
  unfold PageId.PAGE_ID_RXG.page in Hparsed. rewrite Hpage in Hparsed.
  destruct (pageOf_prefix t) as (u & Hu & Hor).
  assert (Src.family id = Some "page" ∧ Src.relative id = Some (pageOf t +:+ ".adoc"))
    as [Hfamily Hrelative].
  { destruct (JS.truthy (m !! PageId.PAGE_ID_RXG.component));
      by injection Hparsed as <-. }
  split; [done|]. exists before, (pageOf t). split.
  { destruct t; [done|]. done. }
  split.
  { rewrite Hu in Hcolon. by apply countChar_suffix in Hcolon. }
  split; [done|]. destruct Hor as [->| ->].
  - left. rewrite append_nil_r in Hu. by rewrite <-Hu.
  - right. by rewrite <-Hu.
Qed.

(** [parsePageId] returns [undefined] for the empty spec, for a spec that
    ends with a colon, and for a spec without [@] that has more than two
    colons. *)
Theorem parsePageId_malformed (spec : string) (ctx : Src.t)
    (Hspec : spec = "" ∨ lastChar spec = Some ":"%char ∨
             (countChar "@" spec = 0%nat ∧ (3 ≤ countChar ":" spec)%nat)) :
  PageId.parsePageId spec ctx = None.
Proof.
  unfold PageId.parsePageId. rewrite match_PAGE_ID_RX.
  destruct (matchDirect spec) as [m|] eqn:Hm; [|done]. exfalso.
  apply matchDirect_page_end in Hm as [(before & t & -> & Ht & Hcolon & _) Hcount].
  destruct Hspec as [Hempty|[Hlast|[Hat Hcolons]]].
  - destruct before; [|done]. done.
  - assert (∀ s, s ≠ "" → countChar ":" s = 0%nat → lastChar (before +:+ s) ≠ Some ":"%char)
      as Hno; [|by eapply Hno].
    clear. intros s Hs Hc. induction before as [|a before IH].
    + simpl. induction s as [|a s IHs]; [done|]. simpl in Hc.
      destruct (Ascii.eqb a ":") eqn:E; [done|]. apply Ascii.eqb_neq in E.
      destruct s as [|b s]; [simpl; congruence|]. by apply IHs.
    + rewrite append_cons. simpl.
      destruct (before +:+ s) eqn:Hb; [|done].
      destruct before; [|done]. simpl in Hb. by subst.
  - specialize (Hcount Hat). lia.
Qed.

End PageIdShape.

Lemma parsePageId_page_witness :
  ∃ id, PageId.parsePageId "2.0@docs:cli:topic/page.adoc" Src.empty = Some id ∧
        Src.family id = Some "page" ∧
        Src.relative id = Some "topic/page.adoc".
Proof.
  assert (∃ id, PageId.parsePageId "2.0@docs:cli:topic/page.adoc" Src.empty = Some id)
    as [id Hparsed] by (eexists; by vm_compute).
  exists id. split; [done|].
  destruct (parsePageId_page _ _ _ Hparsed) as [Hfamily _]. split; [done|].
  vm_compute in Hparsed. by injection Hparsed as <-.
Defined.

Lemma parsePageId_malformed_witness :
  PageId.parsePageId "" Src.empty = None ∧
  PageId.parsePageId "docs:cli:" Src.empty = None ∧
  PageId.parsePageId "a:b:c:d" Src.empty = None.
Proof.
  split; [|split]; apply parsePageId_malformed.
  - by left.
  - right. by left.
  - right. right. split; [reflexivity|simpl; lia].
Defined.

(** ** [parsePageId]: the extension is optional *)

Section PageIdExtension.

Lemma splitAt_append_r x s t :
  countChar x t = 0%nat →
  splitAt x (s +:+ t) =
  match splitAt x s with
  | Some (pre, post) => Some (pre, post +:+ t)
  | None => None
  end.
Proof.
  intros Ht. induction s as [|a s IH].
  - simpl. by apply splitAt_None.
  - rewrite append_cons. simpl. destruct (Ascii.eqb a x); [done|].
    rewrite IH. by destruct (splitAt x s) as [[pre post]|].
Qed.

Lemma lastChar_append pre x post :
  post ≠ "" → lastChar (pre +:+ String x post) = lastChar post.
Proof.
  intros Hpost. induction pre as [|a pre IH].
  - simpl. by destruct post.
  - rewrite append_cons. simpl. rewrite IH. by destruct pre.
Qed.

Lemma lastChar_append_nil pre x : lastChar (pre +:+ String x "") = Some x.
Proof.
  induction pre as [|a pre IH]; [done|]. rewrite append_cons. simpl. rewrite IH.
  by destruct pre.
Qed.

Lemma extensible_nonempty s : extensible s → s ≠ "".
Proof. intros [(a & Ha & _) _] ->. done. Qed.

Lemma extensible_after pre x post :
  x = ":"%char ∨ x = "@"%char →
  extensible (pre +:+ String x post) → extensible post.
Proof.
  intros Hx [(a & Ha & Hcolon & Hat) Hext].
  assert (post ≠ "") as Hpost.
  { intros ->. rewrite lastChar_append_nil in Ha. injection Ha as <-.
    by destruct Hx. }
  rewrite lastChar_append in Ha by done. split; [by exists a|].
  intros u ->. apply (Hext (pre +:+ String x u)).
  by rewrite append_assoc, append_cons.
Qed.

Lemma pageMatch_extension t c :
  extensible t → pageMatch (t +:+ ".adoc") c = pageMatch t c.
Proof.
  intros Ht. pose proof (extensible_nonempty _ Ht) as Hne. destruct Ht as [_ Hext].
  unfold pageMatch. rewrite countChar_append, Nat.add_0_r.
  rewrite pageOf_extension, (pageOf_no_extension t) by done.
  assert (t +:+ ".adoc" ≠ "") as Hne' by (by destruct t).
  by rewrite (bool_decide_eq_true_2 (t +:+ ".adoc" ≠ "")),
    (bool_decide_eq_true_2 (t ≠ "")) by done.
Qed.

Lemma capturedThen_extension n x s c k :
  x = ":"%char ∨ x = "@"%char →
  (∀ post c', extensible post → k (post +:+ ".adoc") c' = k post c') →
  extensible s →
  capturedThen n x (s +:+ ".adoc") c k = capturedThen n x s c k.
Proof.
  intros Hx Hk Hs. unfold capturedThen.
  rewrite splitAt_append_r by (by destruct Hx as [->| ->]).
  destruct (splitAt x s) as [[pre post]|] eqn:Hsplit; [|done].
  case_bool_decide; [done|]. apply Hk.
  apply splitAt_Some in Hsplit as [-> _]. by eapply extensible_after.
Qed.

Lemma moduleMatch_extension s c :
  extensible s → moduleMatch (s +:+ ".adoc") c = moduleMatch s c.
Proof.
  intros Hs. unfold moduleMatch.
  rewrite capturedThen_extension; [|by left|intros; by apply pageMatch_extension|done].
  f_equal. pose proof (extensible_nonempty _ Hs) as Hne.
  destruct s as [|a t]; [done|]. rewrite append_cons.
  destruct (Ascii.eqb a ":") eqn:E; [|done].
  apply pageMatch_extension. apply Ascii.eqb_eq in E as ->.
  apply (extensible_after "" ":"); [by left|done].
Qed.

Lemma qualifiersMatch_extension s c :
  extensible s → qualifiersMatch (s +:+ ".adoc") c = qualifiersMatch s c.
Proof.
  intros Hs. unfold qualifiersMatch.
  rewrite capturedThen_extension; [|by left|intros; by apply moduleMatch_extension|done].
  by rewrite moduleMatch_extension, pageMatch_extension.
Qed.

Lemma matchDirect_extension s :
  extensible s → matchDirect (s +:+ ".adoc") = matchDirect s.
Proof.
  intros Hs. unfold matchDirect.
  rewrite capturedThen_extension;
    [|by right|intros; by apply qualifiersMatch_extension|done].
  by rewrite qualifiersMatch_extension.
Qed.

Lemma endsWithExtension_append u : endsWithExtension (u +:+ ".adoc") = true.
Proof.
  induction u as [|a u IH]; [done|]. rewrite append_cons. simpl. rewrite IH.
  by rewrite orb_true_r.
Qed.

(** The extension [.adoc] of a spec is optional: a spec that does not end
    with a colon, with [@] or with [.adoc] gives the same page id with the
    extension added as without it. *)
Theorem parsePageId_extension (spec : string) (ctx : Src.t)
    (Hspec : extensible spec) :
  PageId.parsePageId (spec +:+ ".adoc") ctx = PageId.parsePageId spec ctx.
Proof.
  unfold PageId.parsePageId. by rewrite !match_PAGE_ID_RX, matchDirect_extension.
Qed.

End PageIdExtension.

Lemma parsePageId_extension_witness :
  PageId.parsePageId "2.0@docs::topic/page.adoc" Src.empty =
  PageId.parsePageId "2.0@docs::topic/page" Src.empty.
Proof.
  apply (parsePageId_extension "2.0@docs::topic/page" Src.empty).
  split; [exists "e"%char; by repeat split|].
  intros u Hu. pose proof (endsWithExtension_append u) as Hends.
  rewrite <-Hu in Hends. discriminate Hends.
Defined.

(** ** The ids of the files, and what [addFile] registers *)

Section CatalogFiles.
Variable cwd : string.

Lemma append_sep_inj x a b s t :
  countChar x a = 0%nat → countChar x b = 0%nat →
  a +:+ String x s = b +:+ String x t → a = b ∧ s = t.
Proof.
  intros Ha Hb Heq. apply (f_equal (splitAt x)) in Heq.
  rewrite !splitAt_append in Heq by done. by injection Heq as -> ->.
Qed.

(** Files whose coordinates keep apart have the same id only if they have
    the same coordinates. *)
Theorem generateId_inj (a b : Src.t)
    (Ha : coordinatesOk a) (Hb : coordinatesOk b)
    (Hid : generateId a = generateId b) :
  coordinates a = coordinates b.
Proof.
  destruct Ha as (Ha1 & Ha2 & Ha3 & Ha4), Hb as (Hb1 & Hb2 & Hb3 & Hb4).
  unfold generateId in Hid. injection Hid as Hid.
  repeat match type of Hid with
         | context [?s +:+ ?t +:+ ?u] =>
             change (s +:+ t +:+ u) with (s +:+ (t +:+ u)) in Hid
         end.
  change "/" with (String "/" "") in Hid. change "@" with (String "@" "") in Hid.
  change ":" with (String ":" "") in Hid.
  rewrite !append_cons, !append_nil_l in Hid.
  apply append_sep_inj in Hid as [Hfamily Hid]; [|done|done].
  apply append_sep_inj in Hid as [Hversion Hid]; [|done|done].
  apply append_sep_inj in Hid as [Hcomponent Hid]; [|done|done].
  apply append_sep_inj in Hid as [Hmodule Hrelative]; [|done|done].
  unfold coordinates. by rewrite Hfamily, Hversion, Hcomponent, Hmodule, Hrelative.
Qed.

(** [addFile] never replaces a file of the catalog.  For a file whose id is
    registered it throws and leaves the store and the catalog as they are.
    Otherwise, when it returns, it has registered the file under its id, so
    that [getById] finds it by its [src]; the [src] and the [rel] of the file
    are as before, every other id refers to the file it referred to, and
    every other file is as it was. *)
Theorem addFile_registers (file : loc) (f : File.t) (st : State)
    (Hfile : heap st !! file = Some f) :
  let id := generateId (File.src f) in
  match ContentCatalog.files (catalog st) !! id with
  | Some _ =>
      addFile cwd file st =
      (Throw (DuplicateFile
                ("Duplicate " +:+ JS.str (Src.family (File.src f)) +:+ ": " +:+
                 JS.substrFrom id (JS.indexOf id "/" + 1))), st)
  | None =>
      ∀ st', addFile cwd file st = (Ok tt, st') →
        ∃ added f',
          added = (if File.isVinyl f then file else length (heap st)) ∧
          getById (File.src f) st' = (Ok (Some added), st') ∧
          heap st' !! added = Some f' ∧
          File.src f' = File.src f ∧ File.rel f' = File.rel f ∧
          ContentCatalog.components (catalog st') = ContentCatalog.components (catalog st) ∧
          (∀ other, generateId other ≠ id →
                    getById other st' = (Ok (ContentCatalog.files (catalog st) !!
                                               generateId other), st')) ∧
          (∀ other, other ≠ added → heap st' !! other = heap st !! other)
  end.
Proof.
  intros id. rewrite (addFile_run _ _ _ _ Hfile). cbv zeta. fold id.
  destruct (ContentCatalog.files (catalog st) !! id) as [existing|] eqn:Hid.
  { by rewrite bool_decide_eq_true_2 by done. }
  rewrite bool_decide_eq_false_2 by (by intros [? ?]).
  intros st'.
  set (added := if File.isVinyl f then file else length (heap st)).
  set (st0 := if File.isVinyl f then st else withHeap (heap st ++ [File.setVinyl f]) st).
  set (f0 := if File.isVinyl f then f else File.setVinyl f).
  assert (heap st0 !! added = Some f0) as Hadded.
  { unfold st0, added, f0. destruct (File.isVinyl f); [done|]. simpl.
    by apply list_lookup_middle. }
  assert (File.src f0 = File.src f ∧ File.rel f0 = File.rel f) as [Hsrc0 Hrel0].
  { unfold f0. by destruct (File.isVinyl f). }
  assert (catalog st0 = catalog st) as Hcatalog.
  { unfold st0. by destruct (File.isVinyl f). }
  assert (∀ other, other ≠ added → heap st0 !! other = heap st !! other) as Hothers.
  { intros other Hother. unfold st0, added in *. destruct (File.isVinyl f); [done|]. simpl.
    destruct (decide (other < length (heap st))%nat) as [Hlt|Hge].
    - by rewrite lookup_app_l.
    - rewrite !lookup_ge_None_2; [done|lia|]. rewrite length_app. simpl. lia. }
  rewrite (assignOutAndPub_run _ _ _ _ Hadded). cbv zeta.
  destruct (actingFamilyOf (heap st0) f0) as [acting|]; [|done].
  destruct (withOut _ _ _ _) as [f1|e] eqn:H1; [|done].
  destruct (withPub _ _ _) as [f2|e] eqn:H2; [|done].
  apply withOut_Ok in H1 as (Hs1 & Hr1 & _).
  apply withPub_Ok in H2 as (Hs2 & Hr2 & _).
  intros [= <-]. exists added, f2. split; [done|]. split.
  { unfold getById, bind, getCatalog, gets, ret. simpl. fold id.
    by rewrite lookup_insert_eq. }
  split.
  { simpl. apply list_lookup_insert_eq. by eapply lookup_lt_Some. }
  split; [by rewrite Hs2, Hs1|]. split; [by rewrite Hr2, Hr1|].
  split; [simpl; by rewrite Hcatalog|]. split.
  - intros other Hother. unfold getById, bind, getCatalog, gets, ret. simpl.
    rewrite lookup_insert_ne by done. by rewrite Hcatalog.
  - intros other Hother. simpl. rewrite list_lookup_insert_ne by done. by apply Hothers.
Qed.

End CatalogFiles.

Lemma generateId_inj_witness :
  coordinates introSrc = coordinates (pageId (Some "docs") (Some "1.0") (Some "ROOT") "intro.adoc").
Proof.
  apply generateId_inj; [by repeat split|by repeat split|reflexivity].
Defined.

Lemma addFile_registers_witness :
  ∃ st' f',
    addFile "/work" 0%nat (oneFileState introFile) = (Ok tt, st') ∧
    getById introSrc st' = (Ok (Some 0%nat), st') ∧
    heap st' !! 0%nat = Some f' ∧ File.src f' = introSrc.
Proof.
  assert (heap (oneFileState introFile) !! 0%nat = Some introFile) as Hfile by reflexivity.
  pose proof (addFile_registers "/work" 0%nat introFile (oneFileState introFile) Hfile)
    as Hadd.
  cbv zeta in Hadd.
  assert (ContentCatalog.files (catalog (oneFileState introFile)) !!
            generateId (File.src introFile) = None) as Hfree by reflexivity.
  rewrite Hfree in Hadd.
  assert (∃ st', addFile "/work" 0%nat (oneFileState introFile) = (Ok tt, st'))
    as [st' Hst'] by (eexists; vm_compute; reflexivity).
  destruct (Hadd st' Hst') as (added & f' & -> & Hget & Hf' & Hsrc & _).
  by exists st', f'.
Defined.

(** ** [resolvePage] *)

Section ResolvePage.

Lemma parsePageId_bare p ctx :
  token p →
  PageId.parsePageId p ctx =
  Some (pageId (Src.component ctx) (Src.version ctx) (Src.module ctx)
          (pageOf p +:+ ".adoc")).
Proof.
  intros (Hp & Hpa & Hpc).
  unfold PageId.parsePageId. rewrite match_PAGE_ID_RX. unfold matchDirect.
  rewrite capturedThen_none by done. rewrite orTry_None_l.
  unfold qualifiersMatch. rewrite capturedThen_none by done.
  rewrite moduleMatch_page by done. rewrite !orTry_None_l.
  rewrite pageMatch_token by done.
  unfold PageId.PAGE_ID_RXG.version, PageId.PAGE_ID_RXG.component,
    PageId.PAGE_ID_RXG.module, PageId.PAGE_ID_RXG.page.
  rewrite lookup_insert_eq, !lookup_insert_ne, !lookup_empty by done. done.
Qed.

(** [resolvePage] only reads the catalog, and the specs for which it throws
    the error of the syntax are those that [parsePageId] rejects. *)
Theorem resolvePage_invalid (spec : string) (ctx : Src.t) (st : State) :
  (resolvePage spec ctx st).2 = st ∧
  ((resolvePage spec ctx st).1 = Throw (InvalidPageID "Invalid page ID syntax") ↔
   PageId.parsePageId spec ctx = None).
Proof.
  split; [apply readonly_resolvePage|].
  unfold resolvePage. destruct (PageId.parsePageId spec ctx) as [id|]; [|done].
  split; [|done]. intros Hthrow. exfalso.
  destruct (negb (JS.truthy (Src.version id))); [|done].
  unfold bind, getComponent, getCatalog, gets, lift, ret in Hthrow. simpl in Hthrow.
  destruct (ContentCatalog.components (catalog st) !! _) as [component|]; [|done].
  simpl in Hthrow. destruct (Component.latestVersion component); done.
Qed.

(** A spec with a version, a component, a module and a page resolves to the
    file that is registered as that page, whatever the context, and to
    [undefined] when no file is. *)
Theorem resolvePage_qualified (v c m p : string) (ctx : Src.t) (st : State)
    (Hv : token v) (Hc : token c) (Hm : token m) (Hp : token p) :
  resolvePage (v +:+ "@" +:+ c +:+ ":" +:+ m +:+ ":" +:+ p) ctx st =
  (Ok (ContentCatalog.files (catalog st) !!
         generateId (pageId (Some c) (Some v) (Some m) (pageOf p +:+ ".adoc"))), st).
Proof.
  unfold resolvePage. rewrite parsePageId_full by done.
  destruct Hv as [Hv _]. unfold pageId at 1. cbn [Src.version].
  by rewrite truthy_Some.
Qed.


End ResolvePage.

Lemma resolvePage_qualified_witness :
  resolvePage "2.0@docs:ROOT:intro" Src.empty docsState = (Ok (Some 0%nat), docsState).
Proof.
  assert (token "2.0" ∧ token "docs" ∧ token "ROOT" ∧ token "intro")
    as (Hv & Hc & Hm & Hp) by (by repeat split).
  pose proof (resolvePage_qualified "2.0" "docs" "ROOT" "intro" Src.empty docsState
                Hv Hc Hm Hp) as H.
  match type of H with
  | _ = ?r =>
      assert (r = (Ok (Some 0%nat), docsState)) as Hr by (vm_compute; reflexivity);
      rewrite Hr in H
  end.
  exact H.
Defined.


(** ** Splitting and joining *)

Section SplitJoin.

Lemma rev_app_append s t : String.rev_app s t = String.rev s +:+ t.
Proof.
  unfold String.rev. revert t. induction s as [|a s IH]; intros t; [done|].
  simpl. rewrite (IH (String a t)), (IH (String a "")).
  by rewrite append_assoc.
Qed.

Lemma rev_cons a s : String.rev (String a s) = String.rev s +:+ String a "".
Proof. unfold String.rev at 1. simpl. by rewrite rev_app_append. Qed.

Lemma splitGo_segment c cur t rest :
  countChar c t = 0%nat →
  JS.splitGo c cur (t +:+ String c rest) = (String.rev cur +:+ t) :: JS.splitGo c "" rest.
Proof.
  revert cur. induction t as [|a t IH]; intros cur Ht.
  - simpl. rewrite Ascii.eqb_refl. by rewrite append_nil_r.
  - rewrite append_cons. simpl in *. destruct (Ascii.eqb a c); [done|].
    rewrite IH by done. by rewrite rev_cons, append_assoc.
Qed.

Lemma splitGo_last c cur t :
  countChar c t = 0%nat → JS.splitGo c cur t = [String.rev cur +:+ t].
Proof.
  revert cur. induction t as [|a t IH]; intros cur Ht.
  - simpl. by rewrite append_nil_r.
  - simpl in *. destruct (Ascii.eqb a c); [done|].
    rewrite IH by done. by rewrite rev_cons, append_assoc.
Qed.

Lemma join_cons sep x y l : JS.join sep (x :: y :: l) = x +:+ sep +:+ JS.join sep (y :: l).
Proof. done. Qed.

(** [s.split('/')] of a path joined from segments gives the segments. *)
Lemma split_join segments :
  segments ≠ [] → Forall (λ segment, countChar "/" segment = 0%nat) segments →
  JS.split (JS.join "/" segments) "/" = segments.
Proof.
  intros Hne Hall. unfold JS.split.
  induction segments as [|x [|y l] IH]; [done| |].
  - apply Forall_cons in Hall as [Hx _]. simpl. by rewrite splitGo_last.
  - apply Forall_cons in Hall as [Hx Hall]. rewrite join_cons.
    change ("/" +:+ JS.join "/" (y :: l)) with (String "/" (JS.join "/" (y :: l))).
    rewrite splitGo_segment by done. by rewrite IH.
Qed.

Lemma splitGo_nonempty c cur s : JS.splitGo c cur s ≠ [].
Proof.
  revert cur. induction s as [|a s IH]; intros cur; simpl; [done|].
  destruct (Ascii.eqb a c); [done|apply IH].
Qed.

Lemma splitGo_join cur s : JS.join "/" (JS.splitGo "/" cur s) = String.rev cur +:+ s.
Proof.
  revert cur. induction s as [|a s IH]; intros cur.
  - simpl. by rewrite append_nil_r.
  - simpl. destruct (Ascii.eqb a "/") eqn:E.
    + apply Ascii.eqb_eq in E as ->.
      pose proof (splitGo_nonempty "/" "" s) as Hne.
      destruct (JS.splitGo "/" "" s) as [|x l] eqn:Hs; [done|].
      rewrite join_cons, <-Hs, IH. done.
    + rewrite IH, rev_cons. by rewrite append_assoc.
Qed.

(** Joining the segments of a path gives the path back. *)
Lemma join_split s : JS.join "/" (JS.split s "/") = s.
Proof. unfold JS.split. by rewrite splitGo_join. Qed.

Lemma splitGo_segments c cur s :
  Forall (λ segment, countChar c segment = 0%nat) (JS.splitGo c cur s) ↔
  countChar c (String.rev cur) = 0%nat.
Proof.
  revert cur. induction s as [|a s IH]; intros cur; simpl.
  - by rewrite Forall_singleton.
  - destruct (Ascii.eqb a c) eqn:E.
    + rewrite Forall_cons, IH. naive_solver.
    + rewrite IH, rev_cons, countChar_append. simpl. rewrite E. lia.
Qed.

(** A segment of a split path has no separator. *)
Lemma split_segments s : Forall (λ segment, countChar "/" segment = 0%nat) (JS.split s "/").
Proof. unfold JS.split. by apply splitGo_segments. Qed.

End SplitJoin.

(** ** [allocateSrc]: from the path of a file to its coordinates *)

Section AllocateSrc.

Lemma getNavInfo_None filepath nav : filepath ∉ nav → getNavInfo filepath nav = None.
Proof.
  intros Hnot. unfold getNavInfo, findIndex.
  destruct (findIndexFrom_pure (λ candidate, bool_decide (candidate = filepath)) nav 0)
    as (k & -> & [[-> _]|(n & x & -> & Hn & Hx & _)]); [done|].
  apply bool_decide_eq_true in Hx as ->. destruct Hnot. by eapply list_elem_of_lookup_2.
Qed.

Lemma getNavInfo_Some filepath nav :
  filepath ∈ nav →
  ∃ index, getNavInfo filepath nav = Some index ∧ nav !! index = Some filepath ∧
           ∀ j, (j < index)%nat → nav !! j ≠ Some filepath.
Proof.
  intros Hin. unfold getNavInfo, findIndex.
  destruct (findIndexFrom_pure (λ candidate, bool_decide (candidate = filepath)) nav 0)
    as (k & -> & [[-> Hall]|(n & x & -> & Hn & Hx & Hall)]).
  - rewrite Forall_forall in Hall. apply Hall in Hin.
    by apply bool_decide_eq_false in Hin.
  - apply bool_decide_eq_true in Hx as ->. exists n.
    rewrite (proj2 (Z.eqb_neq (0 + Z.of_nat n) (-1))) by lia.
    replace (Z.to_nat (0 + Z.of_nat n)) with n by lia.
    split; [done|]. split; [done|]. intros j Hj Hlookup.
    rewrite Forall_forall in Hall.
    assert (filepath ∈ take n nav) as Hjn.
    { apply list_elem_of_lookup. exists j. by rewrite lookup_take_lt. }
    apply Hall in Hjn. by apply bool_decide_eq_false in Hjn.
Qed.

Lemma join_segments_3 a b c rest :
  rest ≠ [] →
  JS.join "/" (a :: b :: c :: rest) =
  a +:+ "/" +:+ b +:+ "/" +:+ c +:+ "/" +:+ JS.join "/" rest.
Proof. destruct rest as [|x rest]; [done|]. intros _. by rewrite !join_cons. Qed.

Lemma join_nonempty rest : JS.join "/" rest ≠ "" → rest ≠ [].
Proof. by destruct rest. Qed.

(** The coordinates that [allocateSrc] gives a file that is not a
    navigation file say where the file is: the path of the file is the
    directory of its module, the directory of its family and its relative
    path.  The family is one of page, partial, image, attachment and
    example, and a page is an AsciiDoc file. *)
Theorem allocateSrc_path (file allocated : File.t) (component version path : string)
    (nav : option (list string))
    (Hpath : File.path file = Some path)
    (Hnav : ∀ files, nav = Some files → path ∉ files)
    (Hallocated : allocateSrcOn file component version nav = Ok (Some allocated)) :
  ∃ module family directory relative,
    Src.module (File.src allocated) = Some module ∧
    Src.family (File.src allocated) = Some family ∧
    familyDirectory family = Some directory ∧
    Src.relative (File.src allocated) = Some relative ∧
    Src.component (File.src allocated) = Some component ∧
    Src.version (File.src allocated) = Some version ∧
    (relative ≠ "" →
     path = "modules/" +:+ module +:+ "/" +:+ directory +:+ "/" +:+ relative) ∧
    (family = "page" → Src.mediaType (File.src file) = Some "text/asciidoc") ∧
    File.path allocated = Some path ∧ File.contents allocated = File.contents file.
Proof.
  unfold allocateSrcOn in Hallocated. rewrite Hpath in Hallocated. cbn [defined bindR] in Hallocated.
  assert (match nav with Some nav => getNavInfo path nav | None => None end = None) as Hno.
  { destruct nav as [files|]; [|done]. apply getNavInfo_None. by apply Hnav. }
  rewrite Hno in Hallocated. cbv zeta in Hallocated.
  pose proof (join_split path) as Hjoin.
  destruct (JS.split path "/") as [|s0 [|s1 [|s2 rest]]] eqn:Hsegments;
    cbn [lookup list_lookup] in Hallocated; unfold JS.isStr in Hallocated;
    repeat (case_bool_decide; simplify_eq/=); try done.
  all: eexists _, _, _, _; (split; [reflexivity|]); (split; [reflexivity|]);
         (split; [reflexivity|]); (split; [reflexivity|]); (split; [reflexivity|]);
         (split; [reflexivity|]); (split; [|done]).
  all: intros Hrelative; apply join_nonempty in Hrelative.
  all: destruct rest as [|s3 rest]; simplify_eq/=.
  all: try (destruct rest as [|s4 rest]; [done|]).
  all: rewrite ?join_cons; by rewrite ?append_cons, ?append_nil_l.
Qed.

(** A file that the component descriptor lists as a navigation file is a
    navigation file wherever it is, also among the pages of a module.  Its
    index is that of the first entry of the list that is its path; its
    relative path is its path, or its path below the directory of its
    module when it is in one. *)
Theorem allocateSrc_navigation (file : File.t) (component version path : string)
    (files : list string)
    (Hpath : File.path file = Some path)
    (Hlisted : path ∈ files) :
  ∃ allocated index relative,
    allocateSrcOn file component version (Some files) = Ok (Some allocated) ∧
    Src.family (File.src allocated) = Some "navigation" ∧
    File.nav allocated = Some index ∧
    files !! index = Some path ∧ (∀ j, (j < index)%nat → files !! j ≠ Some path) ∧
    Src.component (File.src allocated) = Some component ∧
    Src.version (File.src allocated) = Some version ∧
    Src.relative (File.src allocated) = Some relative ∧
    (relative = path ∨
     ∃ module, Src.module (File.src allocated) = Some module ∧
               path = "modules/" +:+ module +:+ "/" +:+ relative).
Proof.
  destruct (getNavInfo_Some _ _ Hlisted) as (index & Hindex & Hfirst & Hbefore).
  unfold allocateSrcOn. rewrite Hpath. cbn [defined bindR]. rewrite Hindex. cbv zeta.
  pose proof (join_split path) as Hjoin.
  destruct (JS.split path "/") as [|s0 [|s1 [|s2 rest]]] eqn:Hsegments;
    cbn [lookup list_lookup]; unfold JS.isStr;
    repeat (case_bool_decide; simplify_eq/=);
    eexists _, index, _;
    (split; [reflexivity|]); (split; [reflexivity|]); (split; [reflexivity|]);
    (split; [done|]); (split; [done|]); (split; [reflexivity|]);
    (split; [reflexivity|]); (split; [reflexivity|]); try by left.
  right. eexists. split; [reflexivity|]. simpl.
  destruct rest as [|s3 rest]; by rewrite ?join_cons, ?append_cons, ?append_nil_l.
Qed.

End AllocateSrc.

Lemma allocateSrc_path_witness :
  ∃ allocated,
    allocateSrcOn rawTopicFile "docs" "2.0" (Some ["modules/cli/nav.adoc"]) =
    Ok (Some allocated) ∧
    Src.module (File.src allocated) = Some "cli" ∧
    Src.family (File.src allocated) = Some "page" ∧
    Src.relative (File.src allocated) = Some "topic/page.adoc".
Proof.
  assert (∃ allocated,
            allocateSrcOn rawTopicFile "docs" "2.0" (Some ["modules/cli/nav.adoc"]) =
            Ok (Some allocated)) as [allocated Hallocated] by (eexists; reflexivity).
  assert (∀ files, Some ["modules/cli/nav.adoc"] = Some files →
                   "modules/cli/pages/topic/page.adoc" ∉ files) as Hnav.
  { intros files [= <-]. by intros ?%list_elem_of_singleton. }
  destruct (allocateSrc_path rawTopicFile allocated "docs" "2.0"
              "modules/cli/pages/topic/page.adoc" _ eq_refl Hnav Hallocated)
    as (module & family & directory & relative & Hm & Hf & _ & Hr & _).
  exists allocated. split; [done|].
  vm_compute in Hallocated. injection Hallocated as <-. done.
Defined.

Lemma allocateSrc_navigation_witness :
  ∃ allocated,
    allocateSrcOn rawTopicFile "docs" "2.0"
      (Some ["modules/cli/nav.adoc"; "modules/cli/pages/topic/page.adoc"]) =
    Ok (Some allocated) ∧
    Src.family (File.src allocated) = Some "navigation" ∧
    File.nav allocated = Some 1%nat.
Proof.
  destruct (allocateSrc_navigation rawTopicFile "docs" "2.0"
              "modules/cli/pages/topic/page.adoc"
              ["modules/cli/nav.adoc"; "modules/cli/pages/topic/page.adoc"] eq_refl)
    as (allocated & index & relative & Hallocated & Hfamily & Hindex & _).
  { right. left. }
  exists allocated. split; [done|]. split; [done|].
  rewrite Hindex. vm_compute in Hallocated. by injection Hallocated as <-.
Defined.

(** ** [calculateRootPath]: the way up *)

Section RootPath.

Lemma rev_append s t : String.rev (s +:+ t) = String.rev t +:+ String.rev s.
Proof.
  induction s as [|a s IH]; [by rewrite append_nil_l, append_nil_r|].
  rewrite append_cons, !rev_cons, IH. by rewrite append_assoc.
Qed.

Lemma join_app l1 l2 :
  l1 ≠ [] → l2 ≠ [] →
  JS.join "/" (l1 ++ l2) = JS.join "/" l1 +:+ "/" +:+ JS.join "/" l2.
Proof.
  intros H1 H2. induction l1 as [|x [|y l1] IH]; [done| |].
  - destruct l2 as [|z l2]; [done|]. by rewrite <-join_cons.
  - change ((x :: y :: l1) ++ l2) with (x :: y :: (l1 ++ l2)).
    rewrite !join_cons. change (y :: l1 ++ l2) with ((y :: l1) ++ l2).
    rewrite IH by done. by rewrite !append_assoc.
Qed.

Lemma normalizeSegments_app b l1 l2 stack :
  Path.normalizeSegments b (l1 ++ l2) stack =
  Path.normalizeSegments b l2 (Path.normalizeSegments b l1 stack).
Proof.
  revert stack. induction l1 as [|x l1 IH]; intros stack; [done|]. simpl.
  repeat case_bool_decide; try done. destruct stack as [|top stack]; [done|].
  by case_bool_decide.
Qed.

Lemma normalizeSegments_plain b segments stack :
  Forall plainSegment segments →
  Path.normalizeSegments b segments stack = rev segments ++ stack.
Proof.
  intros Hplain. revert stack. induction Hplain as [|x l (_ & H1 & H2 & H3) _ IH];
    intros stack; [done|]. simpl.
  rewrite bool_decide_eq_false_2 by (by intros [?|?]).
  rewrite bool_decide_eq_false_2 by done. rewrite IH. by rewrite <-app_assoc.
Qed.

Lemma normalizeSegments_up b depth stack :
  Forall plainSegment stack → (depth ≤ length stack)%nat →
  Path.normalizeSegments b (replicate depth "..") stack = drop depth stack.
Proof.
  revert stack. induction depth as [|depth IH]; intros stack Hplain Hdepth; [done|].
  destruct stack as [|top stack]; [simpl in Hdepth; lia|].
  apply Forall_cons in Hplain as [(_ & _ & _ & Htop) Hplain]. simpl.
  rewrite bool_decide_eq_false_2 by done.
  apply IH; [done|]. simpl in Hdepth. lia.
Qed.

Lemma calculateRootPath_segments depth :
  ∃ l, calculateRootPath depth = JS.join "/" l ∧ l ≠ [] ∧
       Forall (λ segment, countChar "/" segment = 0%nat) l ∧
       ∀ b stack, Forall plainSegment stack → (depth ≤ length stack)%nat →
                  Path.normalizeSegments b l stack = drop depth stack.
Proof.
  unfold calculateRootPath. destruct depth as [|depth].
  - exists ["."]. split; [done|]. split; [done|]. split; [by repeat constructor|done].
  - rewrite bool_decide_eq_true_2 by done. exists (replicate (S depth) "..").
    split; [done|]. split; [done|]. split.
    + apply Forall_replicate. done.
    + intros b stack. apply normalizeSegments_up.
Qed.

Lemma lastChar_is_Some s : s ≠ "" → is_Some (lastChar s).
Proof.
  induction s as [|a s IH]; [done|]. intros _.
  destruct s as [|b s]; [by eexists|]. by apply IH.
Qed.

Lemma join_last_segment l s :
  s ≠ "" → lastChar (JS.join "/" (l ++ [s])) = lastChar s.
Proof.
  intros Hs. induction l as [|y [|z l] IH]; [done| |].
  - change ([y] ++ [s]) with [y; s]. rewrite join_cons.
    change ("/" +:+ JS.join "/" [s]) with (String "/" s).
    by rewrite lastChar_append.
  - change ((y :: z :: l) ++ [s]) with (y :: (z :: l) ++ [s]).
    change ((z :: l) ++ [s]) with (z :: l ++ [s]) in *.
    rewrite join_cons.
    change ("/" +:+ JS.join "/" (z :: l ++ [s]))
      with (String "/" (JS.join "/" (z :: l ++ [s]))).
    rewrite lastChar_append; [done|]. intros Hnil. rewrite Hnil in IH.
    destruct (lastChar_is_Some s Hs) as [c Hc]. by rewrite Hc in IH.
Qed.

Lemma calculateRootPath_last depth : lastChar (calculateRootPath depth) = Some "."%char.
Proof.
  unfold calculateRootPath. destruct depth as [|depth]; [done|].
  rewrite bool_decide_eq_true_2 by done.
  replace (replicate (S depth) "..") with (replicate depth ".." ++ [".."]).
  - by rewrite join_last_segment.
  - by rewrite <-replicate_cons_app.
Qed.

Lemma endsWithSep_lastChar p :
  Path.endsWithSep p = match lastChar p with Some a => Path.isSep a | None => false end.
Proof.
  unfold Path.endsWithSep. induction p as [|a p IH]; [done|].
  rewrite rev_cons. destruct p as [|b p]; [done|].
  change (lastChar (String a (String b p))) with (lastChar (String b p)).
  rewrite <-IH, (rev_cons b p). by destruct (String.rev p).
Qed.

Lemma join_plain_first x l :
  plainSegment x → ∃ a t, JS.join "/" (x :: l) = String a t ∧ a ≠ "/"%char.
Proof.
  intros (Hslash & Hne & _). destruct x as [|a x]; [done|]. simpl in Hslash.
  destruct (Ascii.eqb a "/") eqn:E; [done|]. apply Ascii.eqb_neq in E.
  destruct l as [|y l]; [by exists a, x|].
  rewrite join_cons, append_cons. by eexists _, _.
Qed.

(** [calculateRootPath(depth)] leads [depth] directories up: joined to a
    directory of more than [depth] plain segments it gives the directory
    without its last [depth] segments. *)
Theorem calculateRootPath_climbs (segments : list string) (depth : nat)
    (Hplain : Forall plainSegment segments)
    (Hdepth : (depth < length segments)%nat) :
  Path.join [JS.join "/" segments; calculateRootPath depth] =
  JS.join "/" (take (length segments - depth) segments).
Proof.
  destruct segments as [|x segments]; [simpl in Hdepth; lia|].
  pose proof Hplain as [Hx _]%Forall_cons.
  destruct (join_plain_first x segments Hx) as (a & t & Hd & Ha).
  destruct (calculateRootPath_segments depth) as (l & Hr & Hl & Hslash & Hup).
  pose proof (calculateRootPath_last depth) as Hlast.
  assert (calculateRootPath depth ≠ "") as Hrne by (by intros Hnil; rewrite Hnil in Hlast).
  unfold Path.join. rewrite !filter_cons, filter_nil.
  rewrite decide_True by (by rewrite Hd). rewrite decide_True by done.
  rewrite join_cons.
  change (JS.join "/" [calculateRootPath depth]) with (calculateRootPath depth).
  set (p := JS.join "/" (x :: segments) +:+ "/" +:+ calculateRootPath depth).
  assert (p = JS.join "/" ((x :: segments) ++ l)) as Hp.
  { unfold p. rewrite join_app by done. by rewrite Hr. }
  assert (p ≠ "") as Hpne by (unfold p; by rewrite Hd).
  assert (Path.isAbsolute p = false) as Habs.
  { unfold p. rewrite Hd, append_cons. simpl. unfold Path.isSep.
    by apply Ascii.eqb_neq. }
  assert (Path.endsWithSep p = false) as Hsep.
  { rewrite endsWithSep_lastChar. unfold p.
    change ("/" +:+ calculateRootPath depth) with (String "/" (calculateRootPath depth)).
    rewrite lastChar_append by done. by rewrite Hlast. }
  assert (Path.normalizeString p true =
          JS.join "/" (take (length (x :: segments) - depth) (x :: segments))) as Hnormal.
  { unfold Path.normalizeString. rewrite Hp, split_join.
    - rewrite normalizeSegments_app.
      rewrite (normalizeSegments_plain true (x :: segments) []) by done.
      rewrite app_nil_r, Hup.
      + by rewrite skipn_rev, rev_involutive.
      + apply Forall_forall. intros s Hs. rewrite Forall_forall in Hplain.
        apply Hplain. apply list_elem_of_In. apply in_rev. by apply list_elem_of_In.
      + rewrite length_rev. lia.
    - done.
    - apply Forall_app. split; [|done]. eapply Forall_impl; [done|]. by intros s [? _]. }
  clearbody p. unfold Path.normalize. rewrite bool_decide_eq_false_2 by done.
  rewrite Habs, Hsep. cbn [negb]. rewrite Hnormal.
  rewrite bool_decide_eq_false_2; [done|].
  replace (length (x :: segments) - depth)%nat with (S (length segments - depth))
    by (simpl in *; lia).
  cbn [take]. destruct (join_plain_first x (take (length segments - depth) segments) Hx)
    as (a' & t' & -> & _). done.
Qed.

End RootPath.

Lemma calculateRootPath_climbs_witness :
  Path.join ["modules/cli/pages/topic"; calculateRootPath 2] = "modules/cli".
Proof.
  apply (calculateRootPath_climbs ["modules"; "cli"; "pages"; "topic"] 2).
  - by repeat constructor.
  - simpl. lia.
Defined.

(** ** [classifyContent]: the files of the catalog, and the site start page *)

Section Classified.
Variable cwd : string.
Variable versionCompare : string → string → Z.
Variable START_PAGE_ID : Src.t.

Lemma bind_Ok {A B} (m : M A) (k : A → M B) st b st' :
  bind m k st = (Ok b, st') → ∃ a st1, m st = (Ok a, st1) ∧ k a st1 = (Ok b, st').
Proof.
  unfold bind. destruct (m st) as [[a|e] st1]; [|done]. intros Hk. by exists a, st1.
Qed.

Lemma forEach_invariant {A} (I : State → Prop) (f : A → M unit) (l : list A) :
  (∀ x st st', x ∈ l → I st → f x st = (Ok tt, st') → I st') →
  ∀ st st', I st → forEach f l st = (Ok tt, st') → I st'.
Proof.
  induction l as [|x l IH]; intros Hf st st' Hst Hrun.
  - by injection Hrun as <-.
  - simpl in Hrun. apply bind_Ok in Hrun as ([] & st1 & Hx & Hrun).
    eapply IH; [|by eapply Hf; [left|..]|done].
    intros y s s' Hy. apply Hf. by right.
Qed.

Lemma allocateSrcOn_family file component version nav allocated :
  allocateSrcOn file component version nav = Ok (Some allocated) →
  Src.family (File.src allocated) ≠ Some "alias".
Proof.
  unfold allocateSrcOn. destruct (File.path file) as [path|]; [|done].
  cbn [defined bindR]. cbv zeta.
  destruct (match nav with Some nav => getNavInfo path nav | None => None end);
    repeat case_match; by intros [= <-].
Qed.

Lemma allocateSrc_effect file component version nav st allocated st' :
  allocateSrc file component version nav st = (Ok allocated, st') →
  catalog st' = catalog st ∧
  (∀ l, nonAliasAt st l → nonAliasAt st' l) ∧
  (allocated = true → nonAliasAt st' file).
Proof.
  unfold allocateSrc. intros (f & st1 & Hf & Hrun)%bind_Ok.
  unfold deref in Hf. destruct (heap st !! file) as [f0|] eqn:Hfile; [|done].
  injection Hf as <- <-.
  apply bind_Ok in Hrun as (assigned & st1 & Hassigned & Hrun).
  unfold lift in Hassigned. injection Hassigned as Hassigned <-.
  destruct assigned as [f'|].
  - apply bind_Ok in Hrun as ([] & st1 & Hupdate & Hret).
    injection Hret as <- <-. injection Hupdate as <-.
    apply allocateSrcOn_family in Hassigned.
    assert (alter (λ _, f') file (heap st) !! file = Some f') as Hnew.
    { by rewrite list_lookup_alter_eq, Hfile. }
    split; [done|]. split; [|intros _; by exists f'].
    intros l (f & Hl & Hfamily). destruct (decide (l = file)) as [->|Hne].
    + by exists f'.
    + exists f. split; [|done]. simpl. by rewrite list_lookup_alter_ne.
  - by injection Hrun as <- <-.
Qed.

(** [addFile], when it returns. *)
Lemma addFile_Ok file f st st' :
  heap st !! file = Some f →
  addFile cwd file st = (Ok tt, st') →
  ∃ added f2,
    ContentCatalog.files (catalog st') =
      <[generateId (File.src f) := added]> (ContentCatalog.files (catalog st)) ∧
    ContentCatalog.files (catalog st) !! generateId (File.src f) = None ∧
    heap st' !! added = Some f2 ∧
    File.src f2 = File.src f ∧ File.rel f2 = File.rel f ∧
    added = (if File.isVinyl f then file else length (heap st)) ∧
    (∀ other, other ≠ added → (other < length (heap st))%nat →
              heap st' !! other = heap st !! other).
Proof.
  intros Hfile. rewrite (addFile_run _ _ _ _ Hfile). cbv zeta.
  case_bool_decide as Hid; [done|].
  set (added := if File.isVinyl f then file else length (heap st)).
  set (st0 := if File.isVinyl f then st else withHeap (heap st ++ [File.setVinyl f]) st).
  set (f0 := if File.isVinyl f then f else File.setVinyl f).
  assert (heap st0 !! added = Some f0) as Hadded.
  { unfold st0, added, f0. destruct (File.isVinyl f); [done|]. simpl.
    by apply list_lookup_middle. }
  assert (File.src f0 = File.src f ∧ File.rel f0 = File.rel f) as [Hsrc0 Hrel0].
  { unfold f0. by destruct (File.isVinyl f). }
  assert (catalog st0 = catalog st) as Hcatalog.
  { unfold st0. by destruct (File.isVinyl f). }
  assert ((length (heap st) ≤ length (heap st0))%nat ∧
          ∀ other, (other < length (heap st))%nat → heap st0 !! other = heap st !! other)
    as [Hlength Hothers].
  { unfold st0. destruct (File.isVinyl f); [done|]. simpl. rewrite length_app.
    split; [lia|]. intros other Hother. by rewrite lookup_app_l. }
  rewrite (assignOutAndPub_run _ _ _ _ Hadded). cbv zeta.
  destruct (actingFamilyOf (heap st0) f0) as [acting|]; [|done].
  destruct (withOut _ _ _ _) as [f1|e] eqn:H1; [|done].
  destruct (withPub _ _ _) as [f2|e] eqn:H2; [|done].
  apply withOut_Ok in H1 as (Hs1 & Hr1 & _).
  apply withPub_Ok in H2 as (Hs2 & Hr2 & _).
  intros [= <-]. exists added, f2. simpl. rewrite Hcatalog.
  split; [done|]. split.
  { by apply eq_None_not_Some. }
  split.
  { apply list_lookup_insert_eq. by eapply lookup_lt_Some. }
  split; [by rewrite Hs2, Hs1|]. split; [by rewrite Hr2, Hr1|].
  split; [done|].
  intros other Hother Hlt. rewrite list_lookup_insert_ne by done. by apply Hothers.
Qed.

Lemma nonAliasAt_lt st l : nonAliasAt st l → (l < length (heap st))%nat.
Proof. intros (f & Hl & _). by eapply lookup_lt_Some. Qed.

Lemma addFile_nonAlias file f st st' :
  heap st !! file = Some f →
  Src.family (File.src f) ≠ Some "alias" →
  addFile cwd file st = (Ok tt, st') →
  (∀ l, nonAliasAt st l → nonAliasAt st' l) ∧
  (registeredOk st → registeredOk st').
Proof.
  intros Hfile Hfamily Hadd.
  destruct (addFile_Ok _ _ _ _ Hfile Hadd)
    as (added & f2 & Hfiles & _ & Hadded & Hsrc & _ & _ & Hothers).
  assert (nonAliasAt st' added) as Hnew by (exists f2; by rewrite Hsrc).
  assert (∀ l, nonAliasAt st l → nonAliasAt st' l) as Hmono.
  { intros l Hl. destruct (decide (l = added)) as [->|Hne]; [done|].
    pose proof (nonAliasAt_lt _ _ Hl) as Hlt. destruct Hl as (g & Hg & Hgf).
    exists g. split; [|done]. by rewrite Hothers. }
  split; [done|]. intros Hok id l. rewrite Hfiles.
  destruct (decide (generateId (File.src f) = id)) as [<-|Hne].
  - rewrite lookup_insert_eq. by intros [= <-].
  - rewrite lookup_insert_ne by done. intros Hl. eapply Hmono, Hok, Hl.
Qed.

Lemma addComponentVersion_files name version title startPageSpec st st' :
  addComponentVersion cwd versionCompare name version title startPageSpec st = (Ok tt, st') →
  heap st' = heap st ∧
  ContentCatalog.files (catalog st') = ContentCatalog.files (catalog st).
Proof.
  rewrite addComponentVersion_run.
  destruct (startPageUrl _ _ _ _ _).1 as [url|e]; [|done]. cbv zeta.
  destruct (ContentCatalog.components (catalog st) !! name) as [component|].
  - destruct (insertVersion _ _ _ _ _ _) as [component'|e]; [|done]. by intros [= <-].
  - by intros [= <-].
Qed.

Lemma classify_file name version nav file st st' :
  (allocated <- allocateSrc file name version nav ;;
   if allocated : bool then addFile cwd file else ret tt) st = (Ok tt, st') →
  registeredOk st → registeredOk st'.
Proof.
  intros (allocated & st1 & Hallocate & Hadd)%bind_Ok Hok.
  apply allocateSrc_effect in Hallocate as (Hcatalog & Hmono & Hfile).
  assert (registeredOk st1) as Hok1.
  { intros id l. rewrite Hcatalog. intros Hl. eapply Hmono, Hok, Hl. }
  destruct allocated; [|by injection Hadd as <-].
  destruct (Hfile eq_refl) as (f & Hf & Hfamily).
  by eapply addFile_nonAlias.
Qed.

Lemma classify_component_version cv st st' :
  (forEach
     (λ file,
        allocated <- allocateSrc file (ComponentVersion.name cv)
                       (ComponentVersion.version cv) (ComponentVersion.nav cv) ;;
        if allocated : bool then addFile cwd file else ret tt)
     (ComponentVersion.files cv) ;;
   addComponentVersion cwd versionCompare (ComponentVersion.name cv)
     (ComponentVersion.version cv) (ComponentVersion.title cv)
     (ComponentVersion.start_page cv)) st = (Ok tt, st') →
  registeredOk st → registeredOk st'.
Proof.
  intros ([] & st1 & Hfiles & Hadd)%bind_Ok Hok.
  assert (registeredOk st1) as Hok1.
  { eapply (forEach_invariant registeredOk); [|done|done].
    intros file s s' _ Hs Hrun. simpl in Hrun. by eapply classify_file. }
  apply addComponentVersion_files in Hadd as [Hheap Hfiles'].
  intros id l. rewrite Hfiles'. intros (f & Hf & Hfamily)%Hok1.
  exists f. by rewrite Hheap.
Qed.

Lemma resolvePage_registered spec ctx st l st' :
  resolvePage spec ctx st = (Ok (Some l), st') →
  st' = st ∧ ∃ id, ContentCatalog.files (catalog st) !! id = Some l.
Proof.
  intros Hresolve. pose proof (readonly_resolvePage spec ctx st) as Hst.
  rewrite Hresolve in Hst. simpl in Hst. split; [done|]. subst st'.
  unfold resolvePage in Hresolve.
  destruct (PageId.parsePageId spec ctx) as [id|]; [|done].
  destruct (negb (JS.truthy (Src.version id))).
  - apply bind_Ok in Hresolve as (component & st1 & _ & Hresolve).
    destruct component as [component|]; [|done].
    apply bind_Ok in Hresolve as (latest & st2 & _ & Hresolve).
    unfold getById in Hresolve.
    apply bind_Ok in Hresolve as (c & st3 & Hc & Hresolve).
    injection Hc as <- <-. injection Hresolve as Hl Hst3. subst st2. by eexists.
  - unfold getById in Hresolve.
    apply bind_Ok in Hresolve as (c & st3 & Hc & Hresolve).
    injection Hc as <- <-. injection Hresolve as Hl. by eexists.
Qed.

Lemma registerSiteStartPage_aliases playbook st st' :
  registeredOk st →
  registerSiteStartPage cwd START_PAGE_ID playbook st = (Ok tt, st') →
  aliasesOk st'.
Proof.
  intros Hok. unfold registerSiteStartPage.
  destruct (negb (JS.truthy (Playbook.site_startPage playbook))).
  { intros [= <-]. intros id l (f & Hf & Hfamily)%Hok. exists f. split; [done|]. by left. }
  intros (rel & st1 & Hresolve & Hrun)%bind_Ok.
  destruct rel as [rel|]; [|done].
  apply resolvePage_registered in Hresolve as [-> [relId Hrel]].
  apply bind_Ok in Hrun as (file & st2 & Halloc & Hadd).
  injection Halloc as <- <-.
  pose proof (nonAliasAt_lt _ _ (Hok _ _ Hrel)) as Hlt.
  eapply addFile_Ok in Hadd as (added & f2 & Hfiles & _ & Hadded & Hsrc & Hrel2 & -> & Hothers);
    [|by apply list_lookup_middle].
  cbn [heap File.isVinyl File.src File.rel] in *. rewrite length_app in *. simpl in Hothers.
  assert (∀ l, nonAliasAt st l → nonAliasAt st' l) as Hmono.
  { intros l Hl. pose proof (nonAliasAt_lt _ _ Hl) as Hl'. destruct Hl as (g & Hg & Hgf).
    exists g. split; [|done]. rewrite Hothers by (simpl; lia). by rewrite lookup_app_l. }
  intros id l. rewrite Hfiles. simpl. match goal with |- context [<[?k := _]> _] => set (key := k) end.
  destruct (decide (key = id)) as [<-|Hne].
  - rewrite lookup_insert_eq. intros [= <-]. exists f2. split; [done|]. right.
    exists rel. split; [done|]. by eapply Hmono, Hok.
  - rewrite lookup_insert_ne by done. intros Hl%Hok%Hmono. destruct Hl as (g & Hg & Hgf).
    exists g. split; [done|]. by left.
Qed.

Lemma getSiteStartPage_aliases st :
  aliasesOk st →
  ∃ startPage, getSiteStartPage START_PAGE_ID st = (Ok startPage, st) ∧
               ∀ l, startPage = Some l → nonAliasAt st l.
Proof.
  intros Hok.
  assert (∀ page, (∃ id, ContentCatalog.files (catalog st) !! id = Some page) →
            ∃ startPage,
              (f <- deref page ;;
               ret (if JS.isStr (Src.family (File.src f)) "alias"
                    then File.rel f else Some page)) st = (Ok startPage, st) ∧
              ∀ l, startPage = Some l → nonAliasAt st l) as Hpage.
  { intros page [id (f & Hf & Hfamily)%Hok]. unfold bind, deref, ret. rewrite Hf. simpl.
    eexists. split; [done|]. intros l.
    destruct (JS.isStr (Src.family (File.src f)) "alias") eqn:Halias.
    - apply bool_decide_eq_true in Halias.
      destruct Hfamily as [Hfamily|(target & Htarget & Hnon)]; [done|].
      rewrite Htarget. by intros [= <-].
    - apply bool_decide_eq_false in Halias. intros [= <-]. by exists f. }
  unfold getSiteStartPage, getById. unfold bind at 1. unfold bind at 1.
  unfold getCatalog at 1, gets at 1, ret at 1.
  destruct (ContentCatalog.files (catalog st) !! generateId START_PAGE_ID) as [page|] eqn:Hfirst.
  { unfold bind at 1, ret at 1. apply Hpage. by eexists. }
  unfold bind at 1. unfold bind at 1. unfold getCatalog, gets, ret at 1.
  destruct (ContentCatalog.files (catalog st) !!
              generateId (Src.setFamily (Some "alias") START_PAGE_ID))
    as [page|] eqn:Hsecond.
  - apply Hpage. by eexists.
  - by exists None.
Qed.

(** Every file of a catalog that [classifyContent] returns is a file that
    is not an alias or an alias of a file that is not an alias, and the site
    start page of the catalog, when there is one, is a file that is not an
    alias: [getSiteStartPage] returns, and what it returns for an alias is
    the target of the alias. *)
Theorem classifyContent_site_start_page (playbook : Playbook.t)
    (aggregate : list ComponentVersion.t) (st0 st : State) (result : ContentCatalog.t)
    (Hclassified : classifyContent cwd versionCompare START_PAGE_ID playbook aggregate st0
                   = (Ok result, st)) :
  result = catalog st ∧
  aliasesOk st ∧
  ∃ startPage,
    getSiteStartPage START_PAGE_ID st = (Ok startPage, st) ∧
    ∀ l, startPage = Some l →
         ∃ f, heap st !! l = Some f ∧ Src.family (File.src f) ≠ Some "alias".
Proof.
  unfold classifyContent in Hclassified.
  apply bind_Ok in Hclassified as ([] & st1 & Hset & Hclassified).
  apply bind_Ok in Hclassified as ([] & st2 & Hloop & Hclassified).
  apply bind_Ok in Hclassified as ([] & st3 & Hstart & Hget).
  injection Hget as <- <-. injection Hset as <-.
  assert (registeredOk st2) as Hok2.
  { eapply (forEach_invariant registeredOk); [| |exact Hloop].
    - intros cv s s' _ Hs Hrun. simpl in Hrun. by eapply classify_component_version.
    - intros id l. simpl. by rewrite lookup_empty. }
  pose proof (registerSiteStartPage_aliases _ _ _ Hok2 Hstart) as Hok3.
  split; [done|]. split; [done|]. by apply getSiteStartPage_aliases.
Qed.

End Classified.

Lemma classifyContent_site_start_page_witness :
  ∃ result,
    classifyContent "/work" versionCompareDesc sampleStartPageId
      (samplePlaybook (Some "2.0@docs::intro")) docsAggregate docsStart
    = (Ok result, docsSiteState) ∧
    getSiteStartPage sampleStartPageId docsSiteState = (Ok (Some 0%nat), docsSiteState).
Proof.
  assert (∃ result,
            classifyContent "/work" versionCompareDesc sampleStartPageId
              (samplePlaybook (Some "2.0@docs::intro")) docsAggregate docsStart
            = (Ok result, docsSiteState)) as [result Hclassified]
    by (eexists; vm_compute; reflexivity).
  exists result. split; [done|].
  destruct (classifyContent_site_start_page _ _ _ _ _ _ _ _ Hclassified)
    as (_ & _ & startPage & Hget & _).
  rewrite Hget. f_equal. f_equal.
  pose proof Hget as Hget'. vm_compute in Hget'. by injection Hget' as <-.
Defined.

(** ** [registerSiteStartPage] *)

Section SiteStartPage.
Variable cwd : string.
Variable START_PAGE_ID : Src.t.

(** What [registerSiteStartPage] does for a playbook that names a site
    start page.  It throws what [resolvePage] throws for the spec, and its
    own error when the spec resolves to no page, and leaves the catalog as it
    is in both cases.  When the spec resolves to a page and the start page
    of the site is registered, [getSiteStartPage] returns that page, unless
    the catalog had a file under the id of the start page before. *)
Theorem registerSiteStartPage_outcomes (playbook : Playbook.t) (spec : string) (st : State)
    (Hspec : Playbook.site_startPage playbook = Some spec)
    (Hne : spec ≠ "") :
  match (resolvePage spec Src.empty st).1 with
  | Throw e => registerSiteStartPage cwd START_PAGE_ID playbook st = (Throw e, st)
  | Ok None =>
      registerSiteStartPage cwd START_PAGE_ID playbook st =
      (Throw (SiteStartPageMissing ("Specified start page for site not found: " +:+ spec)),
       st)
  | Ok (Some page) =>
      ∀ st', registerSiteStartPage cwd START_PAGE_ID playbook st = (Ok tt, st') →
             ContentCatalog.files (catalog st) !! generateId START_PAGE_ID = None →
             getSiteStartPage START_PAGE_ID st' = (Ok (Some page), st') ∧
             ((page < length (heap st))%nat → heap st' !! page = heap st !! page)
  end.
Proof.
  remember (registerSiteStartPage cwd START_PAGE_ID playbook st) as run eqn:Hbody.
  unfold registerSiteStartPage in Hbody. rewrite Hspec in Hbody.
  rewrite (truthy_Some spec Hne) in Hbody. cbn [negb] in Hbody.
  change (JS.str (Some spec)) with spec in Hbody.
  pose proof (readonly_resolvePage spec Src.empty st) as Hst.
  unfold bind at 1 in Hbody.
  destruct (resolvePage spec Src.empty st) as [r st1]. simpl in Hst. subst st1.
  change ((r, st).1) with r. destruct r as [[page|]|e]; [|done|done].
  intros st' Hrun Hfree. rewrite Hbody in Hrun. clear Hbody.
  apply bind_Ok in Hrun as (file & st2 & Halloc & Hadd).
  injection Halloc as <- <-.
  eapply addFile_Ok in Hadd as (added & f2 & Hfiles & _ & Hadded & Hsrc & Hrel & -> & Hothers);
    [|by apply list_lookup_middle].
  cbn [heap File.isVinyl File.src File.rel catalog] in *.
  rewrite length_app in *. cbn [length] in *. split.
  - unfold getSiteStartPage, getById. unfold bind at 1. unfold bind at 1.
    unfold getCatalog at 1, gets at 1, ret at 1. rewrite Hfiles.
    assert ((f <- deref (length (heap st) + 1)%nat ;;
             ret (if JS.isStr (Src.family (File.src f)) "alias"
                  then File.rel f else Some (length (heap st) + 1)%nat)) st'
            = (Ok (Some page), st')) as Halias.
    { unfold bind, deref, ret. rewrite Hadded. simpl. by rewrite Hsrc, Hrel. }
    match goal with |- context [<[?k := _]> _ !! _] => set (key := k) end.
    destruct (decide (key = generateId START_PAGE_ID)) as [Heq|Hne'].
    + rewrite <-Heq, lookup_insert_eq. unfold bind at 1, ret at 1. done.
    + rewrite lookup_insert_ne, Hfree by done.
      unfold bind at 1, ret at 1. unfold bind at 1. unfold bind at 1.
      unfold getCatalog, gets, ret at 1. rewrite Hfiles.
      assert (generateId (Src.setFamily (Some "alias") START_PAGE_ID) = key) as -> by done.
      by rewrite lookup_insert_eq.
  - intros Hlt. rewrite Hothers by lia. by rewrite lookup_app_l.
Qed.

End SiteStartPage.

Lemma registerSiteStartPage_outcomes_witness :
  registerSiteStartPage "/work" sampleStartPageId (samplePlaybook (Some "2.0@docs::missing"))
    docsState =
  (Throw (SiteStartPageMissing
            "Specified start page for site not found: 2.0@docs::missing"), docsState) ∧
  ∃ st', registerSiteStartPage "/work" sampleStartPageId
           (samplePlaybook (Some "2.0@docs::intro")) docsState = (Ok tt, st') ∧
         getSiteStartPage sampleStartPageId st' = (Ok (Some 0%nat), st').
Proof.
  split.
  - pose proof (registerSiteStartPage_outcomes "/work" sampleStartPageId
                  (samplePlaybook (Some "2.0@docs::missing")) "2.0@docs::missing" docsState
                  eq_refl) as H.
    assert ((resolvePage "2.0@docs::missing" Src.empty docsState).1 = Ok None) as Hnone
      by (vm_compute; reflexivity).
    rewrite Hnone in H. by apply H.
  - pose proof (registerSiteStartPage_outcomes "/work" sampleStartPageId
                  (samplePlaybook (Some "2.0@docs::intro")) "2.0@docs::intro" docsState
                  eq_refl) as H.
    assert ((resolvePage "2.0@docs::intro" Src.empty docsState).1 = Ok (Some 0%nat)) as Hpage
      by (vm_compute; reflexivity).
    rewrite Hpage in H.
    assert (∃ st', registerSiteStartPage "/work" sampleStartPageId
                     (samplePlaybook (Some "2.0@docs::intro")) docsState = (Ok tt, st'))
      as [st' Hrun] by (eexists; vm_compute; reflexivity).
    exists st'. split; [done|]. apply H; [done|done|]. vm_compute. reflexivity.
Defined.

(** ** [buildAggregate]: the order and the groups *)

Section StringOrder.

Lemma compare_Lt_le (a b : string) : String.compare a b = Lt ↔ String.le a b ∧ a ≠ b.
Proof.
  unfold String.le, String.leb. split.
  - intros H. rewrite H. split; [done|]. intros ->.
    pose proof (String.compare_antisym b b) as Hb. rewrite H in Hb. done.
  - intros [Hle Hne]. destruct (String.compare a b) eqn:H; [|done|done].
    by apply String.compare_eq_iff in H.
Qed.

Lemma compare_Lt_trans (a b c : string) :
  String.compare a b = Lt → String.compare b c = Lt → String.compare a c = Lt.
Proof.
  rewrite !compare_Lt_le. intros [Hab Hne] [Hbc _]. split; [by etrans|].
  intros ->. apply Hne. by apply (anti_symm String.le).
Qed.

Lemma compare_Gt_Lt (a b : string) : String.compare a b = Gt ↔ String.compare b a = Lt.
Proof.
  rewrite (String.compare_antisym b a). by destruct (String.compare a b).
Qed.

Lemma compare_Eq (a b : string) : String.compare a b = Eq ↔ a = b.
Proof.
  split; [apply String.compare_eq_iff|]. intros ->.
  pose proof (String.compare_antisym b b) as Hb. by destruct (String.compare b b).
Qed.

Lemma valueLt_trans (a b c : JS.value) : valueLt a b → valueLt b c → valueLt a c.
Proof.
  destruct a as [a|], b as [b|], c as [c|]; simpl; try done. apply compare_Lt_trans.
Qed.

Lemma valueLt_irrefl (a : JS.value) : ¬ valueLt a a.
Proof.
  destruct a as [a|]; simpl; [|by intros []]. intros H.
  by rewrite (proj2 (compare_Eq a a) eq_refl) in H.
Qed.

Lemma compareAscending_lt (a b : JS.value) :
  Aggregate.compareAscending a b < 0 ↔ valueLt a b.
Proof.
  destruct a as [a|], b as [b|]; simpl; try done.
  destruct (String.compare a b); split; (done || lia).
Qed.

Lemma compareAscending_eq (a b : JS.value) :
  Aggregate.compareAscending a b = 0 ↔ a = b.
Proof.
  destruct a as [a|], b as [b|]; simpl; try done.
  destruct (String.compare a b) eqn:H; split; try done.
  - intros _. by apply compare_Eq in H as ->.
  - intros [= ->]. by rewrite (proj2 (compare_Eq b b) eq_refl) in H.
  - intros [= ->]. by rewrite (proj2 (compare_Eq b b) eq_refl) in H.
Qed.

Lemma compareAscending_gt (a b : JS.value) :
  0 < Aggregate.compareAscending a b ↔ valueLt b a.
Proof.
  destruct a as [a|], b as [b|]; simpl; try done.
  rewrite <-compare_Gt_Lt. destruct (String.compare a b); split; (done || lia).
Qed.

Lemma compareMultiple_lt (a b : Aggregate.t) :
  Aggregate.compareMultiple a b < 0 ↔ keyLt (keyOf a) (keyOf b).
Proof.
  unfold Aggregate.compareMultiple, keyLt, keyOf. simpl.
  destruct (Z.eqb_spec (Aggregate.compareAscending (Aggregate.name (Aggregate.fields a))
                          (Aggregate.name (Aggregate.fields b))) 0) as [H0|H0].
  - apply compareAscending_eq in H0. rewrite compareAscending_lt, H0. split; [by right|].
    intros [H|[_ H]]; [|done]. by apply valueLt_irrefl in H.
  - rewrite compareAscending_lt. split; [by left|]. intros [H|[H _]]; [done|].
    by apply compareAscending_eq in H.
Qed.

Lemma keyLt_trans (a b c : JS.value * JS.value) : keyLt a b → keyLt b c → keyLt a c.
Proof.
  intros [H1|[E1 H1]] [H2|[E2 H2]].
  - left. by eapply valueLt_trans.
  - left. by rewrite <-E2.
  - left. by rewrite E1.
  - right. split; [by rewrite E1|]. by eapply valueLt_trans.
Qed.

Lemma valueLt_total (a b : JS.value) : valueLt a b ∨ a = b ∨ valueLt b a.
Proof.
  destruct (Z.lt_trichotomy (Aggregate.compareAscending a b) 0) as [H|[H|H]].
  - left. by apply compareAscending_lt.
  - right; left. by apply compareAscending_eq.
  - right; right. by apply compareAscending_gt.
Qed.

Lemma keyLt_total (a b : JS.value * JS.value) : keyLt a b ∨ a = b ∨ keyLt b a.
Proof.
  destruct a as [na va], b as [nb vb]. unfold keyLt. simpl.
  destruct (valueLt_total na nb) as [H|[->|H]]; [by left; left| |by right; right; left].
  destruct (valueLt_total va vb) as [H|[->|H]]; [left|right; left|right; right]; auto.
Qed.

End StringOrder.

(** ** [buildAggregate]: the groups *)

Section Groups.
Context {A : Type} (iteratee : A → string).

Lemma groupInsert_new key (x : A) groups :
  key ∉ groups.*1 → Aggregate.groupInsert key x groups = groups ++ [(key, [x])].
Proof.
  induction groups as [|[k xs] groups IH]; [done|]. simpl.
  intros Hnot. apply not_elem_of_cons in Hnot as [Hne Hnot].
  rewrite bool_decide_eq_false_2 by done. by rewrite IH.
Qed.

Lemma groupInsert_old key (x : A) before xs after :
  key ∉ before.*1 →
  Aggregate.groupInsert key x (before ++ (key, xs) :: after) =
  before ++ (key, xs ++ [x]) :: after.
Proof.
  induction before as [|[k ys] before IH]; simpl.
  - intros _. by rewrite bool_decide_eq_true_2.
  - intros Hnot. apply not_elem_of_cons in Hnot as [Hne Hnot].
    rewrite bool_decide_eq_false_2 by done. by rewrite IH.
Qed.

Lemma filter_snoc (P : A → Prop) `{∀ x, Decision (P x)} l x :
  filter P (l ++ [x]) = filter P l ++ (if decide (P x) then [x] else []).
Proof. rewrite filter_app, filter_cons, filter_nil. by destruct (decide (P x)). Qed.

(** The groups of [groupBy]: one for each key, with the elements of that
    key in the order of the input. *)
Lemma groupBy_groups (l : list A) :
  let groups := Aggregate.groupBy iteratee l in
  NoDup groups.*1 ∧
  (∀ key xs, (key, xs) ∈ groups → xs ≠ [] ∧ xs = filter (λ x, iteratee x = key) l) ∧
  (∀ x, x ∈ l → iteratee x ∈ groups.*1).
Proof.
  unfold Aggregate.groupBy. induction l as [|x l IH] using rev_ind.
  { simpl. split; [constructor|]. split; [|by intros x ?%elem_of_nil].
    by intros key xs ?%elem_of_nil. }
  rewrite fold_left_app. simpl. set (groups := fold_left _ l []) in *.
  destruct IH as (Hkeys & Hgroups & Hcover).
  destruct (decide (iteratee x ∈ groups.*1)) as [Hin|Hnot].
  - apply list_elem_of_fmap in Hin as ([key xs] & Hkey & Hin). simpl in Hkey. subst key.
    apply list_elem_of_split in Hin as (before & after & Hsplit).
    rewrite Hsplit in Hkeys. rewrite fmap_app, fmap_cons in Hkeys. simpl in Hkeys.
    pose proof Hkeys as Hkeys'.
    apply NoDup_app in Hkeys' as (_ & Hbefore & Hafter%NoDup_cons).
    assert (iteratee x ∉ before.*1) as Hnot.
    { intros Hb. eapply Hbefore; [done|]. by left. }
    rewrite Hsplit, groupInsert_old by done.
    split; [by rewrite fmap_app, fmap_cons|]. split.
    + intros key ys Hys.
      assert ((key, ys) = (iteratee x, xs ++ [x]) ∨
              ((key, ys) ∈ groups ∧ key ≠ iteratee x)) as [[= -> ->]|[Hold Hne]].
      { apply elem_of_app in Hys as [Hys|Hys].
        - right. split; [rewrite Hsplit; apply elem_of_app; by left|].
          intros ->. apply Hnot. apply list_elem_of_fmap. by exists (iteratee x, ys).
        - apply elem_of_cons in Hys as [Hys|Hys]; [by left|]. right.
          split; [rewrite Hsplit; apply elem_of_app; right; by right|].
          intros ->. destruct Hafter as [Hafter _]. apply Hafter.
          apply list_elem_of_fmap. by exists (iteratee x, ys). }
      * split; [by destruct xs|]. rewrite filter_snoc, decide_True by done.
        f_equal. apply Hgroups. rewrite Hsplit. apply elem_of_app. right. by left.
      * destruct (Hgroups _ _ Hold) as [Hne' ->]. split; [done|].
        rewrite filter_snoc, decide_False by done. by rewrite app_nil_r.
    + intros y [Hy|Hy%list_elem_of_singleton]%elem_of_app.
      * apply Hcover in Hy. rewrite Hsplit, fmap_app, fmap_cons in Hy.
        by rewrite fmap_app, fmap_cons.
      * subst y. rewrite fmap_app, fmap_cons. apply elem_of_app. right. by left.
  - rewrite groupInsert_new by done. rewrite fmap_app. simpl. split.
    { apply NoDup_app. split; [done|]. split; [|apply NoDup_singleton].
      intros key Hkey ->%list_elem_of_singleton. done. }
    split.
    + intros key ys [Hys|Hys%list_elem_of_singleton]%elem_of_app.
      * destruct (Hgroups _ _ Hys) as [Hne ->]. split; [done|].
        rewrite filter_snoc, decide_False, app_nil_r; [done|].
        intros Heq. apply Hnot. rewrite Heq. apply list_elem_of_fmap.
        eexists (_, _). split; [|exact Hys]. done.
      * injection Hys as -> ->. split; [done|].
        rewrite filter_snoc, decide_True by done.
        assert (filter (λ y, iteratee y = iteratee x) l = []) as ->; [|done].
        destruct (filter (λ y, iteratee y = iteratee x) l) as [|y ys] eqn:Hfilter; [done|].
        assert (y ∈ filter (λ y, iteratee y = iteratee x) l) as [Heq Hy]%list_elem_of_filter
          by (rewrite Hfilter; by left).
        destruct Hnot. rewrite <-Heq. by apply Hcover.
    + intros y [Hy|Hy%list_elem_of_singleton]%elem_of_app; apply elem_of_app.
      * left. by apply Hcover.
      * right. subst y. by left.
Qed.

End Groups.

(** ** [buildAggregate]: the merged component versions and their order *)

Section Merge.

Lemma fold_left_concat {A} (ls : list (list A)) (acc : list A) :
  fold_left (λ a b, a ++ b) ls acc = acc ++ concat ls.
Proof.
  revert acc. induction ls as [|l ls IH]; intros acc; simpl.
  - by rewrite app_nil_r.
  - by rewrite IH, app_assoc.
Qed.

Lemma mergeGroup_fields_snoc group cv :
  Aggregate.fields (Aggregate.mergeGroup (group ++ [cv])) =
  Aggregate.assign (Aggregate.fields (Aggregate.mergeGroup group)) (Aggregate.omitFiles cv).
Proof. unfold Aggregate.mergeGroup. simpl. by rewrite map_app, fold_left_app. Qed.

Lemma assignProp_last {A B} (f : A → option B) (previous : option B) group x :
  previous = last (omap f group) →
  Aggregate.assignProp previous (f x) = last (omap f (group ++ [x])).
Proof.
  intros ->. rewrite omap_app, last_app. simpl.
  by destruct (f x).
Qed.

(** The name and the version of a merged component version are those of
    the last member of its group. *)
Lemma mergeGroup_name_version (group : list ComponentVersion.t) :
  Aggregate.name (Aggregate.fields (Aggregate.mergeGroup group)) =
    ComponentVersion.name <$> last group ∧
  Aggregate.version (Aggregate.fields (Aggregate.mergeGroup group)) =
    ComponentVersion.version <$> last group.
Proof.
  induction group as [|cv group _] using rev_ind; [done|].
  by rewrite mergeGroup_fields_snoc, last_snoc.
Qed.

(** What a merged component version is made of: the files of the members
    of its group, one member after the other, and for each other property
    the value of the last member that has it; every member has a name and a
    version, so these are the ones of the last member. *)
Theorem mergeGroup_last_write_wins (group : list ComponentVersion.t) :
  let merged := Aggregate.mergeGroup group in
  Aggregate.files merged = concat (ComponentVersion.files <$> group) ∧
  Aggregate.name (Aggregate.fields merged) = ComponentVersion.name <$> last group ∧
  Aggregate.version (Aggregate.fields merged) = ComponentVersion.version <$> last group ∧
  Aggregate.title (Aggregate.fields merged) = last (omap ComponentVersion.title group) ∧
  Aggregate.start_page (Aggregate.fields merged) =
    last (omap ComponentVersion.start_page group) ∧
  Aggregate.nav (Aggregate.fields merged) = last (omap ComponentVersion.nav group).
Proof.
  intros merged. split.
  { unfold merged, Aggregate.mergeGroup. simpl. by rewrite fold_left_concat. }
  unfold merged. clear merged. induction group as [|cv group IH] using rev_ind; [done|].
  destruct IH as (Hname & Hversion & Htitle & Hstart & Hnav).
  rewrite mergeGroup_fields_snoc, last_snoc. simpl.
  split; [done|]. split; [done|].
  split; [by apply assignProp_last|]. split; by apply assignProp_last.
Qed.

Lemma mergeGroup_key group key :
  group ≠ [] → Forall (λ cv, Aggregate.idOf cv = key) group →
  keyId (keyOf (Aggregate.mergeGroup group)) = key.
Proof.
  intros Hne Hall. destruct (mergeGroup_name_version group) as (Hname & Hversion).
  destruct group as [|cv group _] using rev_ind; [done|].
  rewrite last_snoc in Hname, Hversion. apply Forall_app in Hall as [_ [Hcv _]%Forall_cons].
  unfold keyId, keyOf. cbn [fst snd]. by rewrite Hname, Hversion.
Qed.

End Merge.

Section Sorting.

Lemma insertSorted_perm x sorted : Aggregate.insertSorted x sorted ≡ₚ x :: sorted.
Proof.
  induction sorted as [|y sorted IH]; [done|]. simpl.
  destruct (Aggregate.compareMultiple x y <? 0); [done|].
  rewrite IH. apply Permutation_swap.
Qed.

Lemma insertSorted_sorted x sorted :
  StronglySorted (λ a b, keyLt (keyOf a) (keyOf b)) sorted →
  Forall (λ y, keyOf x ≠ keyOf y) sorted →
  StronglySorted (λ a b, keyLt (keyOf a) (keyOf b)) (Aggregate.insertSorted x sorted).
Proof.
  induction 1 as [|y sorted Hsorted IH Hy]; intros Hkeys; simpl.
  { by repeat constructor. }
  apply Forall_cons in Hkeys as [Hxy Hkeys].
  destruct (Aggregate.compareMultiple x y <? 0) eqn:Hlt.
  - apply Z.ltb_lt, compareMultiple_lt in Hlt.
    constructor; [by constructor|]. constructor; [done|].
    eapply Forall_impl; [exact Hy|]. intros z Hz. simpl in Hz. by eapply keyLt_trans.
  - apply Z.ltb_ge in Hlt.
    assert (keyLt (keyOf y) (keyOf x)) as Hyx.
    { destruct (keyLt_total (keyOf x) (keyOf y)) as [H|[H|H]]; [|done|done].
      apply compareMultiple_lt in H. lia. }
    constructor; [by apply IH|].
    rewrite (insertSorted_perm x sorted). by constructor.
Qed.

Lemma sortBy_sorted l :
  NoDup (keyOf <$> l) →
  Aggregate.sortBy l ≡ₚ l ∧
  StronglySorted (λ a b, keyLt (keyOf a) (keyOf b)) (Aggregate.sortBy l).
Proof.
  unfold Aggregate.sortBy. induction l as [|x l IH] using rev_ind.
  { intros _. split; [done|constructor]. }
  rewrite fmap_app, fold_left_app. simpl. intros Hkeys.
  apply NoDup_app in Hkeys as (Hl & Hx & _). destruct (IH Hl) as [Hperm Hsorted].
  split.
  - rewrite insertSorted_perm, Hperm. by rewrite <-Permutation_cons_append.
  - apply insertSorted_sorted; [done|]. rewrite Hperm.
    apply Forall_forall. intros y Hy Heq. eapply Hx; [|by left].
    rewrite Heq. apply list_elem_of_fmap. by exists y.
Qed.

End Sorting.

(** ** [buildAggregate] *)

Section BuildAggregate.

(** The aggregate has one element for each id [version@name] of the input,
    merged from the component versions of that id in the order of the input,
    and its elements are in ascending order of their names and, for the
    same name, of their versions, both compared as strings. *)
Theorem buildAggregate_sorted (componentVersions : list (list (list ComponentVersion.t))) :
  let flat := Aggregate.flattenDepth2 componentVersions in
  let aggregate := Aggregate.buildAggregate componentVersions in
  StronglySorted (λ a b, keyLt (keyOf a) (keyOf b)) aggregate ∧
  (∀ a b, Aggregate.compareMultiple a b < 0 ↔ keyLt (keyOf a) (keyOf b)) ∧
  (∀ e, e ∈ aggregate ↔
        ∃ cv, cv ∈ flat ∧ e = Aggregate.mergeGroup (membersOf (Aggregate.idOf cv) flat)) ∧
  (∀ e, e ∈ aggregate → ∃ cv, cv ∈ flat ∧ keyOf e = (Some (ComponentVersion.name cv),
                                                    Some (ComponentVersion.version cv))).
Proof.
  intros flat aggregate. unfold aggregate, Aggregate.buildAggregate. fold flat.
  destruct (groupBy_groups Aggregate.idOf flat) as (Hkeys & Hgroups & Hcover).
  set (groups := Aggregate.groupBy Aggregate.idOf flat) in *.
  change (map ?f groups) with (f <$> groups).
  set (merged := (λ '(id, componentVersions), Aggregate.mergeGroup componentVersions)
                   <$> groups).
  assert (∀ e, e ∈ merged ↔
               ∃ cv, cv ∈ flat ∧
                     e = Aggregate.mergeGroup (membersOf (Aggregate.idOf cv) flat))
    as Hmembers.
  { intros e. unfold merged. rewrite list_elem_of_fmap. split.
    - intros ([key xs] & -> & Hin). destruct (Hgroups _ _ Hin) as [Hne Hxs].
      destruct xs as [|cv xs]; [done|].
      assert (cv ∈ filter (λ x, Aggregate.idOf x = key) flat) as [Hid Hcv]%list_elem_of_filter
        by (rewrite <-Hxs; by left).
      exists cv. split; [done|]. unfold membersOf. by rewrite Hid, <-Hxs.
    - intros (cv & Hcv & ->). apply Hcover, list_elem_of_fmap in Hcv as ([key xs] & Hkey & Hin).
      simpl in Hkey. subst key. exists (Aggregate.idOf cv, xs). split; [|done].
      destruct (Hgroups _ _ Hin) as [_ ->]. done. }
  assert (NoDup (keyOf <$> merged)) as Hdistinct.
  { apply (NoDup_fmap_1 keyId). unfold merged. rewrite <-!list_fmap_compose.
    assert ((keyId ∘ keyOf ∘ (λ '(id, componentVersions),
                                Aggregate.mergeGroup componentVersions)) <$> groups
            = groups.*1) as ->; [|done].
    apply Forall_fmap_ext. apply Forall_forall. intros [key xs] Hin. simpl.
    destruct (Hgroups _ _ Hin) as [Hne Hxs]. apply mergeGroup_key; [done|].
    rewrite Hxs. apply Forall_forall. by intros cv [? _]%list_elem_of_filter. }
  destruct (sortBy_sorted merged Hdistinct) as [Hperm Hsorted].
  split; [done|]. split; [apply compareMultiple_lt|]. split.
  - intros e. by rewrite Hperm.
  - intros e. rewrite Hperm. intros (cv & Hcv & ->)%Hmembers.
    destruct (mergeGroup_name_version (membersOf (Aggregate.idOf cv) flat))
      as (Hname & Hversion).
    assert (cv ∈ membersOf (Aggregate.idOf cv) flat) as Hmember
      by (by apply list_elem_of_filter).
    destruct (membersOf (Aggregate.idOf cv) flat) as [|cv' group _] eqn:Hgroup using rev_ind.
    { by apply elem_of_nil in Hmember. }
    rewrite last_snoc in Hname, Hversion. exists cv'. split.
    + assert (cv' ∈ membersOf (Aggregate.idOf cv) flat) as [_ ?]%list_elem_of_filter; [|done].
      rewrite Hgroup. apply elem_of_app. right. by left.
    + unfold keyOf. by rewrite Hname, Hversion.
Qed.

End BuildAggregate.

(** ** [computePub]: the URL of a page *)

Section PageUrl.

(** The last of the segments of a path, and the segments with another
    last one. *)
Lemma last_segment {A} (directories : list A) (basename x : A) :
  (directories ++ [basename]) !! (length (directories ++ [basename]) - 1)%nat
    = Some basename ∧
  <[(length (directories ++ [basename]) - 1)%nat := x]> (directories ++ [basename])
    = directories ++ [x].
Proof.
  rewrite length_app. cbn [length].
  replace (length directories + 1 - 1)%nat with (length directories + 0)%nat by lia.
  rewrite lookup_app_r, insert_app_r by lia.
  by replace (length directories + 0 - length directories)%nat with 0%nat by lia.
Qed.

(** The URL of a page is made from the output path of the page: it is the
    path after a [/] as it is, or, when the style is [drop], without the
    extension [.html] of its last segment and without a last segment
    [index.html], or, when the style is [indexify], without its last
    segment, so that the URL ends with [/]. *)
Theorem computePub_page_url (src : Src.t) (out : Out.t) (style : string)
    (directories : list string) (basename : string)
    (Hpath : Out.path out = JS.join "/" (directories ++ [basename]))
    (Hsegments : Forall (λ segment, countChar "/" segment = 0%nat)
                   (directories ++ [basename])) :
  computePub src (Some out) (Some "page") style =
  Ok (Pub.mk
        ("/" +:+ JS.join "/"
           (directories ++
            [if bool_decide (style = "drop") then
               if bool_decide (basename = "index.html") then ""
               else JS.substr basename 0 (JS.len basename - 5)
             else if bool_decide (style = "indexify") then ""
             else basename]))
        (Some (Out.moduleRootPath out)) (Some (Out.rootPath out)) None).
Proof.
  unfold computePub.
  change (JS.isStr (Some "page") "navigation") with false.
  change (JS.isStr (Some "page") "page") with true.
  cbn [defined bindR]. cbv zeta.
  rewrite Hpath, split_join by (done || by destruct directories).
  rewrite (proj1 (last_segment directories basename "")).
  cbn [default]. repeat case_bool_decide;
    by rewrite ?(proj2 (last_segment directories basename _)).
Qed.

End PageUrl.

Lemma computePub_page_url_witness :
  ∃ pub,
    computePub introSrc
      (Some (Out.mk "docs/1.0" "intro.html" "docs/1.0/intro.html" "." "../.."))
      (Some "page") "drop" = Ok pub ∧
    Pub.url pub = "/docs/1.0/intro".
Proof.
  eexists. split.
  - apply (computePub_page_url introSrc _ "drop" ["docs"; "1.0"] "intro.html").
    + reflexivity.
    + by repeat constructor.
  - reflexivity.
Defined.

(** ** [expandPageSrc]: the name of the file *)

Section ExpandPageSrc.

Lemma rev_involutive s : String.rev (String.rev s) = s.
Proof.
  induction s as [|a s IH]; [done|]. by rewrite rev_cons, rev_append, IH.
Qed.

Lemma length_rev s : String.length (String.rev s) = String.length s.
Proof.
  induction s as [|a s IH]; [done|]. rewrite rev_cons, length_append, IH. simpl. lia.
Qed.

Lemma takeWhile_dropWhile p s : s = Path.takeWhile p s +:+ Path.dropWhile p s.
Proof.
  induction s as [|a s IH]; [done|]. simpl. destruct (p a); [|done].
  by rewrite append_cons, <-IH.
Qed.

Lemma dropWhile_head p s :
  match Path.dropWhile p s with String a _ => p a = false | EmptyString => True end.
Proof.
  induction s as [|a s IH]; [done|]. simpl. by destruct (p a) eqn:Ha.
Qed.

Lemma length_dropWhile p s : (String.length (Path.dropWhile p s) ≤ String.length s)%nat.
Proof. induction s as [|a s IH]; [done|]. simpl. destruct (p a); simpl; lia. Qed.

Lemma length_takeWhile p s : (String.length (Path.takeWhile p s) ≤ String.length s)%nat.
Proof. induction s as [|a s IH]; [done|]. simpl. destruct (p a); simpl; lia. Qed.

Lemma length_basename p : (String.length (Path.basename p) ≤ String.length p)%nat.
Proof.
  unfold Path.basename. rewrite length_rev.
  etrans; [apply length_takeWhile|]. etrans; [apply length_dropWhile|].
  by rewrite length_rev.
Qed.

Lemma stripPrefix_append a b : JS.stripPrefix a (a +:+ b) = Some b.
Proof.
  induction a as [|x a IH]; [by destruct b|]. rewrite append_cons. simpl.
  by rewrite Ascii.eqb_refl.
Qed.

(** The extension of a path is the end of its last segment, after a name
    that is not empty. *)
Lemma extname_basename p :
  Path.extname p = "" ∨
  ∃ name, name ≠ "" ∧ Path.basename p = name +:+ Path.extname p.
Proof.
  unfold Path.extname. set (base := Path.basename p).
  set (rext := Path.takeWhile (λ c, negb (Ascii.eqb c ".")) (String.rev base)).
  repeat (case_bool_decide; [by left|]). right.
  pose proof (takeWhile_dropWhile (λ c, negb (Ascii.eqb c ".")) (String.rev base)) as Hsplit.
  pose proof (dropWhile_head (λ c, negb (Ascii.eqb c ".")) (String.rev base)) as Hhead.
  fold rext in Hsplit.
  destruct (Path.dropWhile _ (String.rev base)) as [|dot rest].
  { rewrite append_nil_r in Hsplit. apply (f_equal String.length) in Hsplit.
    rewrite length_rev in Hsplit. congruence. }
  apply negb_false_iff, Ascii.eqb_eq in Hhead as ->.
  assert (base = String.rev rest +:+ "." +:+ String.rev rext) as Hbase.
  { rewrite <-(rev_involutive base), Hsplit, rev_append, rev_cons.
    by rewrite append_assoc. }
  exists (String.rev rest). split; [|done].
  intros Hnil. apply (f_equal String.length) in Hnil, Hsplit.
  rewrite length_rev in Hnil, Hsplit. rewrite length_append in Hsplit. simpl in *.
  destruct rest; [|done]. simpl in Hsplit. lia.
Qed.

(** The stem and the extension that [expandPageSrc] gives a page make up
    its base name, which is the last segment of its relative path; the
    family and the media type are the ones of a page, and the coordinates
    stay as they are. *)
Theorem expandPageSrc_names (src expanded : Src.t) (family : string)
    (Hexpanded : expandPageSrc src family = Ok expanded) :
  ∃ relative,
    Src.relative src = Some relative ∧ Src.relative expanded = Some relative ∧
    Src.basename expanded = Some (Path.basename relative) ∧
    JS.str (Src.stem expanded) +:+ JS.str (Src.extname expanded) = Path.basename relative ∧
    Src.family expanded = Some family ∧
    Src.mediaType expanded = Some "text/asciidoc" ∧
    Src.component expanded = Src.component src ∧
    Src.version expanded = Src.version src ∧
    Src.module expanded = Src.module src.
Proof.
  unfold expandPageSrc in Hexpanded.
  destruct (Src.relative src) as [relative|]; [|done]. simpl in Hexpanded.
  injection Hexpanded as <-. exists relative. simpl. repeat split.
  unfold Path.basenameExt.
  destruct (extname_basename relative) as [->|(name & Hname & Hbase)].
  { by rewrite append_nil_r. }
  set (ext := Path.extname relative) in *. clearbody ext.
  pose proof (length_basename relative) as Hlength.
  pose proof (f_equal String.length Hbase) as Hlen. rewrite length_append in Hlen.
  assert (String.length name ≠ 0%nat) as Hname' by (by destruct name).
  destruct (decide (ext = "")) as [Hnil|Hext].
  { rewrite Hnil, bool_decide_eq_true_2 by done. simpl. by rewrite append_nil_r. }
  rewrite bool_decide_eq_false_2 by done.
  rewrite (proj2 (Nat.leb_le _ _)) by lia. simpl.
  rewrite bool_decide_eq_false_2
    by (intros Heq; apply (f_equal String.length) in Heq; lia).
  rewrite Hbase at 1. rewrite rev_append, stripPrefix_append.
  rewrite bool_decide_eq_false_2.
  - by rewrite rev_involutive.
  - intros Hnil. apply (f_equal String.length) in Hnil. rewrite length_rev in Hnil. done.
Qed.

End ExpandPageSrc.

Lemma expandPageSrc_names_witness :
  ∃ expanded,
    expandPageSrc (pageId (Some "docs") (Some "2.0") (Some "cli") "topic/page.adoc") "page"
    = Ok expanded ∧
    Src.basename expanded = Some "page.adoc" ∧
    JS.str (Src.stem expanded) +:+ JS.str (Src.extname expanded) = "page.adoc".
Proof.
  eexists. split; [reflexivity|].
  destruct (expandPageSrc_names
              (pageId (Some "docs") (Some "2.0") (Some "cli") "topic/page.adoc") _ "page"
              eq_refl) as (relative & Hrelative & _ & Hbase & Hnames & _).
  injection Hrelative as <-. split; [exact Hbase|exact Hnames].
Defined.

(** ** [formatProgressBar]: the width of the label *)

Section ProgressBar.

Lemma length_repeat_space n : String.length (repeatString " " n) = n.
Proof.
  induction n as [|n IH]; [done|]. cbn [repeatString]. by rewrite length_append, IH.
Qed.

Lemma length_drop n s : String.length (JS.drop n s) = (String.length s - n)%nat.
Proof.
  revert s. induction n as [|n IH]; intros s; simpl; [lia|].
  destruct s as [|a s]; [done|]. simpl. apply IH.
Qed.

Lemma take_drop_string n s : s = JS.take n s +:+ JS.drop n s.
Proof.
  revert s. induction n as [|n IH]; intros s; simpl; [by destruct s|].
  destruct s as [|a s]; [done|]. rewrite append_cons. by rewrite <-IH.
Qed.

(** The labels of the progress bars have one width: a label that is
    shorter than [maxLabelWidth] is filled up with spaces, and one that is
    longer keeps its end, after three dots.  Only for a width of less than
    three characters a longer label, which is cut down to the dots, does not
    fit. *)
Theorem formatProgressBar_width (label : string) (maxLabelWidth : Z) (operation : string)
    (Hwidth : 3 ≤ maxLabelWidth ∨ JS.len label ≤ maxLabelWidth) :
  ∃ shown,
    formatProgressBar label maxLabelWidth operation =
      "[" +:+ operation +:+ "] " +:+ shown +:+ " [:bar]" ∧
    JS.len shown = maxLabelWidth ∧
    (JS.len label ≤ maxLabelWidth →
     shown = label +:+ repeatString " " (Z.to_nat (maxLabelWidth - JS.len label))) ∧
    (maxLabelWidth < JS.len label →
     ∃ cut kept, label = cut +:+ kept ∧ shown = "..." +:+ kept).
Proof.
  unfold formatProgressBar, JS.len in *. cbv zeta.
  destruct (Z.ltb_spec (maxLabelWidth - Z.of_nat (String.length label)) 0) as [Hlong|Hfits].
  - destruct Hwidth as [Hwidth|Hwidth]; [|lia].
    set (start := Z.to_nat (- (maxLabelWidth - Z.of_nat (String.length label)) + 3)).
    exists ("..." +:+ JS.drop start label). unfold JS.substrFrom. fold start.
    split; [by rewrite append_nil_l|]. split.
    { rewrite length_append, length_drop. simpl. unfold start. lia. }
    split; [lia|]. intros _. exists (JS.take start label), (JS.drop start label).
    split; [apply take_drop_string|done].
  - exists (label +:+ repeatString " " (Z.to_nat (maxLabelWidth - Z.of_nat (String.length label)))).
    split.
    { destruct (Z.eqb_spec (maxLabelWidth - Z.of_nat (String.length label)) 0) as [->|Hne];
        simpl; [|by rewrite !append_assoc].
      by rewrite append_nil_r, append_nil_l. }
    split; [rewrite length_append, length_repeat_space; lia|].
    split; [done|lia].
Qed.

End ProgressBar.

Lemma formatProgressBar_width_witness :
  formatProgressBar "docs" 8 "clone" = "[clone] docs     [:bar]" ∧
  formatProgressBar "github.com/org/docs" 8 "clone" = "[clone] .../docs [:bar]".
Proof.
  split.
  - destruct (formatProgressBar_width "docs" 8 "clone") as (shown & -> & _ & Hshown & _);
      [left; lia|].
    rewrite Hshown by (by vm_compute). reflexivity.
  - destruct (formatProgressBar_width "github.com/org/docs" 8 "clone")
      as (shown & Hbar & Hlen & _ & Hshown); [left; lia|].
    reflexivity.
Defined.

(** ** [addComponentVersion]: what it adds *)

Section AddedVersion.
Variable cwd : string.
Variable versionCompare : string → string → Z.

Lemma insertDescending_split version versions :
  ∃ before after,
    versions = before ++ after ∧
    insertDescending versionCompare version versions = before ++ version :: after ∧
    Forall (λ candidate, versionCompare candidate version ≤ 0) before ∧
    match after with
    | [] => True
    | next :: _ => 0 < versionCompare next version
    end.
Proof.
  induction versions as [|candidate versions IH]; simpl.
  - by exists [], [].
  - destruct (Z.ltb_spec 0 (versionCompare candidate version)) as [Hlt|Hge].
    + by exists [], (candidate :: versions).
    + destruct IH as (before & after & -> & -> & Hbefore & Hafter).
      exists (candidate :: before), after. repeat split; [by constructor|done].
Qed.

(** A call of [addComponentVersion] that returns has added the version to
    the versions of the component, in front of the first version that
    [versionCompare] puts after it, and has kept the versions that the
    component had, in their order.  The component did not have the version.
    The other components, the files of the catalog and the file objects are
    as before. *)
Theorem addComponentVersion_adds (name version : string) (title startPageSpec : JS.value)
    (st st' : State)
    (Hst : catalogOk versionCompare st)
    (Hadd : addComponentVersion cwd versionCompare name version title startPageSpec st
            = (Ok tt, st')) :
  (∃ before after,
     versionsOf st name = before ++ after ∧
     versionsOf st' name = before ++ version :: after ∧
     Forall (λ candidate, versionCompare candidate version ≤ 0) before ∧
     match after with
     | [] => True
     | next :: _ => 0 < versionCompare next version
     end) ∧
  (version ∉ versionsOf st name) ∧
  (∀ other, other ≠ name →
            ContentCatalog.components (catalog st') !! other =
            ContentCatalog.components (catalog st) !! other) ∧
  ContentCatalog.files (catalog st') = ContentCatalog.files (catalog st) ∧
  heap st' = heap st.
Proof.
  assert (version ∉ versionsOf st name) as Hnew.
  { intros Hin. rewrite (addComponentVersion_duplicate cwd versionCompare _ _ _ _ _ Hst Hin)
      in Hadd. done. }
  pose proof Hadd as [Hheap Hfiles]%addComponentVersion_files.
  rewrite addComponentVersion_run in Hadd.
  destruct (startPageUrl _ _ _ _ _).1 as [url|e]; [|done]. cbv zeta in Hadd.
  destruct (insertDescending_split version (versionsOf st name))
    as (before & after & Hsplit & Hinsert & Hbefore & Hafter).
  assert (versionsOf st' name = insertDescending versionCompare version (versionsOf st name) ∧
          ∀ other, other ≠ name →
                   ContentCatalog.components (catalog st') !! other =
                   ContentCatalog.components (catalog st) !! other) as [Hversions Hothers].
  { unfold versionsOf in *.
    destruct (ContentCatalog.components (catalog st) !! name) as [component|] eqn:Hc.
    - destruct (insertVersion _ _ _ _ _ _) as [component'|e] eqn:Hinserted; [|done].
      injection Hadd as <-. simpl. rewrite lookup_insert_eq. split.
      + by eapply insertVersion_versions.
      + intros other Hother. by rewrite lookup_insert_ne.
    - injection Hadd as <-. simpl. rewrite lookup_insert_eq. split; [done|].
      intros other Hother. by rewrite lookup_insert_ne. }
  split; [|done]. exists before, after. by rewrite Hversions.
Qed.

End AddedVersion.

Lemma addComponentVersion_adds_witness :
  let st := runCalls "/work" versionCompareDesc
              [mkCall "docs" "2.0" None None; mkCall "docs" "1.0" None None] emptyState in
  ∃ st', addComponentVersion "/work" versionCompareDesc "docs" "1.5" (Some "Docs") None st
         = (Ok tt, st') ∧
         ("1.5" ∈ versionsOf st' "docs") ∧ ("1.5" ∉ versionsOf st "docs").
Proof.
  intros st.
  assert (∃ st', addComponentVersion "/work" versionCompareDesc "docs" "1.5" (Some "Docs")
                   None st = (Ok tt, st')) as [st' Hadd]
    by (eexists; vm_compute; reflexivity).
  exists st'. split; [done|].
  assert (catalogOk versionCompareDesc st) as Hst.
  { apply runCalls_ok; [apply versionCompareDesc_antisym|apply versionCompareDesc_trans|].
    intros name c. simpl. by rewrite lookup_empty. }
  destruct (addComponentVersion_adds "/work" versionCompareDesc "docs" "1.5" (Some "Docs")
              None st st' Hst Hadd)
    as ((before & after & _ & -> & _) & Hnew & _).
  split; [|done]. apply elem_of_app. right. by left.
Defined.

(** ** [computeOut]: where a file goes *)

Section OutputPath.

Lemma plain_join_nonempty l : Forall plainSegment l → l ≠ [] → JS.join "/" l ≠ "".
Proof.
  intros Hl Hne. destruct l as [|x l]; [done|]. apply Forall_cons in Hl as [Hx _].
  by destruct (join_plain_first x l Hx) as (a & t & -> & _).
Qed.

Lemma join_concat_split args :
  JS.join "/" args = JS.join "/" (concat ((λ a, JS.split a "/") <$> args)).
Proof.
  induction args as [|a [|b args] IH]; [done| |].
  - simpl. by rewrite app_nil_r, join_split.
  - rewrite join_cons, IH. rewrite (fmap_cons _ a). cbn [concat].
    set (rest := concat ((λ a, JS.split a "/") <$> b :: args)).
    assert (rest ≠ []) as Hrest.
    { unfold rest. rewrite fmap_cons. cbn [concat].
      pose proof (splitGo_nonempty "/" "" b) as Hb. unfold JS.split.
      by destruct (JS.splitGo "/" "" b). }
    rewrite join_app; [|apply splitGo_nonempty|done].
    by rewrite join_split.
Qed.

Lemma split_plain l : Forall plainSegment l → l ≠ [] → JS.split (JS.join "/" l) "/" = l.
Proof.
  intros Hl Hne. apply split_join; [done|]. eapply Forall_impl; [exact Hl|].
  by intros s [? _].
Qed.

Lemma normalizeSegments_argument b a l stack :
  segmentsOf a l →
  Path.normalizeSegments b (JS.split a "/") stack = rev l ++ stack.
Proof.
  intros [Hl [->|[-> ->]]]; [|done].
  destruct l as [|x l]; [done|].
  rewrite split_plain by done. by apply normalizeSegments_plain.
Qed.

Lemma segmentsOf_empty l : segmentsOf "" l → l = [].
Proof.
  intros [Hl [Hj|[? _]]]; [|done]. destruct l as [|x l]; [done|].
  by destruct (plain_join_nonempty (x :: l)).
Qed.

Lemma normalizeSegments_arguments b args parts stack :
  Forall2 segmentsOf args parts →
  Path.normalizeSegments b
    (concat ((λ a, JS.split a "/") <$> filter (λ a, a ≠ "") args)) stack =
  rev (concat parts) ++ stack.
Proof.
  intros Hall. revert stack.
  induction Hall as [|a l args parts Ha _ IH]; intros stack; [done|].
  rewrite filter_cons. cbn [concat]. rewrite rev_app_distr, <-app_assoc.
  destruct (decide (a ≠ "")) as [Hne|Hnil].
  - rewrite fmap_cons. cbn [concat].
    by rewrite normalizeSegments_app, (normalizeSegments_argument b a l), IH.
  - apply dec_stable in Hnil as ->. apply segmentsOf_empty in Ha as ->. apply IH.
Qed.

Lemma arguments_segments args parts :
  Forall2 segmentsOf args parts →
  Forall (λ s, countChar "/" s = 0%nat ∧ s ≠ "")
    (concat ((λ a, JS.split a "/") <$> filter (λ a, a ≠ "") args)).
Proof.
  induction 1 as [|a l args parts Ha _ IH]; [done|].
  rewrite filter_cons. destruct (decide (a ≠ "")) as [Hne|Hnil]; [|done].
  rewrite fmap_cons. cbn [concat]. apply Forall_app. split; [|done].
  destruct Ha as [Hl [->|[-> ->]]].
  - destruct l as [|x l]; [done|]. rewrite split_plain by done.
    eapply Forall_impl; [exact Hl|]. by intros s (? & ? & _).
  - by repeat constructor.
Qed.

Lemma lastChar_no_sep s :
  countChar "/" s = 0%nat → s ≠ "" →
  ∃ c, lastChar s = Some c ∧ Path.isSep c = false.
Proof.
  induction s as [|a s IH]; [done|]. intros Hs _. simpl in Hs.
  destruct (Ascii.eqb a "/") eqn:Ha; [done|].
  destruct s as [|b s]; [by exists a|]. by apply IH.
Qed.

Lemma join_ends S :
  S ≠ [] → Forall (λ s, countChar "/" s = 0%nat ∧ s ≠ "") S →
  JS.join "/" S ≠ "" ∧ Path.isAbsolute (JS.join "/" S) = false ∧
  Path.endsWithSep (JS.join "/" S) = false.
Proof.
  intros Hne Hall.
  assert (∃ a t, JS.join "/" S = String a t ∧ Path.isSep a = false) as (a & t & Hj & Ha).
  { destruct S as [|x S]; [done|]. apply Forall_cons in Hall as [[Hx Hxne] _].
    destruct x as [|a x]; [done|]. simpl in Hx. unfold Path.isSep.
    destruct (Ascii.eqb a "/") eqn:E; [done|].
    destruct S as [|y S]; [by exists a, x|].
    rewrite join_cons, append_cons. by eexists _, _. }
  split; [by rewrite Hj|]. split; [by rewrite Hj|].
  rewrite endsWithSep_lastChar.
  destruct (exists_last Hne) as (S' & s & ->).
  apply Forall_app in Hall as [_ [[Hs Hsne] _]%Forall_cons].
  rewrite join_last_segment by done.
  by destruct (lastChar_no_sep s Hs Hsne) as (c & -> & ->).
Qed.

(** [path.join] of arguments that stand for plain directories is the path
    of all these directories. *)
Lemma join_arguments args parts :
  Forall2 segmentsOf args parts → Path.join args = pathOf (concat parts).
Proof.
  intros Hall. unfold Path.join.
  pose proof (normalizeSegments_arguments true args parts [] Hall) as Hnormal.
  pose proof (arguments_segments args parts Hall) as Hsegments.
  assert (Forall plainSegment (concat parts)) as Hplain.
  { apply Forall_concat. eapply Forall2_Forall_r; [exact Hall|].
    apply Forall_true. by intros a l [? _]. }
  destruct (filter (λ a, a ≠ "") args) as [|a args'] eqn:Hfilter.
  { simpl in Hnormal. rewrite app_nil_r in Hnormal.
    apply (f_equal (@rev string)) in Hnormal. rewrite List.rev_involutive in Hnormal.
    by rewrite <-Hnormal. }
  rewrite app_nil_r in Hnormal.
  set (S := concat ((λ a, JS.split a "/") <$> a :: args')) in *.
  assert (S ≠ []) as HS.
  { unfold S. rewrite fmap_cons. cbn [concat].
    pose proof (splitGo_nonempty "/" "" a) as Hb. unfold JS.split.
    by destruct (JS.splitGo "/" "" a). }
  rewrite (join_concat_split (a :: args')). fold S.
  destruct (join_ends S HS Hsegments) as (Hne & Habs & Hsep).
  unfold Path.normalize. rewrite bool_decide_eq_false_2 by done.
  rewrite Habs, Hsep. cbn [negb]. unfold Path.normalizeString.
  rewrite split_join; [|done|by eapply Forall_impl; [exact Hsegments|]; intros s [? _]].
  rewrite Hnormal, List.rev_involutive.
  destruct (concat parts) as [|x l] eqn:Hparts; [done|].
  rewrite bool_decide_eq_false_2; [done|]. by apply plain_join_nonempty.
Qed.

End OutputPath.
Section OutputLayout.
Variable cwd : string.

Lemma countChar_rev c s : countChar c (String.rev s) = countChar c s.
Proof.
  induction s as [|a s IH]; [done|]. rewrite rev_cons, countChar_append, IH. simpl.
  destruct (Ascii.eqb a c); lia.
Qed.

Lemma dropWhile_isSep_none s : countChar "/" s = 0%nat → Path.dropWhile Path.isSep s = s.
Proof.
  destruct s as [|a s]; [done|]. simpl. unfold Path.isSep.
  by destruct (Ascii.eqb a "/").
Qed.

Lemma dropWhile_segment s t :
  countChar "/" s = 0%nat →
  Path.dropWhile (λ c, negb (Path.isSep c)) (s +:+ t) =
  Path.dropWhile (λ c, negb (Path.isSep c)) t.
Proof.
  induction s as [|a s IH]; [done|]. intros Hs. rewrite append_cons. simpl in *.
  unfold Path.isSep at 1. destruct (Ascii.eqb a "/"); [done|]. by apply IH.
Qed.

(** [path.dirname] of a relative path of plain segments is the path
    without its last segment. *)
Lemma dirname_segments dirs file :
  Forall plainSegment dirs → plainSegment file →
  Path.dirname (JS.join "/" (dirs ++ [file])) = pathOf dirs.
Proof.
  intros Hdirs (Hfile & Hne & _). destruct dirs as [|d dirs].
  - destruct file as [|a rest]; [done|]. simpl in Hfile. cbn [app JS.join Path.dirname].
    unfold Path.isSep. destruct (Ascii.eqb a "/") eqn:Ha; [done|].
    rewrite dropWhile_isSep_none by (by rewrite countChar_rev).
    rewrite <-(append_nil_r (String.rev rest)).
    rewrite dropWhile_segment by (by rewrite countChar_rev). done.
  - pose proof Hdirs as [Hd _]%Forall_cons.
    destruct (join_plain_first d dirs Hd) as (a & D & HD & Ha).
    rewrite join_app by done. change (JS.join "/" [file]) with file.
    unfold pathOf. rewrite HD, append_cons.
    assert (Path.dropWhile (λ c, negb (Path.isSep c))
              (Path.dropWhile Path.isSep (String.rev (D +:+ "/" +:+ file))) =
            String "/" (String.rev D)) as Hrest.
    { change ("/" +:+ file) with (String "/" file).
      rewrite rev_append, rev_cons, append_assoc.
      change (String "/" "" +:+ String.rev D) with (String "/" (String.rev D)).
      assert (countChar "/" (String.rev file) = 0%nat) as Hrev
        by (by rewrite countChar_rev).
      destruct (String.rev file) as [|b rfile] eqn:Hb.
      { apply (f_equal String.length) in Hb. rewrite length_rev in Hb.
        by destruct file. }
      rewrite append_cons. cbn [Path.dropWhile].
      replace (Path.isSep b) with false
        by (simpl in Hrev; unfold Path.isSep; by destruct (Ascii.eqb b "/")).
      rewrite <-append_cons, dropWhile_segment by done. done. }
    cbn [Path.dirname]. rewrite Hrest. cbn [String.length].
    rewrite length_rev. rewrite bool_decide_eq_false_2 by done.
    replace (Path.isSep a) with false
      by (unfold Path.isSep; symmetry; by apply Ascii.eqb_neq).
    cbn [andb JS.take]. by rewrite take_append.
Qed.

(** [path.resolve] of a relative path of plain segments: the segments,
    below the working directory. *)
Lemma resolveSegments_plain l :
  Forall plainSegment l →
  Path.resolveSegments cwd (JS.join "/" l) =
  rev (Path.normalizeSegments false (JS.split cwd "/") []) ++ l.
Proof.
  intros Hl. unfold Path.resolveSegments.
  assert (Path.isAbsolute (JS.join "/" l) = false) as ->.
  { destruct l as [|x l]; [done|]. apply Forall_cons in Hl as [Hx _].
    destruct (join_plain_first x l Hx) as (a & t & -> & Ha). simpl.
    unfold Path.isSep. by apply Ascii.eqb_neq. }
  assert (JS.split (cwd +:+ "/" +:+ JS.join "/" l) "/" =
          JS.split cwd "/" ++ (if bool_decide (l = []) then [""] else l)) as ->.
  { rewrite <-(join_split cwd) at 1.
    replace (JS.join "/" l)
      with (JS.join "/" (if bool_decide (l = []) then [""] else l))
      by (by destruct l).
    rewrite <-join_app; [|apply splitGo_nonempty|by destruct l].
    apply split_join.
    - pose proof (splitGo_nonempty "/" "" cwd). unfold JS.split.
      by destruct (JS.splitGo "/" "" cwd).
    - apply Forall_app. split; [apply split_segments|].
      case_bool_decide; [by repeat constructor|].
      eapply Forall_impl; [exact Hl|]. by intros s [? _]. }
  rewrite normalizeSegments_app. case_bool_decide as Hnil.
  - subst l. simpl. by rewrite app_nil_r.
  - by rewrite normalizeSegments_plain, rev_app_distr, List.rev_involutive.
Qed.

Lemma stripCommon_app l a b :
  Path.stripCommon (l ++ a) (l ++ b) = Path.stripCommon a b.
Proof.
  induction l as [|x l IH]; [done|]. simpl. by rewrite bool_decide_eq_true_2.
Qed.

(** [path.relative] from a directory to one that it lies in: one [..] for
    each directory in between. *)
Lemma relative_up base extra :
  Forall plainSegment base → Forall plainSegment extra →
  Path.relative cwd (JS.join "/" (base ++ extra)) (JS.join "/" base) =
  JS.join "/" (replicate (length extra) "..").
Proof.
  intros Hbase Hextra. unfold Path.relative.
  assert (Forall plainSegment (base ++ extra)) as Hall by (by apply Forall_app).
  case_bool_decide as Heq.
  - destruct extra as [|x extra]; [done|]. exfalso.
    destruct base as [|y base].
    + simpl in Heq. by destruct (plain_join_nonempty (x :: extra)).
    + apply (f_equal (λ s, JS.split s "/")) in Heq.
      rewrite !split_plain in Heq by done.
      apply (f_equal length) in Heq. rewrite length_app in Heq. simpl in Heq. lia.
  - rewrite !resolveSegments_plain by done.
    rewrite <-(app_nil_r (rev _ ++ base)), <-!app_assoc, !stripCommon_app.
    replace (Path.stripCommon extra []) with (extra, @nil string) by (by destruct extra).
    rewrite app_nil_r. f_equal. clear. induction extra as [|x l IH]; [done|].
    simpl. by rewrite IH.
Qed.

End OutputLayout.
Section ComputeOut.
Variable cwd : string.

Ltac plain_segments :=
  repeat first [apply Forall_nil_2 | apply Forall_cons_2; [done|]].

Lemma segmentsOf_join l : Forall plainSegment l → segmentsOf (JS.join "/" l) l.
Proof. intros Hl. split; [done|by left]. Qed.

Lemma segmentsOf_pathOf l : Forall plainSegment l → segmentsOf (pathOf l) l.
Proof. intros Hl. split; [done|]. destruct l; [by right|by left]. Qed.

Lemma segmentsOf_segment s : plainSegment s → segmentsOf s [s].
Proof. intros Hs. apply (segmentsOf_join [s]). plain_segments. Qed.

Lemma plain_html stem : countChar "/" stem = 0%nat → plainSegment (stem +:+ ".html").
Proof.
  intros Hstem. split; [by rewrite countChar_append, Hstem|].
  repeat split; intros Heq; apply (f_equal String.length) in Heq;
    rewrite length_append in Heq; simpl in Heq; lia.
Qed.

Lemma moduleSegments_plain component version module :
  plainSegment component → plainSegment version → plainSegment module →
  Forall plainSegment (moduleSegments component version module).
Proof. intros. unfold moduleSegments. repeat case_bool_decide; plain_segments. Qed.

Lemma familySegments_plain family : Forall plainSegment (familySegments family).
Proof.
  unfold familySegments.
  repeat match goal with |- context [JS.isStr ?a ?b] => destruct (JS.isStr a b) end;
    plain_segments.
Qed.

Lemma wayUp_relative base extra :
  Forall plainSegment base → Forall plainSegment extra →
  JS.str (JS.orElse (Some (Path.relative cwd (JS.join "/" (base ++ extra))
                             (JS.join "/" base))) (Some ".")) =
  wayUp extra.
Proof.
  intros Hbase Hextra. rewrite relative_up by done.
  destruct extra as [|x extra]; [done|]. unfold JS.orElse.
  rewrite truthy_Some; [done|]. simpl. by destruct (replicate (length extra) "..").
Qed.

(** [path.join(component, version, module)], where the version is empty
    for [master] and the module for [ROOT]. *)
Lemma modulePath_segments component version module :
  plainSegment component → plainSegment version → plainSegment module →
  Path.joinValues
    [(Some component : JS.value);
     if JS.isStr (Some version) "master" then Some "" else Some version;
     if JS.isStr (Some module) "ROOT" then Some "" else Some module] =
  Some (JS.join "/" (moduleSegments component version module)).
Proof.
  intros Hc Hv Hm. unfold JS.isStr.
  rewrite (bool_decide_ext (Some version = Some "master") (version = "master"))
    by naive_solver.
  rewrite (bool_decide_ext (Some module = Some "ROOT") (module = "ROOT"))
    by naive_solver.
  transitivity (Some (Path.join
    [component; if bool_decide (version = "master") then "" else version;
     if bool_decide (module = "ROOT") then "" else module])).
  { by repeat case_bool_decide. }
  f_equal.
  rewrite (join_arguments _
    [[component]; if bool_decide (version = "master") then [] else [version];
     if bool_decide (module = "ROOT") then [] else [module]]).
  - unfold moduleSegments. simpl. by rewrite app_nil_r.
  - repeat first [apply Forall2_nil_2 | apply Forall2_cons_2];
      [by apply segmentsOf_segment|..]; case_bool_decide;
      (by apply (segmentsOf_join []) || by apply segmentsOf_segment).
Qed.

(** [path.join(modulePath, familyPathSegment, path.dirname(relative),
    indexifyPathSegment)]. *)
Lemma directory_segments M family dirs file indexify :
  Forall plainSegment M → M ≠ [] → Forall plainSegment dirs → plainSegment file →
  Forall plainSegment indexify →
  Path.join [JS.join "/" M; JS.join "/" (familySegments family);
             Path.dirname (JS.join "/" (dirs ++ [file])); JS.join "/" indexify] =
  JS.join "/" (M ++ familySegments family ++ dirs ++ indexify).
Proof.
  intros HM Hne Hdirs Hfile Hindexify. rewrite dirname_segments by done.
  rewrite (join_arguments _ [M; familySegments family; dirs; indexify]).
  - cbn [concat]. rewrite app_nil_r. unfold pathOf.
    by destruct (M ++ _) eqn:E; [destruct M|].
  - repeat first [apply Forall2_nil_2 | apply Forall2_cons_2];
      [by apply segmentsOf_join|apply segmentsOf_join, familySegments_plain|
       by apply segmentsOf_pathOf|by apply segmentsOf_join].
Qed.

(** [path.join(dirname, basename)]. *)
Lemma file_segments D name :
  Forall plainSegment D → D ≠ [] → plainSegment name →
  Path.join [JS.join "/" D; name] = JS.join "/" (D ++ [name]).
Proof.
  intros HD Hne Hname. rewrite (join_arguments _ [D; [name]]).
  - cbn [concat]. rewrite app_nil_r. unfold pathOf.
    by destruct (D ++ [name]) eqn:E; [destruct D|].
  - repeat first [apply Forall2_nil_2 | apply Forall2_cons_2];
      [by apply segmentsOf_join|by apply segmentsOf_segment].
Qed.

(** [computeOut] puts a file below the directories of its component, of
    its version unless that is [master] and of its module unless that is
    [ROOT]: an image below [_images] and an attachment below
    [_attachments], then in the directories of its relative path, and a
    page that is indexified in a directory named after it, as
    [index.html].  [moduleRootPath] is the way up from the directory of
    the file to the directory of the module and [rootPath] the way up to
    the root, one [..] for each directory. *)
Theorem computeOut_layout (src : Src.t) (family : JS.value) (style : string)
    (component version module stem basename file : string) (dirs : list string)
    (Hcomponent : Src.component src = Some component)
    (Hversion : Src.version src = Some version)
    (Hmodule : Src.module src = Some module)
    (Hrelative : Src.relative src = Some (JS.join "/" (dirs ++ [file])))
    (Hstem : Src.stem src = Some stem)
    (Hbasename : Src.basename src = Some basename)
    (Hplain : Forall plainSegment
                ([component; version; module; stem; basename; file] ++ dirs)) :
  let directories :=
    familySegments family ++ dirs ++
    (if indexified family stem style then [stem] else []) in
  let name :=
    if indexified family stem style then "index.html"
    else if JS.isStr (Src.mediaType src) "text/asciidoc" then stem +:+ ".html"
    else basename in
  computeOut cwd src family style =
  Ok (Out.mk
        (JS.join "/" (moduleSegments component version module ++ directories))
        name
        (JS.join "/" (moduleSegments component version module ++ directories ++ [name]))
        (wayUp directories)
        (wayUp (moduleSegments component version module ++ directories))).
Proof.
  intros directories name.
  apply Forall_app in Hplain as [Hplain Hdirs].
  apply Forall_cons in Hplain as [Hc Hplain].
  apply Forall_cons in Hplain as [Hv Hplain].
  apply Forall_cons in Hplain as [Hm Hplain].
  apply Forall_cons in Hplain as [Hs Hplain].
  apply Forall_cons in Hplain as [Hb Hplain].
  apply Forall_cons in Hplain as [Hf _].
  pose proof (moduleSegments_plain component version module Hc Hv Hm) as Hmodules.
  set (M := moduleSegments component version module) in *.
  assert (M ≠ []) as Hmne by done.
  assert (Forall plainSegment (if indexified family stem style then [stem] else []))
    as Hindexify by (destruct (indexified family stem style); plain_segments).
  assert (Forall plainSegment directories) as Hdirectories.
  { unfold directories. apply Forall_app. split; [apply familySegments_plain|].
    by apply Forall_app. }
  assert (plainSegment name) as Hname.
  { unfold name. destruct (indexified family stem style); [done|].
    destruct (JS.isStr _ _); [|done]. apply plain_html. by destruct Hs. }
  pose proof (directory_segments M family dirs file _ Hmodules Hmne Hdirs Hf Hindexify)
    as Hdirname.
  fold directories in Hdirname.
  assert (Path.join [JS.join "/" (M ++ directories); name] =
          JS.join "/" (M ++ directories ++ [name])) as Hpath.
  { rewrite file_segments; [by rewrite <-app_assoc|by apply Forall_app|by destruct M|done]. }
  pose proof (wayUp_relative M directories Hmodules Hdirectories) as HmoduleRoot.
  assert (JS.str (JS.orElse (Some (Path.relative cwd (JS.join "/" (M ++ directories)) ""))
                    (Some ".")) =
          wayUp (M ++ directories)) as Hroot.
  { apply (wayUp_relative [] (M ++ directories)); [done|by apply Forall_app]. }
  unfold computeOut. cbv zeta.
  rewrite Hcomponent, Hversion, Hmodule, Hrelative, Hstem, Hbasename.
  replace (JS.isStr family "page" && negb (JS.isStr (Some stem) "index") &&
             bool_decide (style = "indexify"))
    with (indexified family stem style).
  2:{ unfold indexified, JS.isStr.
      by rewrite (bool_decide_ext (Some stem = Some "index") (stem = "index"))
        by naive_solver. }
  rewrite modulePath_segments by done. fold M.
  replace (if JS.isStr family "image" then "_images"
           else if JS.isStr family "attachment" then "_attachments" else "")
    with (JS.join "/" (familySegments family))
    by (unfold familySegments; by repeat destruct (JS.isStr family _)).
  unfold name in *. destruct (indexified family stem style) eqn:Hindexified.
  - cbn [defined bindR Path.joinValues mapM fmap option_fmap option_map mbind option_bind
         mret option_ret id].
    change (Path.join [JS.join "/" M; JS.join "/" (familySegments family);
                       Path.dirname (JS.join "/" (dirs ++ [file])); stem])
      with (Path.join [JS.join "/" M; JS.join "/" (familySegments family);
                       Path.dirname (JS.join "/" (dirs ++ [file])); JS.join "/" [stem]]).
    rewrite Hdirname. cbn [defined bindR]. rewrite Hpath, HmoduleRoot, Hroot. done.
  - destruct (JS.isStr (Src.mediaType src) "text/asciidoc");
      cbn [defined bindR Path.joinValues mapM fmap option_fmap option_map mbind
           option_bind mret option_ret id JS.str default];
      change (Path.join [JS.join "/" M; JS.join "/" (familySegments family);
                         Path.dirname (JS.join "/" (dirs ++ [file])); ""])
        with (Path.join [JS.join "/" M; JS.join "/" (familySegments family);
                         Path.dirname (JS.join "/" (dirs ++ [file])); JS.join "/" []]);
      rewrite Hdirname; cbn [defined bindR]; rewrite Hpath, HmoduleRoot, Hroot; done.
Qed.

End ComputeOut.
Lemma computeOut_layout_witness :
  computeOut "/work" diagramSrc (Some "image") "indexify" =
  Ok (Out.mk "docs/cli/_images/topic" "diagram.png" "docs/cli/_images/topic/diagram.png"
        "../.." "../../../..").
Proof.
  apply (computeOut_layout "/work" diagramSrc (Some "image") "indexify"
           "docs" "master" "cli" "diagram" "diagram.png" "diagram.png" ["topic"]);
    try reflexivity.
  repeat first [apply Forall_nil_2 | apply Forall_cons_2; [by repeat split|]].
Defined.

(** ** [partitionContent]: the entry of a link *)

Section Links.
Import Regex Navigation.

Lemma exec_Lit_append l s i c k :
  exec (Lit l) (i, l +:+ s) c k = k ((i + String.length l)%nat, s) c.
Proof. cbn [exec fst snd]. by rewrite stripPrefix_append. Qed.

Lemma exec_Opt a at_ c k :
  exec (Opt a) at_ c k =
  match exec a at_ c k with Some r => Some r | None => k at_ c end.
Proof. reflexivity. Qed.

(** [([^q]+)q] on a value in front of a [q]. *)
Lemma exec_quoted n q v t i c k :
  v ≠ "" → countChar q v = 0%nat →
  exec (Seq (Group n (Plus (notChar q))) (Lit (String q ""))) (i, v +:+ String q t) c k =
  k ((i + String.length v + 1)%nat, t) (<[n := v]> c).
Proof.
  intros Hne Hq. destruct v as [|a v]; [done|]. simpl in Hq.
  destruct (Ascii.eqb a q) eqn:Ha; [done|].
  rewrite exec_Seq, exec_Group. cbn [exec fst snd]. rewrite append_cons.
  unfold notChar at 1. rewrite Ha. cbn [negb].
  rewrite starGreedy_until.
  - rewrite splitAt_append by done. cbn [fst snd].
    change (String q t) with (String q "" +:+ t). rewrite stripPrefix_append.
    replace (S i + String.length v - i)%nat with (String.length (String a v))
      by (simpl; lia).
    rewrite <-append_cons, take_append. cbn [String.length]. f_equal. f_equal. lia.
  - intros j' t' c' Ht'. cbn [fst snd JS.stripPrefix].
    destruct t' as [|b t']; [done|]. destruct (Ascii.eqb q b) eqn:E; [|done].
    apply Ascii.eqb_eq in E as ->. by destruct (Ht' t').
Qed.

(** A lazy [.*] in front of something that can only start with [x]: over
    a text of one line without [x], it stops where that succeeds. *)
Lemma starLazy_until (x : ascii) text rest i c (K : cont) r :
  (∀ j t c', (∀ t', t ≠ String x t') → K (j, t) c' = None) →
  countChar x text = 0%nat → countChar "010" text = 0%nat → countChar "013" text = 0%nat →
  K ((i + String.length text)%nat, rest) c = Some r →
  starLazy anyChar (text +:+ rest) i c K = Some r.
Proof.
  intros HK. revert i. induction text as [|a text IH]; intros i Hx Hlf Hcr Hr.
  - rewrite append_nil_l. simpl in Hr. rewrite Nat.add_0_r in Hr.
    destruct rest; simpl; by rewrite Hr.
  - rewrite append_cons. simpl in Hx, Hlf, Hcr. cbn [starLazy].
    destruct (Ascii.eqb a x) eqn:Ex; [done|].
    destruct (Ascii.eqb a "010") eqn:Elf; [done|].
    destruct (Ascii.eqb a "013") eqn:Ecr; [done|].
    rewrite HK by (intros t' [= -> _]; by rewrite Ascii.eqb_refl in Ex).
    unfold anyChar at 1. rewrite Elf, Ecr. cbn [negb andb].
    apply IH; [done..|]. rewrite <-Hr. f_equal. f_equal. simpl. lia.
Qed.

Lemma searchFrom_skip r (x : ascii) before s i :
  (∀ j t, (∀ t', t ≠ String x t') → exec r (j, t) ∅ (λ _ c, Some c) = None) →
  countChar x before = 0%nat →
  searchFrom r i (before +:+ s) = searchFrom r (i + String.length before)%nat s.
Proof.
  intros Hr. revert i. induction before as [|a before IH]; intros i Hx.
  - rewrite append_nil_l. f_equal. simpl. lia.
  - rewrite append_cons. simpl in Hx. destruct (Ascii.eqb a x) eqn:Ex; [done|].
    cbn [searchFrom].
    rewrite Hr by (intros t' [= -> _]; by rewrite Ascii.eqb_refl in Ex).
    rewrite IH by done. f_equal. simpl. lia.
Qed.

Lemma indexOfFrom_found p before s i :
  0 ≤ i → JS.indexOfFrom p (before +:+ p +:+ s) i ≠ -1.
Proof.
  revert i. induction before as [|a before IH]; intros i Hi.
  - rewrite append_nil_l. pose proof (stripPrefix_append p s) as Hp.
    destruct (p +:+ s); cbn [JS.indexOfFrom]; rewrite Hp; lia.
  - rewrite append_cons. cbn [JS.indexOfFrom].
    destruct (JS.stripPrefix p _); [lia|]. apply IH. lia.
Qed.

Lemma indexOfFrom_char x pre post i :
  countChar x pre = 0%nat →
  JS.indexOfFrom (String x "") (pre +:+ String x post) i = i + Z.of_nat (String.length pre).
Proof.
  revert i. induction pre as [|a pre IH]; intros i Hx.
  - simpl. rewrite Ascii.eqb_refl. lia.
  - rewrite append_cons. simpl in Hx. destruct (Ascii.eqb a x) eqn:E; [done|].
    cbn [JS.indexOfFrom JS.stripPrefix]. rewrite Ascii.eqb_sym, E.
    rewrite IH by done. simpl String.length. lia.
Qed.

Lemma indexOfFrom_char_none x s i :
  countChar x s = 0%nat → JS.indexOfFrom (String x "") s i = -1.
Proof.
  revert i. induction s as [|a s IH]; intros i Hx; [done|].
  simpl in Hx. destruct (Ascii.eqb a x) eqn:E; [done|].
  cbn [JS.indexOfFrom JS.stripPrefix]. rewrite Ascii.eqb_sym, E. by apply IH.
Qed.

Lemma drop_append s t : JS.drop (String.length s) (s +:+ t) = t.
Proof. induction s as [|a s IH]; [by destruct t|]. by rewrite append_cons. Qed.

(** The text of a link and what follows it. *)
Lemma exec_text i text after c :
  text ≠ "" → plainText text →
  exec (Seq (Lit ">") (Seq (Group 3 (PlusLazy anyChar)) (Lit "</a>")))
    (i, ">" +:+ text +:+ "</a>" +:+ after) c (λ _ c, Some c) =
  Some (<[3%nat := text]> c).
Proof.
  intros Hne (Hlt & Hlf & Hcr). rewrite exec_Seq, exec_Lit_append.
  rewrite exec_Seq, exec_Group. destruct text as [|a text]; [done|].
  rewrite append_cons, exec_PlusLazy.
  simpl in Hlt, Hlf, Hcr.
  destruct (Ascii.eqb a "<") eqn:Elt; [done|].
  destruct (Ascii.eqb a "010") eqn:Elf; [done|].
  destruct (Ascii.eqb a "013") eqn:Ecr; [done|].
  unfold anyChar at 1. rewrite Elf, Ecr. cbn [negb andb].
  apply (starLazy_until "<"); [|done..|].
  - intros j t c' Ht. cbn [exec fst snd JS.stripPrefix].
    destruct t as [|b t]; [done|]. destruct (Ascii.eqb "<" b) eqn:E; [|done].
    apply Ascii.eqb_eq in E as <-. by destruct (Ht t).
  - rewrite (exec_Lit_append "</a>"). cbn [fst snd]. do 2 f_equal.
    replace (S (i + String.length ">") + String.length text - (i + String.length ">"))%nat
      with (String.length (String a text)) by (simpl; lia).
    by rewrite <-append_cons, take_append.
Qed.

Lemma anchor_append url role text after :
  anchor url role text +:+ after =
  ("<a href=" +:+ String quote "") +:+ url +:+ String quote
    (match role with
     | Some role =>
         (" class=" +:+ String quote "") +:+ role +:+
         String quote (">" +:+ text +:+ "</a>" +:+ after)
     | None => ">" +:+ text +:+ "</a>" +:+ after
     end).
Proof.
  unfold anchor. destruct role as [role|];
    repeat (rewrite ?append_assoc, ?append_cons, ?append_nil_l; cbn [String.append]);
    done.
Qed.

(** [LINK_RX] matches a link where it starts: the groups are the target,
    the class and the text. *)
Lemma exec_LINK_RX i url role text after :
  attributeValue url → (∀ r, role = Some r → attributeValue r) →
  text ≠ "" → plainText text →
  exec LINK_RX (i, anchor url role text +:+ after) ∅ (λ _ c, Some c) =
  Some (<[3%nat := text]>
          (match role with Some r => <[2%nat := r]> | None => id end
             (<[1%nat := url]> ∅))).
Proof.
  intros [Hune Hu] Hrole Hne Htext. rewrite anchor_append. unfold LINK_RX.
  rewrite exec_Seq, exec_Lit_append.
  rewrite (exec_Seq (Seq _ _)), exec_quoted by done.
  rewrite exec_Seq, exec_Opt. destruct role as [role|].
  - destruct (Hrole role eq_refl) as [Hrne Hr].
    rewrite exec_Seq, exec_Lit_append.
    rewrite exec_quoted by done. rewrite exec_text by done. done.
  - rewrite exec_Seq.
    replace (exec (Lit (" class=" +:+ String quote "")) _ _ _) with (@None captures)
      by done.
    rewrite exec_text by done. done.
Qed.

End Links.
Section PartitionContent.
Import Regex Navigation.

Lemma searchFrom_here r i s c :
  exec r (i, s) ∅ (λ _ c, Some c) = Some c → searchFrom r i s = Some c.
Proof. intros Hc. destruct s; simpl; by rewrite Hc. Qed.

Lemma exec_Lit_None l at_ c k :
  JS.stripPrefix l at_.2 = None → exec (Lit l) at_ c k = None.
Proof. intros Hl. cbn [exec]. by rewrite Hl. Qed.

Lemma exec_LINK_RX_other j t :
  (∀ t', t ≠ String "<" t') → exec LINK_RX (j, t) ∅ (λ _ c, Some c) = None.
Proof.
  intros Ht. unfold LINK_RX. rewrite exec_Seq. apply exec_Lit_None. cbn [snd].
  destruct t as [|a t]; [done|].
  change ("<a href=" +:+ String quote "") with (String "<" ("a href=" +:+ String quote "")).
  cbn [JS.stripPrefix]. destruct (Ascii.eqb "<" a) eqn:E; [|done].
  apply Ascii.eqb_eq in E as <-. by destruct (Ht t).
Qed.

(** The captures of the first link of a content whose text before the
    link has no markup. *)
Lemma search_LINK_RX before url role text after :
  countChar "<" before = 0%nat →
  attributeValue url → (∀ r, role = Some r → attributeValue r) →
  text ≠ "" → plainText text →
  search LINK_RX (before +:+ anchor url role text +:+ after) =
  Some (<[3%nat := text]>
          (match role with Some r => <[2%nat := r]> | None => id end
             (<[1%nat := url]> ∅))).
Proof.
  intros Hbefore Hurl Hrole Hne Htext. unfold search.
  rewrite (searchFrom_skip _ "<") by (done || apply exec_LINK_RX_other).
  apply searchFrom_here. by apply exec_LINK_RX.
Qed.

(** The entry of a link: its text is the content of the entry, whatever
    comes before and after the link; a link to a page (class [page]) is
    internal and its hash is the fragment of its target; any other link
    is a fragment, which is its own hash, when its target starts with [#]
    and external otherwise.  The URL by which [findBreadcrumbPath]
    compares an internal entry is the target without the fragment. *)
Theorem partitionContent_link (before page fragment text after : string)
    (role : option string)
    (Hbefore : countChar "<" before = 0%nat)
    (Hurl : attributeValue (page +:+ fragment))
    (Hpage : countChar "#" page = 0%nat)
    (Hfragment : fragment = "" ∨ ∃ name, fragment = String "#" name)
    (Hrole : ∀ r, role = Some r → attributeValue r)
    (Hne : text ≠ "") (Htext : plainText text) :
  let url := page +:+ fragment in
  let entry := partitionContent (before +:+ anchor url role text +:+ after) in
  entry =
    (if bool_decide (role = Some "page") then
       NavItem.mk (Some text) (Some url) (Some "internal")
         (if bool_decide (fragment = "") then None else Some fragment) None false
     else if bool_decide (page = "") then
       NavItem.mk (Some text) (Some url) (Some "fragment") (Some url) None false
     else NavItem.mk (Some text) (Some url) (Some "external") None None false) ∧
  (role = Some "page" → itemUrl entry = Ok (Some page)).
Proof.
  intros url entry.
  assert (entry =
    (if bool_decide (role = Some "page") then
       NavItem.mk (Some text) (Some url) (Some "internal")
         (if bool_decide (fragment = "") then None else Some fragment) None false
     else if bool_decide (page = "") then
       NavItem.mk (Some text) (Some url) (Some "fragment") (Some url) None false
     else NavItem.mk (Some text) (Some url) (Some "external") None None false))
    as Hentry.
  { unfold entry, partitionContent.
    assert (JS.indexOf (before +:+ anchor url role text +:+ after) "<a" ≠ -1) as Hidx.
    { rewrite anchor_append.
      change (("<a href=" +:+ String quote "") +:+ ?s)
        with ("<a" +:+ (" href=" +:+ String quote "") +:+ s).
      by apply indexOfFrom_found. }
    rewrite (proj2 (Z.eqb_neq _ _) Hidx). cbn [negb].
    rewrite search_LINK_RX by done.
    assert (∀ m : captures,
              (<[3%nat := text]> (match role with Some r => <[2%nat := r]> | None => id end
                                    (<[1%nat := url]> m))) !! 1%nat = Some url) as ->.
    { intros m. rewrite lookup_insert_ne by done.
      destruct role; [rewrite lookup_insert_ne by done|]; apply lookup_insert_eq. }
    assert ((<[3%nat := text]> (match role with Some r => <[2%nat := r]> | None => id end
                                  (<[1%nat := url]> ∅))) !! 2%nat = role) as ->.
    { rewrite lookup_insert_ne by done.
      destruct role; [apply lookup_insert_eq|]. unfold id. by rewrite lookup_insert_ne. }
    rewrite lookup_insert_eq. change (JS.str (Some url)) with url. unfold JS.isStr.
    destruct (decide (role = Some "page")) as [Hpagerole|Hpagerole].
    - rewrite !(bool_decide_eq_true_2 (role = Some "page")) by done.
      unfold JS.indexOf, url. destruct Hfragment as [->|[name ->]].
      + rewrite append_nil_r, indexOfFrom_char_none by done. done.
      + rewrite indexOfFrom_char by done.
        rewrite (proj2 (Z.eqb_neq _ _)) by lia. cbn [negb].
        unfold JS.substrFrom. rewrite Z.add_0_l, Nat2Z.id, drop_append. done.
    - rewrite !(bool_decide_eq_false_2 (role = Some "page")) by done.
      unfold url. destruct page as [|a page].
      + destruct Hfragment as [->|[name ->]]; [by destruct Hurl|]. done.
      + simpl in Hpage. destruct (Ascii.eqb a "#") eqn:E; [done|].
        apply Ascii.eqb_neq in E.
        rewrite bool_decide_eq_false_2; [by rewrite bool_decide_eq_false_2|].
        rewrite append_cons. cbn. by intros [= ->]. }
  split; [done|]. intros ->. rewrite Hentry, bool_decide_eq_true_2 by done.
  unfold itemUrl, url. cbn [NavItem.hash NavItem.url defined bindR].
  destruct Hfragment as [->|[name ->]].
  - by rewrite append_nil_r.
  - rewrite bool_decide_eq_false_2 by done.
    change (JS.truthy (Some (String "#" name))) with true. cbn iota.
    change (JS.str (Some (String "#" name))) with (String "#" name).
    unfold JS.substr, JS.len. rewrite length_append.
    replace (Z.to_nat (Z.of_nat (String.length page + String.length (String "#" name)) -
                       Z.of_nat (String.length (String "#" name))))
      with (String.length page) by lia.
    change (JS.drop (Z.to_nat 0) ?s) with s. by rewrite take_append.
Qed.

End PartitionContent.

Lemma partitionContent_link_witness :
  Navigation.partitionContent
    ("1. " +:+ anchor "setup.html#start" (Some "page") "Setup" +:+ " (new)") =
  NavItem.mk (Some "Setup") (Some "setup.html#start") (Some "internal") (Some "#start")
    None false ∧
  (Some "page" = Some "page" →
   itemUrl (Navigation.partitionContent
              ("1. " +:+ anchor "setup.html#start" (Some "page") "Setup" +:+ " (new)")) =
   Ok (Some "setup.html")).
Proof.
  apply (partitionContent_link "1. " "setup.html" "#start" "Setup" " (new)" (Some "page")).
  - reflexivity.
  - split; [discriminate|reflexivity].
  - reflexivity.
  - right. by eexists.
  - intros r [= <-]. split; [discriminate|reflexivity].
  - discriminate.
  - repeat split.
Defined.

(** ** [addComponentVersion]: the URL of a component version *)

Section VersionUrl.
Variable cwd : string.
Variable versionCompare : string → string → Z.

Lemma insertVersion_entry component name version title url component' :
  insertVersion versionCompare component name version title url = Ok component' →
  VersionEntry.mk title version url ∈ Component.versions component'.
Proof.
  unfold insertVersion. destruct (findIndex _ _) as [insertIdx|e]; [|done].
  cbn [bindR]. intros [= <-].
  destruct (insertIdx <? 0); [|destruct (insertIdx =? 0)]; cbn [Component.versions];
    unfold splice; rewrite elem_of_app, ?elem_of_cons; auto.
Qed.

(** The output path that the page [index.adoc] of a component version
    has. *)
Lemma index_path name version style :
  plainSegment name → plainSegment version →
  ∃ out,
    computeOut cwd (indexSrc name version) (Some "page") style = Ok out ∧
    Out.path out = JS.join "/" (moduleSegments name version "ROOT" ++ ["index.html"]).
Proof.
  intros Hname Hversion.
  pose proof (moduleSegments_plain name version "ROOT" Hname Hversion) as Hmodule.
  unfold computeOut. cbv zeta.
  cbn [indexSrc Src.component Src.version Src.module Src.stem Src.mediaType Src.basename
       Src.relative].
  change (JS.isStr (Some "index") "index") with true.
  change (JS.isStr (Some "page") "image") with false.
  change (JS.isStr (Some "page") "attachment") with false.
  change (JS.isStr (Some "text/asciidoc") "text/asciidoc") with true.
  rewrite andb_false_r. cbn [negb andb].
  rewrite modulePath_segments by done.
  cbn [defined bindR Path.joinValues mapM fmap option_fmap option_map mbind option_bind
       mret option_ret id JS.str default].
  pose proof (directory_segments (moduleSegments name version "ROOT") (Some "page")
                [] "index.adoc" []) as Hdirname.
  change (familySegments (Some "page")) with (@nil string) in Hdirname.
  cbn [app JS.join] in Hdirname. rewrite app_nil_r in Hdirname.
  rewrite Hdirname by (done || by apply Hmodule).
  rewrite file_segments by (done || by apply Hmodule).
  eexists. split; [done|]. done.
Qed.

(** The URL that the page [index.adoc] of a component version has. *)
Lemma index_url name version style out :
  plainSegment name → plainSegment version →
  Out.path out = JS.join "/" (moduleSegments name version "ROOT" ++ ["index.html"]) →
  ∃ pub,
    computePub (indexSrc name version) (Some out) (Some "page") style = Ok pub ∧
    Pub.url pub =
      "/" +:+ JS.join "/"
        ([name] ++ (if bool_decide (version = "master") then [] else [version]) ++
         [if bool_decide (style = "drop" ∨ style = "indexify") then "" else "index.html"]).
Proof.
  intros Hname Hversion Hpath.
  pose proof (moduleSegments_plain name version "ROOT" Hname Hversion) as Hmodule.
  unfold computePub.
  change (JS.isStr (Some "page") "navigation") with false.
  change (JS.isStr (Some "page") "page") with true.
  cbn [defined bindR]. cbv zeta. rewrite Hpath, split_join.
  2:{ by destruct (moduleSegments name version "ROOT"). }
  2:{ apply Forall_app. split; [|by repeat constructor].
      eapply Forall_impl; [by apply Hmodule|]. by intros s [? _]. }
  rewrite (proj1 (last_segment _ "index.html" "")). cbn [default].
  rewrite (bool_decide_eq_true_2 ("index.html" = "index.html")) by done.
  eexists. split; [done|].
  assert (moduleSegments name version "ROOT" =
          [name] ++ (if bool_decide (version = "master") then [] else [version])) as ->.
  { unfold moduleSegments. rewrite (bool_decide_eq_true_2 ("ROOT" = "ROOT")) by done.
    by rewrite app_nil_r. }
  repeat case_bool_decide; rewrite ?(proj2 (last_segment _ "index.html" _));
    cbn [Pub.url]; rewrite <-app_assoc; naive_solver.
Qed.

(** A component version that is added without a start page, when the
    catalog has no page [index.adoc] in its module [ROOT], gets the URL
    that this page would have: [/name/version/index.html], without the
    directory of the version when that is [master], and without
    [index.html] when the style is [drop] or [indexify]. *)
Theorem addComponentVersion_index_url (name version : string) (title : JS.value)
    (st st' : State)
    (Hname : plainSegment name) (Hversion : plainSegment version)
    (Hindex : ContentCatalog.files (catalog st) !! generateId (indexSrc name version) = None)
    (Hadd : addComponentVersion cwd versionCompare name version title None st
            = (Ok tt, st')) :
  let style := ContentCatalog.htmlUrlExtensionStyle (catalog st) in
  let url :=
    "/" +:+ JS.join "/"
      ([name] ++ (if bool_decide (version = "master") then [] else [version]) ++
       [if bool_decide (style = "drop" ∨ style = "indexify") then "" else "index.html"]) in
  ∃ component,
    ContentCatalog.components (catalog st') !! name = Some component ∧
    VersionEntry.mk title version url ∈ Component.versions component.
Proof.
  intros style url.
  assert (startPageUrl cwd name version None st = (Ok url, st)) as Hurl.
  { unfold startPageUrl, resolvePage.
    change (JS.truthy None) with false. cbv iota.
    rewrite parsePageId_index. cbn [pageId Src.version Src.component].
    rewrite truthy_Some by (by destruct Hversion as (_ & ? & _)). cbn [negb].
    unfold bind at 1, getById at 1, bind at 1, getCatalog at 1, gets at 1, ret at 1.
    change (generateId _) with (generateId (indexSrc name version)).
    rewrite Hindex.
    unfold bind, getCatalog, gets, lift. rewrite expandPageSrc_index. cbn [bindR].
    destruct (index_path name version style Hname Hversion) as (out & Hout & Hpath).
    destruct (index_url name version style out Hname Hversion Hpath) as (pub & Hpub & Hu).
    change (Src.family (indexSrc name version)) with (Some "page").
    fold style. rewrite Hout. cbn [bindR]. rewrite Hpub. cbn [bindR]. by rewrite Hu. }
  rewrite addComponentVersion_run, Hurl in Hadd. cbn [fst] in Hadd. cbv zeta in Hadd.
  destruct (ContentCatalog.components (catalog st) !! name) as [component|].
  - destruct (insertVersion _ _ _ _ _ _) as [component'|e] eqn:Hinsert; [|done].
    injection Hadd as <-. exists component'. cbn [catalog ContentCatalog.components].
    rewrite lookup_insert_eq. split; [done|]. by eapply insertVersion_entry.
  - injection Hadd as <-. eexists. cbn [catalog ContentCatalog.components].
    rewrite lookup_insert_eq. split; [done|]. cbn [Component.versions].
    apply list_elem_of_singleton. done.
Qed.

End VersionUrl.

Lemma addComponentVersion_index_url_witness :
  ∃ component,
    ContentCatalog.components
      (catalog (runCalls "/work" versionCompareDesc [mkCall "docs" "master" None None]
                  (mkState [] (ContentCatalog.mk ∅ ∅ "indexify")))) !! "docs"
      = Some component ∧
    VersionEntry.mk None "master" "/docs/" ∈ Component.versions component.
Proof.
  apply (addComponentVersion_index_url "/work" versionCompareDesc "docs" "master" None
           (mkState [] (ContentCatalog.mk ∅ ∅ "indexify"))).
  - by repeat split.
  - by repeat split.
  - reflexivity.
  - vm_compute. reflexivity.
Defined.

(** ** [addComponentVersion]: what it throws *)

Section VersionThrows.
Variable cwd : string.
Variable versionCompare : string → string → Z.

Lemma defined_Throw {A} (o : option A) e : defined o = Throw e → e = TypeError.
Proof. destruct o; [done|]. by intros [= <-]. Qed.

Lemma computeOut_Throw src family style e :
  computeOut cwd src family style = Throw e → e = TypeError.
Proof.
  unfold computeOut. cbv zeta.
  destruct (if JS.isStr family "page" && _ && _ then _ else _) as [basename segment].
  repeat (match goal with
          | |- context [defined ?o] =>
              destruct (defined o) eqn:?; cbn [bindR];
              [|intros [= <-]; by eapply defined_Throw]
          end).
  done.
Qed.

Lemma computePub_Throw src out family style e :
  computePub src out family style = Throw e → e = TypeError.
Proof.
  unfold computePub.
  destruct (JS.isStr family "navigation"); [done|].
  destruct (JS.isStr family "page");
    (destruct (defined out) eqn:Hout; cbn [bindR];
     [done|intros [= <-]; by eapply defined_Throw]).
Qed.

Lemma expandPageSrc_Throw src family e :
  expandPageSrc src family = Throw e → e = TypeError.
Proof.
  unfold expandPageSrc. destruct (defined _) eqn:Hrelative; cbn [bindR]; [done|].
  intros [= <-]. by eapply defined_Throw.
Qed.

Lemma resolvePage_Throw spec ctx st e :
  (resolvePage spec ctx st).1 = Throw e →
  e = InvalidPageID "Invalid page ID syntax" ∨ e = TypeError.
Proof.
  unfold resolvePage. destruct (PageId.parsePageId spec ctx) as [id|];
    [|intros [= <-]; by left].
  destruct (negb _); [|done].
  unfold bind, getComponent, getCatalog, gets, ret, lift, bind. simpl.
  destruct (ContentCatalog.components (catalog st) !! _) as [component|]; [|done].
  destruct (defined _) eqn:Hlatest; [done|].
  intros [= <-]. right. by eapply defined_Throw.
Qed.

Lemma startPageUrl_Throw name version startPageSpec st e :
  (startPageUrl cwd name version startPageSpec st).1 = Throw e →
  e = InvalidPageID "Invalid page ID syntax" ∨ e = TypeError ∨
  (JS.truthy startPageSpec = true ∧
   e = StartPageMissing
         ("Start page specified for " +:+ version +:+ "@" +:+ name +:+ " not found: "
          +:+ JS.str startPageSpec)).
Proof.
  unfold startPageUrl. unfold bind at 1.
  rewrite (readonly_run (resolvePage _ _)) by apply readonly_resolvePage.
  destruct (resolvePage _ _ st).1 as [[startPage|]|e'] eqn:Hresolve.
  - unfold bind, deref, lift, ret. cbn [fst snd].
    destruct (defined (heap st !! startPage)) eqn:Hfile;
      [|intros [= <-]; right; left; by eapply defined_Throw].
    destruct (defined (File.pub _)) eqn:Hpub; [done|].
    intros [= <-]. right. left. by eapply defined_Throw.
  - destruct (JS.truthy startPageSpec) eqn:Hspec.
    + intros [= <-]. right. right. done.
    + unfold bind, getCatalog, gets, lift. cbn [fst snd].
      destruct (expandPageSrc _ _) as [startPageSrc|e'] eqn:Hexpand; cbn [bindR];
        [|intros [= <-]; right; left; by eapply expandPageSrc_Throw].
      destruct (computeOut _ _ _ _) as [startPageOut|e'] eqn:Hout; cbn [bindR];
        [|intros [= <-]; right; left; by eapply computeOut_Throw].
      destruct (computePub _ _ _ _) as [pub|e'] eqn:Hpub; cbn [bindR]; [done|].
      intros [= <-]. right. left. by eapply computePub_Throw.
  - intros [= <-]. apply resolvePage_Throw in Hresolve as [-> | ->]; auto.
Qed.

(** A call of [addComponentVersion] that throws leaves the catalog and the
    files as they are.  It throws for a start page spec that is not a
    page ID or that no page of the catalog answers to, for a version that
    the component has, and it throws a [TypeError] where it reads a
    property of [undefined]. *)
Theorem addComponentVersion_throws (name version : string) (title startPageSpec : JS.value)
    (st st' : State) (e : Error)
    (Hadd : addComponentVersion cwd versionCompare name version title startPageSpec st
            = (Throw e, st')) :
  st' = st ∧
  (e = InvalidPageID "Invalid page ID syntax" ∨ e = TypeError ∨
   (JS.truthy startPageSpec = true ∧
    e = StartPageMissing
          ("Start page specified for " +:+ version +:+ "@" +:+ name +:+ " not found: "
           +:+ JS.str startPageSpec)) ∨
   (version ∈ versionsOf st name ∧
    e = DuplicateVersion (duplicateVersionMessage name version))).
Proof.
  rewrite addComponentVersion_run in Hadd.
  destruct (startPageUrl _ _ _ _ st).1 as [url|e'] eqn:Hurl.
  - cbv zeta in Hadd. unfold versionsOf.
    destruct (ContentCatalog.components (catalog st) !! name) as [component|]; [|done].
    destruct (insertVersion _ _ _ _ _ _) as [component'|e'] eqn:Hinsert; [done|].
    injection Hadd as <- <-. split; [done|]. right. right. right.
    unfold insertVersion, findIndex in Hinsert.
    pose proof (findIndexFrom_versions versionCompare name version
                  (Component.versions component) 0) as Hfind.
    destruct (findIndexFrom _ _ 0) as [r|e'']; [done|]. cbn [bindR] in Hinsert.
    injection Hinsert as <-. destruct Hfind as [-> (x & Hx & <-)].
    split; [|done]. apply list_elem_of_fmap. eauto.
  - injection Hadd as <- <-. split; [done|].
    apply startPageUrl_Throw in Hurl. naive_solver.
Qed.

End VersionThrows.

Lemma addComponentVersion_throws_witness :
  runCalls "/work" versionCompareDesc [mkCall "docs" "1.0" None None] emptyState =
  runCalls "/work" versionCompareDesc [mkCall "docs" "1.0" None None] emptyState ∧
  (DuplicateVersion "Duplicate version detected for component docs: 1.0" =
     InvalidPageID "Invalid page ID syntax" ∨
   DuplicateVersion "Duplicate version detected for component docs: 1.0" = TypeError ∨
   (JS.truthy None = true ∧
    DuplicateVersion "Duplicate version detected for component docs: 1.0" =
    StartPageMissing
      ("Start page specified for " +:+ "1.0" +:+ "@" +:+ "docs" +:+ " not found: "
       +:+ JS.str None)) ∨
   ("1.0" ∈ versionsOf
              (runCalls "/work" versionCompareDesc [mkCall "docs" "1.0" None None]
                 emptyState) "docs" ∧
    DuplicateVersion "Duplicate version detected for component docs: 1.0" =
    DuplicateVersion (duplicateVersionMessage "docs" "1.0"))).
Proof.
  apply (addComponentVersion_throws "/work" versionCompareDesc "docs" "1.0" None
           None).
  vm_compute. reflexivity.
Defined.

(** ** [classifyContent]: the component versions of the catalog *)

Section ClassifiedVersions.
Variable cwd : string.
Variable versionCompare : string → string → Z.
Variable START_PAGE_ID : Src.t.

Hypothesis versionCompare_antisym :
  ∀ a b, 0 < versionCompare a b → versionCompare b a < 0.
Hypothesis versionCompare_trans :
  ∀ a b c, versionCompare a b ≤ 0 → versionCompare b c ≤ 0 → versionCompare a c ≤ 0.

Lemma addFile_components file st st' :
  addFile cwd file st = (Ok tt, st') →
  ContentCatalog.components (catalog st') = ContentCatalog.components (catalog st).
Proof.
  destruct (heap st !! file) as [f|] eqn:Hfile.
  2:{ unfold addFile, bind at 1, deref. by rewrite Hfile. }
  rewrite (addFile_run _ _ _ _ Hfile). cbv zeta. case_bool_decide; [done|].
  set (l := if File.isVinyl f then file else length (heap st)).
  set (st0 := if File.isVinyl f then st else withHeap (heap st ++ [File.setVinyl f]) st).
  assert (catalog st0 = catalog st) as Hcatalog by (unfold st0; by destruct (File.isVinyl f)).
  assert (is_Some (heap st0 !! l)) as [f0 Hl].
  { unfold st0, l. destruct (File.isVinyl f); [by eexists|]. simpl.
    rewrite list_lookup_middle by done. by eexists. }
  rewrite (assignOutAndPub_run _ _ _ _ Hl). cbv zeta.
  destruct (actingFamilyOf _ _) as [acting|]; [|done].
  destruct (withOut _ _ _ _) as [f1|e]; [|done].
  destruct (withPub _ _ _) as [f2|e]; [|done].
  intros [= <-]. simpl. by rewrite Hcatalog.
Qed.

Lemma classify_file_components name version nav file st st' :
  (allocated <- allocateSrc file name version nav ;;
   if allocated : bool then addFile cwd file else ret tt) st = (Ok tt, st') →
  ContentCatalog.components (catalog st') = ContentCatalog.components (catalog st).
Proof.
  intros (allocated & st1 & Hallocate & Hadd)%bind_Ok.
  apply allocateSrc_effect in Hallocate as (Hcatalog & _).
  destruct allocated; [|injection Hadd as <-; by rewrite Hcatalog].
  apply addFile_components in Hadd. by rewrite Hadd, Hcatalog.
Qed.

Lemma registerSiteStartPage_components playbook st st' :
  registerSiteStartPage cwd START_PAGE_ID playbook st = (Ok tt, st') →
  ContentCatalog.components (catalog st') = ContentCatalog.components (catalog st).
Proof.
  unfold registerSiteStartPage.
  destruct (negb (JS.truthy (Playbook.site_startPage playbook))); [by intros [= <-]|].
  intros (rel & st1 & Hresolve & Hrun)%bind_Ok.
  destruct rel as [rel|]; [|done].
  apply resolvePage_registered in Hresolve as [-> _].
  apply bind_Ok in Hrun as (file & st2 & Halloc & Hadd).
  injection Halloc as <- <-. by apply addFile_components in Hadd.
Qed.

Lemma versionsOf_components st st' name :
  ContentCatalog.components (catalog st') = ContentCatalog.components (catalog st) →
  versionsOf st' name = versionsOf st name.
Proof. unfold versionsOf. by intros ->. Qed.

Lemma catalogOk_components st st' :
  ContentCatalog.components (catalog st') = ContentCatalog.components (catalog st) →
  catalogOk versionCompare st → catalogOk versionCompare st'.
Proof. unfold catalogOk. by intros ->. Qed.

Lemma insertDescending_perm version versions :
  insertDescending versionCompare version versions ≡ₚ version :: versions.
Proof.
  induction versions as [|candidate versions IH]; [done|]. simpl.
  destruct (0 <? versionCompare candidate version); [done|].
  rewrite IH. apply perm_swap.
Qed.

(** The versions of the components after [addComponentVersion]. *)
Lemma addComponentVersion_versions name version title startPageSpec st st' :
  catalogOk versionCompare st →
  addComponentVersion cwd versionCompare name version title startPageSpec st
    = (Ok tt, st') →
  (version ∉ versionsOf st name) ∧
  ∀ other, versionsOf st' other ≡ₚ
           (if bool_decide (name = other) then [version] else []) ++ versionsOf st other.
Proof.
  intros Hst Hadd. split.
  { intros Hin. by rewrite (addComponentVersion_duplicate cwd versionCompare _ _ _ _ _ Hst Hin)
      in Hadd. }
  rewrite addComponentVersion_run in Hadd.
  destruct (startPageUrl _ _ _ _ _).1 as [url|e]; [|done]. cbv zeta in Hadd.
  intros other. unfold versionsOf in *. case_bool_decide as Hother.
  - subst other.
    destruct (ContentCatalog.components (catalog st) !! name) as [component|] eqn:Hc.
    + destruct (insertVersion _ _ _ _ _ _) as [component'|e] eqn:Hinserted; [|done].
      injection Hadd as <-. simpl. rewrite lookup_insert_eq.
      rewrite (insertVersion_versions versionCompare _ _ _ _ _ _ Hinserted).
      apply insertDescending_perm.
    + injection Hadd as <-. simpl. by rewrite lookup_insert_eq.
  - destruct (ContentCatalog.components (catalog st) !! name) as [component|] eqn:Hc.
    + destruct (insertVersion _ _ _ _ _ _) as [component'|e] eqn:Hinserted; [|done].
      injection Hadd as <-. simpl. by rewrite lookup_insert_ne.
    + injection Hadd as <-. simpl. by rewrite lookup_insert_ne.
Qed.

(** The component versions of the catalog after the component versions
    of an aggregate are classified. *)
Lemma classify_versions aggregate st st' :
  catalogOk versionCompare st → (∀ name, NoDup (versionsOf st name)) →
  forEach
    (λ cv,
       forEach
         (λ file,
            allocated <- allocateSrc file (ComponentVersion.name cv)
                           (ComponentVersion.version cv) (ComponentVersion.nav cv) ;;
            if allocated : bool then addFile cwd file else ret tt)
         (ComponentVersion.files cv) ;;
       addComponentVersion cwd versionCompare (ComponentVersion.name cv)
         (ComponentVersion.version cv) (ComponentVersion.title cv)
         (ComponentVersion.start_page cv))
    aggregate st = (Ok tt, st') →
  catalogOk versionCompare st' ∧
  ∀ name,
    NoDup (versionsOf st' name) ∧
    versionsOf st' name ≡ₚ
      (ComponentVersion.version <$>
         filter (λ cv, ComponentVersion.name cv = name) aggregate) ++ versionsOf st name.
Proof.
  revert st. induction aggregate as [|cv aggregate IH]; intros st Hst Hnodup Hrun.
  { injection Hrun as <-. split; [done|]. intros name. split; [done|]. done. }
  cbn [forEach] in Hrun. apply bind_Ok in Hrun as ([] & st2 & Hcv & Hrun).
  apply bind_Ok in Hcv as ([] & st1 & Hfiles & Hadd).
  assert (ContentCatalog.components (catalog st1) = ContentCatalog.components (catalog st))
    as Hcomponents.
  { eapply (forEach_invariant
              (λ s, ContentCatalog.components (catalog s) =
                    ContentCatalog.components (catalog st))); [|done|exact Hfiles].
    intros file s s' _ Hs Hstep. simpl in Hstep.
    apply classify_file_components in Hstep. by rewrite Hstep. }
  pose proof (catalogOk_components _ _ Hcomponents Hst) as Hst1.
  pose proof (addComponentVersion_ok cwd versionCompare versionCompare_antisym
                versionCompare_trans (ComponentVersion.name cv) (ComponentVersion.version cv)
                (ComponentVersion.title cv) (ComponentVersion.start_page cv) st1 Hst1) as Hst2.
  rewrite Hadd in Hst2. cbn [snd] in Hst2.
  apply addComponentVersion_versions in Hadd as [Hnew Hversions]; [|done].
  assert (∀ name, versionsOf st2 name ≡ₚ
            (if bool_decide (ComponentVersion.name cv = name)
             then [ComponentVersion.version cv] else []) ++ versionsOf st name) as Hstep.
  { intros name. by rewrite Hversions, (versionsOf_components _ _ name Hcomponents). }
  destruct (IH st2 Hst2) as [Hok Hall]; [|done|].
  { intros name. rewrite Hstep. case_bool_decide as Hname; [|apply Hnodup].
    subst name. apply NoDup_cons. split; [|apply Hnodup].
    by rewrite <-(versionsOf_components _ _ _ Hcomponents). }
  split; [done|]. intros name. destruct (Hall name) as [Hnd Hperm].
  split; [done|]. rewrite Hperm, Hstep, filter_cons.
  case_bool_decide as Hname.
  - rewrite decide_True by done. rewrite fmap_cons. cbn [app].
    by rewrite Permutation_middle.
  - by rewrite decide_False.
Qed.

(** The catalog that [classifyContent] returns has the component versions
    of the aggregate and no others: the versions of a component are the
    versions of the entries of the aggregate with its name, each of them
    once; they are in descending order, and the title and the URL of the
    component are those of its latest version. *)
Theorem classifyContent_versions (playbook : Playbook.t)
    (aggregate : list ComponentVersion.t) (st0 st : State) (result : ContentCatalog.t)
    (Hclassified : classifyContent cwd versionCompare START_PAGE_ID playbook aggregate st0
                   = (Ok result, st)) :
  catalogOk versionCompare st ∧
  ∀ name,
    NoDup (versionsOf st name) ∧
    versionsOf st name ≡ₚ
      ComponentVersion.version <$>
        filter (λ cv, ComponentVersion.name cv = name) aggregate.
Proof.
  unfold classifyContent in Hclassified.
  apply bind_Ok in Hclassified as ([] & st1 & Hset & Hclassified).
  apply bind_Ok in Hclassified as ([] & st2 & Hloop & Hclassified).
  apply bind_Ok in Hclassified as ([] & st3 & Hstart & Hget).
  injection Hget as <- <-. injection Hset as <-.
  apply classify_versions in Hloop as [Hok Hall].
  - apply registerSiteStartPage_components in Hstart.
    split; [by eapply catalogOk_components|]. intros name.
    rewrite (versionsOf_components _ _ name Hstart).
    destruct (Hall name) as [Hnd Hperm]. split; [done|].
    rewrite Hperm. unfold versionsOf. simpl. rewrite lookup_empty. by rewrite app_nil_r.
  - intros name c. simpl. by rewrite lookup_empty.
  - intros name. unfold versionsOf. simpl. rewrite lookup_empty. constructor.
Qed.

End ClassifiedVersions.

Lemma classifyContent_versions_witness :
  ∃ result,
    classifyContent "/work" versionCompareDesc sampleStartPageId (samplePlaybook None)
      docsReleases emptyState = (Ok result, docsReleasesState) ∧
    versionsOf docsReleasesState "docs" ≡ₚ ["1.0"; "2.0"].
Proof.
  assert (∃ result,
            classifyContent "/work" versionCompareDesc sampleStartPageId
              (samplePlaybook None) docsReleases emptyState
            = (Ok result, docsReleasesState)) as [result Hclassified]
    by (eexists; vm_compute; reflexivity).
  exists result. split; [done|].
  destruct (classifyContent_versions "/work" versionCompareDesc sampleStartPageId
              versionCompareDesc_antisym versionCompareDesc_trans _ _ _ _ _ Hclassified)
    as [_ Hall].
  destruct (Hall "docs") as [_ Hperm]. exact Hperm.
Defined.

(** ** [classifyContent]: the ids of the files *)

Section ClassifiedIds.
Variable cwd : string.
Variable versionCompare : string → string → Z.
Variable START_PAGE_ID : Src.t.

Lemma addFile_keys file st st' :
  keysOk st → addFile cwd file st = (Ok tt, st') →
  keysOk st' ∧
  (length (heap st) ≤ length (heap st'))%nat ∧
  ∀ l, registered st' l → registered st l ∨ l = file ∨ (length (heap st) ≤ l)%nat.
Proof.
  intros Hkeys Hadd. destruct (heap st !! file) as [f|] eqn:Hfile.
  2:{ unfold addFile, bind at 1, deref in Hadd. by rewrite Hfile in Hadd. }
  destruct (addFile_Ok cwd _ _ _ _ Hfile Hadd)
    as (added & f2 & Hfiles & Hnew & Hadded & Hsrc & _ & Hwhere & Hothers).
  assert (added = file ∨ added = length (heap st)) as Hwhich
    by (rewrite Hwhere; destruct (File.isVinyl f); auto).
  assert (∀ id l, ContentCatalog.files (catalog st) !! id = Some l → l ≠ added) as Hfresh.
  { intros id l Hl ->. destruct (Hkeys _ _ Hl) as (g & Hg & Hid).
    destruct Hwhich as [->| ->].
    - rewrite Hfile in Hg. injection Hg as <-. by rewrite Hid, Hl in Hnew.
    - apply lookup_lt_Some in Hg. lia. }
  split; [|split].
  - intros id l. rewrite Hfiles.
    destruct (decide (generateId (File.src f) = id)) as [<-|Hne].
    + rewrite lookup_insert_eq. intros [= <-]. exists f2. by rewrite Hsrc.
    + rewrite lookup_insert_ne by done. intros Hl.
      destruct (Hkeys _ _ Hl) as (g & Hg & Hid). exists g. split; [|done].
      rewrite Hothers; [done|by eapply Hfresh|by eapply lookup_lt_Some].
  - apply lookup_lt_Some in Hadded.
    destruct (decide (length (heap st) ≤ length (heap st'))%nat) as [|Hlt]; [done|].
    exfalso. destruct (heap st !! (length (heap st') )) as [g|] eqn:Hg.
    + assert (length (heap st') ≠ added) as Hne by lia.
      rewrite <-Hothers in Hg; [|done|lia]. apply lookup_lt_Some in Hg. lia.
    + apply lookup_ge_None in Hg. lia.
  - intros l [id Hl]. rewrite Hfiles in Hl.
    destruct (decide (generateId (File.src f) = id)) as [<-|Hne].
    + rewrite lookup_insert_eq in Hl. injection Hl as <-.
      destruct Hwhich as [->| ->]; [by right; left|right; right; lia].
    + rewrite lookup_insert_ne in Hl by done. left. by exists id.
Qed.

Lemma allocateSrc_keys file component version nav st allocated st' :
  keysOk st → ¬ registered st file →
  allocateSrc file component version nav st = (Ok allocated, st') →
  keysOk st' ∧ catalog st' = catalog st ∧ length (heap st') = length (heap st).
Proof.
  intros Hkeys Hfile. unfold allocateSrc. intros (f & st1 & Hf & Hrun)%bind_Ok.
  unfold deref in Hf. destruct (heap st !! file) as [f0|] eqn:Hf0; [|done].
  injection Hf as <- <-.
  apply bind_Ok in Hrun as (assigned & st1 & Hassigned & Hrun).
  unfold lift in Hassigned. injection Hassigned as Hassigned <-.
  destruct assigned as [f'|]; [|by injection Hrun as <- <-].
  apply bind_Ok in Hrun as ([] & st1 & Hupdate & Hret).
  injection Hret as <- <-. injection Hupdate as <-.
  split; [|split; [done|simpl; by rewrite length_alter]].
  intros id l Hl. simpl in Hl. destruct (Hkeys _ _ Hl) as (g & Hg & Hid).
  exists g. split; [|done]. simpl. rewrite list_lookup_alter_ne; [done|].
  intros <-. apply Hfile. by exists id.
Qed.

(** The invariant of the loops of [classifyContent]: the files of the
    catalog are registered under their ids, and the files that are still
    to be classified are objects that are not in the catalog. *)
Lemma classify_file_keys name version nav file pending st st' :
  keysOk st → file ∉ pending →
  (∀ l, l ∈ file :: pending → ¬ registered st l ∧ (l < length (heap st))%nat) →
  (allocated <- allocateSrc file name version nav ;;
   if allocated : bool then addFile cwd file else ret tt) st = (Ok tt, st') →
  keysOk st' ∧
  ∀ l, l ∈ pending → ¬ registered st' l ∧ (l < length (heap st'))%nat.
Proof.
  intros Hkeys Hfresh Hpending (allocated & st1 & Hallocate & Hadd)%bind_Ok.
  destruct (Hpending file) as [Hfile _]; [by left|].
  destruct (allocateSrc_keys _ _ _ _ _ _ _ Hkeys Hfile Hallocate)
    as (Hkeys1 & Hcatalog & Hlength).
  assert (∀ l, registered st1 l ↔ registered st l) as Hregistered
    by (intros l; unfold registered; by rewrite Hcatalog).
  destruct allocated.
  - destruct (addFile_keys _ _ _ Hkeys1 Hadd) as (Hkeys' & Hgrow & Hnew).
    split; [done|]. intros l Hl. destruct (Hpending l) as [Hl1 Hl2]; [by right|].
    split; [|lia]. intros [Hold|[->|Hge]]%Hnew; [|done|lia].
    by apply Hl1, Hregistered.
  - injection Hadd as <-. split; [done|]. intros l Hl.
    destruct (Hpending l) as [Hl1 Hl2]; [by right|].
    split; [by rewrite Hregistered|lia].
Qed.

Lemma classify_files_keys name version nav files pending st st' :
  keysOk st → NoDup (files ++ pending) →
  (∀ l, l ∈ files ++ pending → ¬ registered st l ∧ (l < length (heap st))%nat) →
  forEach
    (λ file,
       allocated <- allocateSrc file name version nav ;;
       if allocated : bool then addFile cwd file else ret tt)
    files st = (Ok tt, st') →
  keysOk st' ∧
  ∀ l, l ∈ pending → ¬ registered st' l ∧ (l < length (heap st'))%nat.
Proof.
  revert st. induction files as [|file files IH]; intros st Hkeys Hnodup Hpending Hrun.
  { injection Hrun as <-. done. }
  cbn [forEach] in Hrun. apply bind_Ok in Hrun as ([] & st1 & Hfile & Hrun).
  cbn [app] in Hnodup, Hpending. apply NoDup_cons in Hnodup as [Hfresh Hnodup].
  destruct (classify_file_keys _ _ _ _ _ _ _ Hkeys Hfresh Hpending Hfile)
    as [Hkeys1 Hpending1].
  by eapply IH.
Qed.

Lemma classify_aggregate_keys aggregate st st' :
  keysOk st → NoDup (filesOf aggregate) →
  (∀ l, l ∈ filesOf aggregate → ¬ registered st l ∧ (l < length (heap st))%nat) →
  forEach
    (λ cv,
       forEach
         (λ file,
            allocated <- allocateSrc file (ComponentVersion.name cv)
                           (ComponentVersion.version cv) (ComponentVersion.nav cv) ;;
            if allocated : bool then addFile cwd file else ret tt)
         (ComponentVersion.files cv) ;;
       addComponentVersion cwd versionCompare (ComponentVersion.name cv)
         (ComponentVersion.version cv) (ComponentVersion.title cv)
         (ComponentVersion.start_page cv))
    aggregate st = (Ok tt, st') →
  keysOk st'.
Proof.
  revert st. induction aggregate as [|cv aggregate IH]; intros st Hkeys Hnodup Hpending Hrun.
  { by injection Hrun as <-. }
  cbn [forEach] in Hrun. apply bind_Ok in Hrun as ([] & st2 & Hcv & Hrun).
  apply bind_Ok in Hcv as ([] & st1 & Hfiles & Hadd).
  unfold filesOf in Hnodup, Hpending. rewrite fmap_cons in Hnodup, Hpending.
  cbn [concat] in Hnodup, Hpending.
  destruct (classify_files_keys _ _ _ _ _ _ _ Hkeys Hnodup Hpending Hfiles)
    as [Hkeys1 Hpending1].
  apply addComponentVersion_files in Hadd as [Hheap Hcatalog].
  apply (IH st2); [| |  |done].
  - intros id l. rewrite Hcatalog, Hheap. apply Hkeys1.
  - by apply NoDup_app in Hnodup as (_ & _ & ?).
  - intros l Hl. destruct (Hpending1 l Hl) as [Hl1 Hl2]. split; [|by rewrite Hheap].
    intros [id Hid]. apply Hl1. exists id. by rewrite <-Hcatalog.
Qed.

Lemma registerSiteStartPage_keys playbook st st' :
  keysOk st →
  registerSiteStartPage cwd START_PAGE_ID playbook st = (Ok tt, st') → keysOk st'.
Proof.
  intros Hkeys. unfold registerSiteStartPage.
  destruct (negb (JS.truthy (Playbook.site_startPage playbook))); [by intros [= <-]|].
  intros (rel & st1 & Hresolve & Hrun)%bind_Ok.
  destruct rel as [rel|]; [|done].
  apply resolvePage_registered in Hresolve as [-> _].
  apply bind_Ok in Hrun as (file & st2 & Halloc & Hadd).
  injection Halloc as <- <-.
  eapply addFile_keys in Hadd as [Hkeys' _]; [done|].
  intros id l Hl. simpl in Hl. destruct (Hkeys _ _ Hl) as (g & Hg & Hid).
  exists g. split; [|done]. simpl. by apply lookup_app_l_Some.
Qed.

(** In the catalog that [classifyContent] returns, every file is
    registered under the id of its own coordinates, so that [getById]
    finds a file by the coordinates it has, and no file object is
    registered twice; the aggregate lists each of its file objects
    once. *)
Theorem classifyContent_ids (playbook : Playbook.t)
    (aggregate : list ComponentVersion.t) (st0 st : State) (result : ContentCatalog.t)
    (Hfiles : NoDup (filesOf aggregate))
    (Hobjects : Forall (λ l, (l < length (heap st0))%nat) (filesOf aggregate))
    (Hclassified : classifyContent cwd versionCompare START_PAGE_ID playbook aggregate st0
                   = (Ok result, st)) :
  (∀ id l, ContentCatalog.files (catalog st) !! id = Some l →
           ∃ f, heap st !! l = Some f ∧ generateId (File.src f) = id ∧
                getById (File.src f) st = (Ok (Some l), st)) ∧
  (∀ id id' l, ContentCatalog.files (catalog st) !! id = Some l →
               ContentCatalog.files (catalog st) !! id' = Some l → id = id').
Proof.
  unfold classifyContent in Hclassified.
  apply bind_Ok in Hclassified as ([] & st1 & Hset & Hclassified).
  apply bind_Ok in Hclassified as ([] & st2 & Hloop & Hclassified).
  apply bind_Ok in Hclassified as ([] & st3 & Hstart & Hget).
  injection Hget as <- <-. injection Hset as <-.
  apply classify_aggregate_keys in Hloop; [|by intros id l; simpl; rewrite lookup_empty|done|].
  2:{ intros l Hl. split.
      - intros [id Hid]. simpl in Hid. by rewrite lookup_empty in Hid.
      - rewrite Forall_forall in Hobjects. by apply Hobjects. }
  pose proof (registerSiteStartPage_keys _ _ _ Hloop Hstart) as Hkeys.
  split.
  - intros id l Hl. destruct (Hkeys _ _ Hl) as (f & Hf & Hid). exists f.
    split; [done|]. split; [done|].
    unfold getById, bind, getCatalog, gets, ret. by rewrite Hid, Hl.
  - intros id id' l Hl Hl'. destruct (Hkeys _ _ Hl) as (f & Hf & <-).
    destruct (Hkeys _ _ Hl') as (f' & Hf' & <-). congruence.
Qed.

End ClassifiedIds.

Lemma classifyContent_ids_witness :
  ∃ result,
    classifyContent "/work" versionCompareDesc sampleStartPageId
      (samplePlaybook (Some "2.0@docs::intro")) docsAggregate docsStart
    = (Ok result, docsSiteState) ∧
    ∀ id l, ContentCatalog.files (catalog docsSiteState) !! id = Some l →
            ∃ f, heap docsSiteState !! l = Some f ∧ generateId (File.src f) = id.
Proof.
  assert (∃ result,
            classifyContent "/work" versionCompareDesc sampleStartPageId
              (samplePlaybook (Some "2.0@docs::intro")) docsAggregate docsStart
            = (Ok result, docsSiteState)) as [result Hclassified]
    by (eexists; vm_compute; reflexivity).
  exists result. split; [done|].
  assert (NoDup (filesOf docsAggregate)) as Hfiles by apply (NoDup_singleton 0%nat).
  assert (Forall (λ l, (l < length (heap docsStart))%nat) (filesOf docsAggregate))
    as Hobjects by (apply Forall_cons_2; [simpl; lia|apply Forall_nil_2]).
  destruct (classifyContent_ids _ _ _ _ _ _ _ _ Hfiles Hobjects Hclassified) as [Hids _].
  intros id l Hl. destruct (Hids id l Hl) as (f & Hf & Hid & _).
  exists f. split; [exact Hf|exact Hid].
Defined.
